(** * The recursive-descent parser of [src/parser.cpp], embedded in Rocq

    The parser turns the token sequence of the lexer into an [AstNode] tree.
    Every C++ function of the parser has one Rocq function of the same name.
    The token cursor ([int *token_index]) is passed in and handed back with
    the result; the only mutable field of the parse session, the pending
    directive list [pc->directive_list], is threaded through the declaration
    parsers together with the store of the directive lists it points into.
    [ast_error] ends the process: it is the outcome [Exit]. *)

From Stdlib Require Import ZArith Ascii String.
From stdpp Require Import base tactics option list strings.

Local Open Scope string_scope.
Local Open Scope list_scope.
Local Set Warnings "-register-all".

(** ** Tokens *)

(** Modelled from the spec: the token kinds of the lexer ([tokenizer.hpp] is
    not part of the sources at hand). These are the kinds [parser.cpp] names,
    and the end-of-file sentinel of the lexer contract. *)
Inductive TokenId : Type :=
  | TokenIdEof
  | TokenIdSymbol
  | TokenIdKeywordFn
  | TokenIdKeywordReturn
  | TokenIdKeywordMut
  | TokenIdKeywordConst
  | TokenIdKeywordExtern
  | TokenIdKeywordUnreachable
  | TokenIdKeywordPub
  | TokenIdKeywordExport
  | TokenIdKeywordAs
  | TokenIdKeywordUse
  | TokenIdLParen
  | TokenIdRParen
  | TokenIdComma
  | TokenIdStar
  | TokenIdLBrace
  | TokenIdRBrace
  | TokenIdStringLiteral
  | TokenIdSemicolon
  | TokenIdNumberLiteral
  | TokenIdPlus
  | TokenIdColon
  | TokenIdArrow
  | TokenIdDash
  | TokenIdNumberSign
  | TokenIdBoolOr
  | TokenIdBoolAnd
  | TokenIdBinOr
  | TokenIdBinAnd
  | TokenIdBinXor
  | TokenIdCmpEq
  | TokenIdBang
  | TokenIdTilde
  | TokenIdCmpNotEq
  | TokenIdCmpLessThan
  | TokenIdCmpGreaterThan
  | TokenIdCmpLessOrEq
  | TokenIdCmpGreaterOrEq
  | TokenIdBitShiftLeft
  | TokenIdBitShiftRight
  | TokenIdSlash
  | TokenIdPercent.

#[global] Instance TokenId_eq_dec : EqDecision TokenId.
Proof. solve_decision. Defined.

(** Modelled from the spec: a token carries its kind, the byte offsets of its
    lexeme in the source buffer, and its line and column. The offsets index
    the buffer, so they are natural numbers; line and column are C [int]s
    that the parser only copies. *)
Record Token : Type := mkToken {
  id : TokenId;
  start_pos : nat;
  end_pos : nat;
  start_line : Z;
  start_column : Z
}.

(** ** The syntax tree *)

Inductive BinOpType : Type :=
  | BinOpTypeInvalid
  | BinOpTypeBoolOr
  | BinOpTypeBoolAnd
  | BinOpTypeCmpEq
  | BinOpTypeCmpNotEq
  | BinOpTypeCmpLessThan
  | BinOpTypeCmpGreaterThan
  | BinOpTypeCmpLessOrEq
  | BinOpTypeCmpGreaterOrEq
  | BinOpTypeBinOr
  | BinOpTypeBinXor
  | BinOpTypeBinAnd
  | BinOpTypeBitShiftLeft
  | BinOpTypeBitShiftRight
  | BinOpTypeAdd
  | BinOpTypeSub
  | BinOpTypeMult
  | BinOpTypeDiv
  | BinOpTypeMod.

Inductive PrefixOp : Type :=
  | PrefixOpInvalid
  | PrefixOpBoolNot
  | PrefixOpBinNot
  | PrefixOpNegation.

Inductive FnProtoVisibMod : Type :=
  | FnProtoVisibModPrivate
  | FnProtoVisibModPub
  | FnProtoVisibModExport.

#[global] Instance BinOpType_eq_dec : EqDecision BinOpType.
Proof. solve_decision. Defined.
#[global] Instance PrefixOp_eq_dec : EqDecision PrefixOp.
Proof. solve_decision. Defined.

(** [node->line] and [node->column]. *)
Record Pos : Type := mkPos { line : Z; column : Z }.

(** A [ZigList<AstNode *> *]: the address of a directive list in the store. *)
Definition ListPtr : Type := nat.

(** Modelled from the spec: the node type of [parser.hpp], a tag and a
    payload keyed by the tag, with the fields [parser.cpp] reads and writes.
    Each constructor is one [NodeType]; a [NodeTypeType] node is one of its
    two variants [AstNodeTypeTypePrimitive] and [AstNodeTypeTypePointer]. The
    [directives] field is a pointer ([None] is [nullptr]) to a list that
    lives in the store; the other lists are members of the node itself. The
    [owner] stamp is the same in every node of a session and is left out. *)
Inductive AstNode : Type :=
  | NodeTypeRoot (p : Pos) (top_level_decls : list AstNode)
  | NodeTypeRootExportDecl (p : Pos) (directives : option ListPtr)
      (type : string) (name : string)
  | NodeTypeFnProto (p : Pos) (directives : option ListPtr)
      (visib_mod : FnProtoVisibMod) (name : string)
      (params : list AstNode) (return_type : AstNode)
  | NodeTypeFnDef (p : Pos) (fn_proto : AstNode) (body : AstNode)
  | NodeTypeFnDecl (p : Pos) (fn_proto : AstNode)
  | NodeTypeParamDecl (p : Pos) (name : string) (type : AstNode)
  | NodeTypeTypePrimitive (p : Pos) (primitive_name : string)
  | NodeTypeTypePointer (p : Pos) (is_const : bool) (child_type : AstNode)
  | NodeTypeBlock (p : Pos) (statements : list AstNode)
  | NodeTypeExternBlock (p : Pos) (directives : option ListPtr)
      (fn_decls : list AstNode)
  | NodeTypeDirective (p : Pos) (name : string) (param : string)
  | NodeTypeReturnExpr (p : Pos) (expr : option AstNode)
  | NodeTypeBinOpExpr (p : Pos) (op1 : AstNode) (bin_op : BinOpType)
      (op2 : AstNode)
  | NodeTypeCastExpr (p : Pos) (prefix_op_expr : AstNode) (type : AstNode)
  | NodeTypeNumberLiteral (p : Pos) (number : string)
  | NodeTypeStringLiteral (p : Pos) (str : string)
  | NodeTypeUnreachable (p : Pos)
  | NodeTypeSymbol (p : Pos) (symbol : string)
  | NodeTypePrefixOpExpr (p : Pos) (prefix_op : PrefixOp)
      (primary_expr : AstNode)
  | NodeTypeFnCallExpr (p : Pos) (fn_ref_expr : AstNode)
      (params : list AstNode)
  | NodeTypeUse (p : Pos) (directives : option ListPtr) (path : string).

(** [node->line], [node->column] of any node. *)
Definition node_pos (node : AstNode) : Pos :=
  match node with
  | NodeTypeRoot p _ | NodeTypeRootExportDecl p _ _ _
  | NodeTypeFnProto p _ _ _ _ _ | NodeTypeFnDef p _ _ | NodeTypeFnDecl p _
  | NodeTypeParamDecl p _ _ | NodeTypeTypePrimitive p _
  | NodeTypeTypePointer p _ _ | NodeTypeBlock p _
  | NodeTypeExternBlock p _ _ | NodeTypeDirective p _ _
  | NodeTypeReturnExpr p _ | NodeTypeBinOpExpr p _ _ _
  | NodeTypeCastExpr p _ _ | NodeTypeNumberLiteral p _
  | NodeTypeStringLiteral p _ | NodeTypeUnreachable p | NodeTypeSymbol p _
  | NodeTypePrefixOpExpr p _ _ | NodeTypeFnCallExpr p _ _
  | NodeTypeUse p _ _ => p
  end.

(** ** Outcomes *)

(** The record [ast_error] fills in before it prints it and exits. The end
    position is always the sentinel -1; path, source text and line offsets
    come from the owner and are left out. *)
Record ErrorMsg : Type := mkErrorMsg {
  line_start : Z;
  column_start : Z;
  line_end : Z;
  column_end : Z;
  msg : string
}.

(** The outcome of a parser function: it returns ([Ok]), it reports a
    diagnostic and exits the process ([Exit]), it trips an [assert] or reads
    the token list out of range ([Abort]), or the model ran out of fuel. *)
Inductive Res (A : Type) : Type :=
  | Ok (a : A)
  | Exit (e : ErrorMsg)
  | Abort
  | OutOfFuel.
Arguments Ok {A} a.
Arguments Exit {A} e.
Arguments Abort {A}.
Arguments OutOfFuel {A}.

Definition bind {A B : Type} (m : Res A) (k : A -> Res B) : Res B :=
  match m with
  | Ok a => k a
  | Exit e => Exit e
  | Abort => Abort
  | OutOfFuel => OutOfFuel
  end.

Notation "'let*' x ':=' m 'in' k" := (bind m (fun x => k))
  (at level 10, x pattern, m at level 200, k at level 200).

(** ** The parse session *)

(** The fields of [ParseContext] that stay fixed during a parse: the source
    buffer and the token list. *)
Record ParseContext : Type := mkParseContext {
  buf : string;
  tokens : list Token
}.

(** The mutable part of the session: the pending directive list
    [pc->directive_list] ([None] is [nullptr]) and the store of all directive
    lists allocated so far, addressed by [ListPtr]. *)
Record ParseState : Type := mkParseState {
  directive_list : option ListPtr;
  lists : list (list AstNode)
}.

(** [allocate<ZigList<AstNode*>>(1)]: a fresh empty list at a new address. *)
Definition allocate_list (st : ParseState) : ListPtr * list (list AstNode) :=
  (length (lists st), lists st ++ [[]]).

(** [directives->append(node)] on the list at address [p]. *)
Definition list_append (p : ListPtr) (node : AstNode)
    (ls : list (list AstNode)) : list (list AstNode) :=
  alter (fun l => l ++ [node]) p ls.

(** [pc->directive_list->length] *)
Definition list_length (p : ListPtr) (ls : list (list AstNode)) : nat :=
  match ls !! p with
  | Some l => length l
  | None => 0
  end.

Section Parser.

Variable pc : ParseContext.

(** [pc->tokens->at(i)]; out of range the process does not continue. *)
Definition token_at (i : nat) : Res Token :=
  match tokens pc !! i with
  | Some t => Ok t
  | None => Abort
  end.

Definition ast_error {A : Type} (token : Token) (message : string) : Res A :=
  Exit {| line_start := start_line token;
          column_start := start_column token;
          line_end := (-1)%Z;
          column_end := (-1)%Z;
          msg := message |}.

Definition pos_of_token (first_token : Token) : Pos :=
  {| line := start_line first_token; column := start_column first_token |}.

(** The bytes of the lexeme, [buf_init_from_mem] on the token's range. *)
Definition ast_buf_from_token (token : Token) : string :=
  substring (start_pos token) (end_pos token - start_pos token) (buf pc).

Definition ast_create_void_type_node (token : Token) : AstNode :=
  NodeTypeTypePrimitive (pos_of_token token) "void".

(** The loop of [parse_string_literal] over the bytes between the quotes:
    [escape] is the flag of the loop, [out] the buffer written so far. *)
Fixpoint parse_string_literal_loop (bytes : string) (escape : bool)
    (out : string) : bool * string :=
  match bytes with
  | EmptyString => (escape, out)
  | String c rest =>
      if escape then
        let out' :=
          if Ascii.eqb c "\" then out +:+ String "\" EmptyString
          else if Ascii.eqb c "r" then out +:+ String "013" EmptyString
          else if Ascii.eqb c "n" then out +:+ String "010" EmptyString
          else if Ascii.eqb c "t" then out +:+ String "009" EmptyString
          else if Ascii.eqb c "034" then out +:+ String "034" EmptyString
          else out in
        parse_string_literal_loop rest false out'
      else if Ascii.eqb c "\" then
        parse_string_literal_loop rest true out
      else
        parse_string_literal_loop rest false (out +:+ String c EmptyString)
  end.

(** The bytes at offsets [start_pos + 1 .. end_pos - 2], the range of the
    loop [for (i = start_pos + 1; i < end_pos - 1; i += 1)]. *)
Definition string_literal_bytes (token : Token) : string :=
  substring (start_pos token + 1) (end_pos token - 1 - (start_pos token + 1))
    (buf pc).

Definition parse_string_literal (token : Token) : Res string :=
  let '(escape, out) :=
    parse_string_literal_loop (string_literal_bytes token) false "" in
  if escape then Abort else Ok out.

(** What a [%s] of [fprintf] or [buf_vprintf] writes for the argument
    [buf_ptr(b)]: the bytes of the buffer before its first NUL byte. *)
Fixpoint c_str (b : string) : string :=
  match b with
  | EmptyString => EmptyString
  | String c rest =>
      if Ascii.eqb c "000" then EmptyString else String c (c_str rest)
  end.

(** [ast_error(pc, token, "invalid token: '%s'", buf_ptr(&token_value))] *)
Definition ast_invalid_token_error {A : Type} (token : Token) : Res A :=
  ast_error token
    ("invalid token: '" +:+ c_str (ast_buf_from_token token) +:+ "'").

Definition ast_expect_token (token : Token) (token_id : TokenId) : Res unit :=
  if decide (id token <> token_id) then ast_invalid_token_error token
  else Ok tt.

(** A pointer the caller stores in a child slot without a test. Every such
    pointer comes from a call with [mandatory = true], which never returns
    [nullptr] (see [expression_parsers_null]). *)
Definition non_null (r : Res (option AstNode * nat)) : Res (AstNode * nat) :=
  let* (node, token_index) := r in
  match node with
  | Some node => Ok (node, token_index)
  | None => Abort
  end.

(** ** Directives, types and parameters *)

Definition ast_parse_directive (token_index : nat) : Res (AstNode * nat) :=
  let* number_sign := token_at token_index in
  let token_index := token_index + 1 in
  let* _ := ast_expect_token number_sign TokenIdNumberSign in
  let* name_symbol := token_at token_index in
  let token_index := token_index + 1 in
  let* _ := ast_expect_token name_symbol TokenIdSymbol in
  let* l_paren := token_at token_index in
  let token_index := token_index + 1 in
  let* _ := ast_expect_token l_paren TokenIdLParen in
  let* param_str := token_at token_index in
  let token_index := token_index + 1 in
  let* _ := ast_expect_token param_str TokenIdStringLiteral in
  let* param := parse_string_literal param_str in
  let* r_paren := token_at token_index in
  let token_index := token_index + 1 in
  let* _ := ast_expect_token r_paren TokenIdRParen in
  Ok (NodeTypeDirective (pos_of_token number_sign)
        (ast_buf_from_token name_symbol) param, token_index).

(** The loop appends to the list at address [directives] in the store. *)
Fixpoint ast_parse_directives (fuel : nat) (token_index : nat)
    (directives : ListPtr) (ls : list (list AstNode))
    : Res (nat * list (list AstNode)) :=
  match fuel with
  | O => OutOfFuel
  | S fuel =>
      let* token := token_at token_index in
      if decide (id token = TokenIdNumberSign) then
        let* (directive_node, token_index) :=
          ast_parse_directive token_index in
        ast_parse_directives fuel token_index directives
          (list_append directives directive_node ls)
      else Ok (token_index, ls)
  end.

Fixpoint ast_parse_type (fuel : nat) (token_index : nat)
    : Res (AstNode * nat) :=
  match fuel with
  | O => OutOfFuel
  | S fuel =>
      let* token := token_at token_index in
      let token_index := token_index + 1 in
      if decide (id token = TokenIdKeywordUnreachable) then
        Ok (NodeTypeTypePrimitive (pos_of_token token) "unreachable",
            token_index)
      else if decide (id token = TokenIdSymbol) then
        Ok (NodeTypeTypePrimitive (pos_of_token token)
              (ast_buf_from_token token), token_index)
      else if decide (id token = TokenIdStar) then
        let* const_or_mut := token_at token_index in
        let token_index := token_index + 1 in
        let* is_const :=
          if decide (id const_or_mut = TokenIdKeywordMut) then Ok false
          else if decide (id const_or_mut = TokenIdKeywordConst) then Ok true
          else ast_invalid_token_error const_or_mut in
        let* (child_type, token_index) := ast_parse_type fuel token_index in
        Ok (NodeTypeTypePointer (pos_of_token token) is_const child_type,
            token_index)
      else ast_invalid_token_error token
  end.

Definition ast_parse_param_decl (fuel : nat) (token_index : nat)
    : Res (AstNode * nat) :=
  let* param_name := token_at token_index in
  let token_index := token_index + 1 in
  let* _ := ast_expect_token param_name TokenIdSymbol in
  let* colon := token_at token_index in
  let token_index := token_index + 1 in
  let* _ := ast_expect_token colon TokenIdColon in
  let* (type, token_index) := ast_parse_type fuel token_index in
  Ok (NodeTypeParamDecl (pos_of_token param_name)
        (ast_buf_from_token param_name) type, token_index).

(** The [for (;;)] loop of [ast_parse_param_decl_list]. *)
Fixpoint ast_parse_param_decl_list_loop (fuel : nat) (token_index : nat)
    (params : list AstNode) : Res (list AstNode * nat) :=
  match fuel with
  | O => OutOfFuel
  | S fuel =>
      let* (param_decl_node, token_index) :=
        ast_parse_param_decl fuel token_index in
      let params := params ++ [param_decl_node] in
      let* token := token_at token_index in
      let token_index := token_index + 1 in
      if decide (id token = TokenIdRParen) then Ok (params, token_index)
      else
        let* _ := ast_expect_token token TokenIdComma in
        ast_parse_param_decl_list_loop fuel token_index params
  end.

Definition ast_parse_param_decl_list (fuel : nat) (token_index : nat)
    : Res (list AstNode * nat) :=
  let* l_paren := token_at token_index in
  let token_index := token_index + 1 in
  let* _ := ast_expect_token l_paren TokenIdLParen in
  let* token := token_at token_index in
  if decide (id token = TokenIdRParen) then Ok ([], token_index + 1)
  else ast_parse_param_decl_list_loop fuel token_index [].

(** ** Operators *)

Definition tok_to_prefix_op (token : Token) : PrefixOp :=
  match id token with
  | TokenIdBang => PrefixOpBoolNot
  | TokenIdDash => PrefixOpNegation
  | TokenIdTilde => PrefixOpBinNot
  | _ => PrefixOpInvalid
  end.

Definition ast_parse_prefix_op (token_index : nat) (mandatory : bool)
    : Res (PrefixOp * nat) :=
  let* token := token_at token_index in
  let result := tok_to_prefix_op token in
  if decide (result = PrefixOpInvalid) then
    if mandatory then ast_invalid_token_error token
    else Ok (PrefixOpInvalid, token_index)
  else Ok (result, token_index + 1).

Definition tok_to_mult_op (token : Token) : BinOpType :=
  match id token with
  | TokenIdStar => BinOpTypeMult
  | TokenIdSlash => BinOpTypeDiv
  | TokenIdPercent => BinOpTypeMod
  | _ => BinOpTypeInvalid
  end.

Definition tok_to_add_op (token : Token) : BinOpType :=
  match id token with
  | TokenIdPlus => BinOpTypeAdd
  | TokenIdDash => BinOpTypeSub
  | _ => BinOpTypeInvalid
  end.

Definition tok_to_bit_shift_op (token : Token) : BinOpType :=
  match id token with
  | TokenIdBitShiftLeft => BinOpTypeBitShiftLeft
  | TokenIdBitShiftRight => BinOpTypeBitShiftRight
  | _ => BinOpTypeInvalid
  end.

Definition tok_to_cmp_op (token : Token) : BinOpType :=
  match id token with
  | TokenIdCmpEq => BinOpTypeCmpEq
  | TokenIdCmpNotEq => BinOpTypeCmpNotEq
  | TokenIdCmpLessThan => BinOpTypeCmpLessThan
  | TokenIdCmpGreaterThan => BinOpTypeCmpGreaterThan
  | TokenIdCmpLessOrEq => BinOpTypeCmpLessOrEq
  | TokenIdCmpGreaterOrEq => BinOpTypeCmpGreaterOrEq
  | _ => BinOpTypeInvalid
  end.

(** The body shared by [ast_parse_mult_op], [ast_parse_add_op],
    [ast_parse_bit_shift_op] and [ast_parse_comparison_operator], which
    differ in the table [tok_to_op] only. *)
Definition ast_parse_bin_op (tok_to_op : Token -> BinOpType)
    (token_index : nat) (mandatory : bool) : Res (BinOpType * nat) :=
  let* token := token_at token_index in
  let result := tok_to_op token in
  if decide (result = BinOpTypeInvalid) then
    if mandatory then ast_invalid_token_error token
    else Ok (BinOpTypeInvalid, token_index)
  else Ok (result, token_index + 1).

Definition ast_parse_mult_op := ast_parse_bin_op tok_to_mult_op.
Definition ast_parse_add_op := ast_parse_bin_op tok_to_add_op.
Definition ast_parse_bit_shift_op := ast_parse_bin_op tok_to_bit_shift_op.
Definition ast_parse_comparison_operator := ast_parse_bin_op tok_to_cmp_op.

(** ** Expressions

    The functions of the expression grammar call each other in a cycle
    (a primary expression may be a block or a parenthesised expression), so
    they are one recursive definition. [fuel] bounds the depth of the calls:
    each call passes on one unit less. *)

Fixpoint ast_parse_fn_call_param_list_loop (fuel : nat) (token_index : nat)
    (params : list AstNode) {struct fuel} : Res (list AstNode * nat) :=
  match fuel with
  | O => OutOfFuel
  | S fuel =>
      let* (expr, token_index) :=
        non_null (ast_parse_expression fuel token_index true) in
      let params := params ++ [expr] in
      let* token := token_at token_index in
      let token_index := token_index + 1 in
      if decide (id token = TokenIdRParen) then Ok (params, token_index)
      else
        let* _ := ast_expect_token token TokenIdComma in
        ast_parse_fn_call_param_list_loop fuel token_index params
  end

with ast_parse_fn_call_param_list (fuel : nat) (token_index : nat)
    {struct fuel} : Res (list AstNode * nat) :=
  match fuel with
  | O => OutOfFuel
  | S fuel =>
      let* l_paren := token_at token_index in
      let token_index := token_index + 1 in
      let* _ := ast_expect_token l_paren TokenIdLParen in
      let* token := token_at token_index in
      if decide (id token = TokenIdRParen) then Ok ([], token_index + 1)
      else ast_parse_fn_call_param_list_loop fuel token_index []
  end

with ast_parse_grouped_expr (fuel : nat) (token_index : nat)
    (mandatory : bool) {struct fuel} : Res (option AstNode * nat) :=
  match fuel with
  | O => OutOfFuel
  | S fuel =>
      let* l_paren := token_at token_index in
      if decide (id l_paren <> TokenIdLParen) then
        if mandatory then ast_invalid_token_error l_paren
        else Ok (None, token_index)
      else
        let token_index := token_index + 1 in
        let* (node, token_index) :=
          ast_parse_expression fuel token_index true in
        let* r_paren := token_at token_index in
        let token_index := token_index + 1 in
        let* _ := ast_expect_token r_paren TokenIdRParen in
        Ok (node, token_index)
  end

with ast_parse_primary_expr (fuel : nat) (token_index : nat)
    (mandatory : bool) {struct fuel} : Res (option AstNode * nat) :=
  match fuel with
  | O => OutOfFuel
  | S fuel =>
      let* token := token_at token_index in
      if decide (id token = TokenIdNumberLiteral) then
        Ok (Some (NodeTypeNumberLiteral (pos_of_token token)
                    (ast_buf_from_token token)), token_index + 1)
      else if decide (id token = TokenIdStringLiteral) then
        let* str := parse_string_literal token in
        Ok (Some (NodeTypeStringLiteral (pos_of_token token) str),
            token_index + 1)
      else if decide (id token = TokenIdKeywordUnreachable) then
        Ok (Some (NodeTypeUnreachable (pos_of_token token)), token_index + 1)
      else if decide (id token = TokenIdSymbol) then
        Ok (Some (NodeTypeSymbol (pos_of_token token)
                    (ast_buf_from_token token)), token_index + 1)
      else
        let* (block_node, token_index) :=
          ast_parse_block fuel token_index false in
        match block_node with
        | Some _ => Ok (block_node, token_index)
        | None =>
            let* (grouped_expr_node, token_index) :=
              ast_parse_grouped_expr fuel token_index false in
            match grouped_expr_node with
            | Some _ => Ok (grouped_expr_node, token_index)
            | None =>
                if negb mandatory then Ok (None, token_index)
                else ast_invalid_token_error token
            end
        end
  end

with ast_parse_fn_call_expr (fuel : nat) (token_index : nat)
    (mandatory : bool) {struct fuel} : Res (option AstNode * nat) :=
  match fuel with
  | O => OutOfFuel
  | S fuel =>
      let* (primary_expr, token_index) :=
        ast_parse_primary_expr fuel token_index mandatory in
      match primary_expr with
      | None => Ok (None, token_index)
      | Some primary_expr =>
          let* l_paren := token_at token_index in
          if decide (id l_paren <> TokenIdLParen) then
            Ok (Some primary_expr, token_index)
          else
            let* (params, token_index) :=
              ast_parse_fn_call_param_list fuel token_index in
            Ok (Some (NodeTypeFnCallExpr (node_pos primary_expr)
                        primary_expr params), token_index)
      end
  end

with ast_parse_prefix_op_expr (fuel : nat) (token_index : nat)
    (mandatory : bool) {struct fuel} : Res (option AstNode * nat) :=
  match fuel with
  | O => OutOfFuel
  | S fuel =>
      let* token := token_at token_index in
      let* (prefix_op, token_index) := ast_parse_prefix_op token_index false in
      if decide (prefix_op = PrefixOpInvalid) then
        ast_parse_fn_call_expr fuel token_index mandatory
      else
        let* (primary_expr, token_index) :=
          non_null (ast_parse_fn_call_expr fuel token_index true) in
        Ok (Some (NodeTypePrefixOpExpr (pos_of_token token) prefix_op
                    primary_expr), token_index)
  end

with ast_parse_cast_expression (fuel : nat) (token_index : nat)
    (mandatory : bool) {struct fuel} : Res (option AstNode * nat) :=
  match fuel with
  | O => OutOfFuel
  | S fuel =>
      let* (prefix_op_expr, token_index) :=
        ast_parse_prefix_op_expr fuel token_index mandatory in
      match prefix_op_expr with
      | None => Ok (None, token_index)
      | Some prefix_op_expr =>
          let* as_kw := token_at token_index in
          if decide (id as_kw <> TokenIdKeywordAs) then
            Ok (Some prefix_op_expr, token_index)
          else
            let token_index := token_index + 1 in
            let* (type, token_index) := ast_parse_type fuel token_index in
            Ok (Some (NodeTypeCastExpr (pos_of_token as_kw) prefix_op_expr
                        type), token_index)
      end
  end

with ast_parse_mult_expr (fuel : nat) (token_index : nat) (mandatory : bool)
    {struct fuel} : Res (option AstNode * nat) :=
  match fuel with
  | O => OutOfFuel
  | S fuel =>
      let* (operand_1, token_index) :=
        ast_parse_cast_expression fuel token_index mandatory in
      match operand_1 with
      | None => Ok (None, token_index)
      | Some operand_1 =>
          let* token := token_at token_index in
          let* (mult_op, token_index) := ast_parse_mult_op token_index false in
          if decide (mult_op = BinOpTypeInvalid) then
            Ok (Some operand_1, token_index)
          else
            let* (operand_2, token_index) :=
              non_null (ast_parse_cast_expression fuel token_index true) in
            Ok (Some (NodeTypeBinOpExpr (pos_of_token token) operand_1
                        mult_op operand_2), token_index)
      end
  end

with ast_parse_add_expr (fuel : nat) (token_index : nat) (mandatory : bool)
    {struct fuel} : Res (option AstNode * nat) :=
  match fuel with
  | O => OutOfFuel
  | S fuel =>
      let* (operand_1, token_index) :=
        ast_parse_mult_expr fuel token_index mandatory in
      match operand_1 with
      | None => Ok (None, token_index)
      | Some operand_1 =>
          let* token := token_at token_index in
          let* (add_op, token_index) := ast_parse_add_op token_index false in
          if decide (add_op = BinOpTypeInvalid) then
            Ok (Some operand_1, token_index)
          else
            let* (operand_2, token_index) :=
              non_null (ast_parse_mult_expr fuel token_index true) in
            Ok (Some (NodeTypeBinOpExpr (pos_of_token token) operand_1
                        add_op operand_2), token_index)
      end
  end

with ast_parse_bit_shift_expr (fuel : nat) (token_index : nat) (mandatory : bool)
    {struct fuel} : Res (option AstNode * nat) :=
  match fuel with
  | O => OutOfFuel
  | S fuel =>
      let* (operand_1, token_index) :=
        ast_parse_add_expr fuel token_index mandatory in
      match operand_1 with
      | None => Ok (None, token_index)
      | Some operand_1 =>
          let* token := token_at token_index in
          let* (bit_shift_op, token_index) := ast_parse_bit_shift_op token_index false in
          if decide (bit_shift_op = BinOpTypeInvalid) then
            Ok (Some operand_1, token_index)
          else
            let* (operand_2, token_index) :=
              non_null (ast_parse_add_expr fuel token_index true) in
            Ok (Some (NodeTypeBinOpExpr (pos_of_token token) operand_1
                        bit_shift_op operand_2), token_index)
      end
  end

with ast_parse_bin_and_expr (fuel : nat) (token_index : nat) (mandatory : bool)
    {struct fuel} : Res (option AstNode * nat) :=
  match fuel with
  | O => OutOfFuel
  | S fuel =>
      let* (operand_1, token_index) :=
        ast_parse_bit_shift_expr fuel token_index mandatory in
      match operand_1 with
      | None => Ok (None, token_index)
      | Some operand_1 =>
          let* token := token_at token_index in
          if decide (id token <> TokenIdBinAnd) then
            Ok (Some operand_1, token_index)
          else
            let token_index := token_index + 1 in
            let* (operand_2, token_index) :=
              non_null (ast_parse_bit_shift_expr fuel token_index true) in
            Ok (Some (NodeTypeBinOpExpr (pos_of_token token) operand_1
                        BinOpTypeBinAnd operand_2), token_index)
      end
  end

with ast_parse_bin_xor_expr (fuel : nat) (token_index : nat) (mandatory : bool)
    {struct fuel} : Res (option AstNode * nat) :=
  match fuel with
  | O => OutOfFuel
  | S fuel =>
      let* (operand_1, token_index) :=
        ast_parse_bin_and_expr fuel token_index mandatory in
      match operand_1 with
      | None => Ok (None, token_index)
      | Some operand_1 =>
          let* token := token_at token_index in
          if decide (id token <> TokenIdBinXor) then
            Ok (Some operand_1, token_index)
          else
            let token_index := token_index + 1 in
            let* (operand_2, token_index) :=
              non_null (ast_parse_bin_and_expr fuel token_index true) in
            Ok (Some (NodeTypeBinOpExpr (pos_of_token token) operand_1
                        BinOpTypeBinXor operand_2), token_index)
      end
  end

with ast_parse_bin_or_expr (fuel : nat) (token_index : nat) (mandatory : bool)
    {struct fuel} : Res (option AstNode * nat) :=
  match fuel with
  | O => OutOfFuel
  | S fuel =>
      let* (operand_1, token_index) :=
        ast_parse_bin_xor_expr fuel token_index mandatory in
      match operand_1 with
      | None => Ok (None, token_index)
      | Some operand_1 =>
          let* token := token_at token_index in
          if decide (id token <> TokenIdBinOr) then
            Ok (Some operand_1, token_index)
          else
            let token_index := token_index + 1 in
            let* (operand_2, token_index) :=
              non_null (ast_parse_bin_xor_expr fuel token_index true) in
            Ok (Some (NodeTypeBinOpExpr (pos_of_token token) operand_1
                        BinOpTypeBinOr operand_2), token_index)
      end
  end

with ast_parse_comparison_expr (fuel : nat) (token_index : nat) (mandatory : bool)
    {struct fuel} : Res (option AstNode * nat) :=
  match fuel with
  | O => OutOfFuel
  | S fuel =>
      let* (operand_1, token_index) :=
        ast_parse_bin_or_expr fuel token_index mandatory in
      match operand_1 with
      | None => Ok (None, token_index)
      | Some operand_1 =>
          let* token := token_at token_index in
          let* (cmp_op, token_index) := ast_parse_comparison_operator token_index false in
          if decide (cmp_op = BinOpTypeInvalid) then
            Ok (Some operand_1, token_index)
          else
            let* (operand_2, token_index) :=
              non_null (ast_parse_bin_or_expr fuel token_index true) in
            Ok (Some (NodeTypeBinOpExpr (pos_of_token token) operand_1
                        cmp_op operand_2), token_index)
      end
  end

with ast_parse_bool_and_expr (fuel : nat) (token_index : nat) (mandatory : bool)
    {struct fuel} : Res (option AstNode * nat) :=
  match fuel with
  | O => OutOfFuel
  | S fuel =>
      let* (operand_1, token_index) :=
        ast_parse_comparison_expr fuel token_index mandatory in
      match operand_1 with
      | None => Ok (None, token_index)
      | Some operand_1 =>
          let* token := token_at token_index in
          if decide (id token <> TokenIdBoolAnd) then
            Ok (Some operand_1, token_index)
          else
            let token_index := token_index + 1 in
            let* (operand_2, token_index) :=
              non_null (ast_parse_comparison_expr fuel token_index true) in
            Ok (Some (NodeTypeBinOpExpr (pos_of_token token) operand_1
                        BinOpTypeBoolAnd operand_2), token_index)
      end
  end

with ast_parse_return_expr (fuel : nat) (token_index : nat)
    (mandatory : bool) {struct fuel} : Res (option AstNode * nat) :=
  match fuel with
  | O => OutOfFuel
  | S fuel =>
      let* return_tok := token_at token_index in
      if decide (id return_tok = TokenIdKeywordReturn) then
        let token_index := token_index + 1 in
        let* (expr, token_index) :=
          ast_parse_expression fuel token_index false in
        Ok (Some (NodeTypeReturnExpr (pos_of_token return_tok) expr),
            token_index)
      else if mandatory then ast_invalid_token_error return_tok
      else Ok (None, token_index)
  end

with ast_parse_bool_or_expr (fuel : nat) (token_index : nat) (mandatory : bool)
    {struct fuel} : Res (option AstNode * nat) :=
  match fuel with
  | O => OutOfFuel
  | S fuel =>
      let* (operand_1, token_index) :=
        ast_parse_bool_and_expr fuel token_index mandatory in
      match operand_1 with
      | None => Ok (None, token_index)
      | Some operand_1 =>
          let* token := token_at token_index in
          if decide (id token <> TokenIdBoolOr) then
            Ok (Some operand_1, token_index)
          else
            let token_index := token_index + 1 in
            let* (operand_2, token_index) :=
              non_null (ast_parse_bool_and_expr fuel token_index true) in
            Ok (Some (NodeTypeBinOpExpr (pos_of_token token) operand_1
                        BinOpTypeBoolOr operand_2), token_index)
      end
  end

with ast_parse_expression (fuel : nat) (token_index : nat)
    (mandatory : bool) {struct fuel} : Res (option AstNode * nat) :=
  match fuel with
  | O => OutOfFuel
  | S fuel =>
      let* token := token_at token_index in
      let* (return_expr, token_index) :=
        ast_parse_return_expr fuel token_index false in
      match return_expr with
      | Some _ => Ok (return_expr, token_index)
      | None =>
          let* (bool_or_expr, token_index) :=
            ast_parse_bool_or_expr fuel token_index false in
          match bool_or_expr with
          | Some _ => Ok (bool_or_expr, token_index)
          | None =>
              if negb mandatory then Ok (None, token_index)
              else ast_invalid_token_error token
          end
      end
  end

with ast_parse_expression_statement (fuel : nat) (token_index : nat)
    {struct fuel} : Res (AstNode * nat) :=
  match fuel with
  | O => OutOfFuel
  | S fuel =>
      let* (expr_node, token_index) :=
        non_null (ast_parse_expression fuel token_index true) in
      let* semicolon := token_at token_index in
      let token_index := token_index + 1 in
      let* _ := ast_expect_token semicolon TokenIdSemicolon in
      Ok (expr_node, token_index)
  end

with ast_parse_statement (fuel : nat) (token_index : nat)
    {struct fuel} : Res (AstNode * nat) :=
  match fuel with
  | O => OutOfFuel
  | S fuel => ast_parse_expression_statement fuel token_index
  end

with ast_parse_block_loop (fuel : nat) (token_index : nat)
    (statements : list AstNode) {struct fuel} : Res (list AstNode * nat) :=
  match fuel with
  | O => OutOfFuel
  | S fuel =>
      let* token := token_at token_index in
      if decide (id token = TokenIdRBrace) then
        Ok (statements, token_index + 1)
      else
        let* (statement_node, token_index) :=
          ast_parse_statement fuel token_index in
        ast_parse_block_loop fuel token_index
          (statements ++ [statement_node])
  end

with ast_parse_block (fuel : nat) (token_index : nat) (mandatory : bool)
    {struct fuel} : Res (option AstNode * nat) :=
  match fuel with
  | O => OutOfFuel
  | S fuel =>
      let* l_brace := token_at token_index in
      if decide (id l_brace <> TokenIdLBrace) then
        if mandatory then ast_invalid_token_error l_brace
        else Ok (None, token_index)
      else
        let token_index := token_index + 1 in
        let* (statements, token_index) :=
          ast_parse_block_loop fuel token_index [] in
        Ok (Some (NodeTypeBlock (pos_of_token l_brace) statements),
            token_index)
  end.

(** ** Declarations

    These functions read and write [pc->directive_list]; they take the
    session state and hand back the updated one. *)

(** [pc->directive_list = nullptr] *)
Definition clear_directive_list (st : ParseState) : ParseState :=
  {| directive_list := None; lists := lists st |}.

(** [pc->directive_list->length] *)
Definition directive_list_length (st : ParseState) : Res nat :=
  match directive_list st with
  | Some p => Ok (list_length p (lists st))
  | None => Abort
  end.

(** [assert(!pc->directive_list);
     pc->directive_list = allocate<ZigList<AstNode*>>(1);
     ast_parse_directives(pc, token_index, pc->directive_list);] *)
Definition collect_directives (fuel : nat) (token_index : nat)
    (st : ParseState) : Res (nat * ParseState) :=
  match directive_list st with
  | Some _ => Abort
  | None =>
      let (p, ls) := allocate_list st in
      let* (token_index, ls) := ast_parse_directives fuel token_index p ls in
      Ok (token_index, {| directive_list := Some p; lists := ls |})
  end.

(** The visibility prefix of [ast_parse_fn_proto]: [None] stands for the
    early [return nullptr]. *)
Definition ast_parse_fn_proto_visib (token : Token) (token_index : nat)
    (mandatory : bool) : Res (option FnProtoVisibMod * nat) :=
  if decide (id token = TokenIdKeywordPub) then
    let token_index := token_index + 1 in
    let* fn_token := token_at token_index in
    let token_index := token_index + 1 in
    let* _ := ast_expect_token fn_token TokenIdKeywordFn in
    Ok (Some FnProtoVisibModPub, token_index)
  else if decide (id token = TokenIdKeywordExport) then
    let token_index := token_index + 1 in
    let* fn_token := token_at token_index in
    let token_index := token_index + 1 in
    let* _ := ast_expect_token fn_token TokenIdKeywordFn in
    Ok (Some FnProtoVisibModExport, token_index)
  else if decide (id token = TokenIdKeywordFn) then
    Ok (Some FnProtoVisibModPrivate, token_index + 1)
  else if mandatory then ast_invalid_token_error token
  else Ok (None, token_index).

Definition ast_parse_fn_proto (fuel : nat) (token_index : nat)
    (mandatory : bool) (st : ParseState)
    : Res (option AstNode * nat * ParseState) :=
  let* token := token_at token_index in
  let* (visib_mod, token_index) :=
    ast_parse_fn_proto_visib token token_index mandatory in
  match visib_mod with
  | None => Ok (None, token_index, st)
  | Some visib_mod =>
      let directives := directive_list st in
      let st := clear_directive_list st in
      let* fn_name := token_at token_index in
      let token_index := token_index + 1 in
      let* _ := ast_expect_token fn_name TokenIdSymbol in
      let* (params, token_index) :=
        ast_parse_param_decl_list fuel token_index in
      let* arrow := token_at token_index in
      let* (return_type, token_index) :=
        if decide (id arrow = TokenIdArrow) then
          let token_index := token_index + 1 in
          ast_parse_type fuel token_index
        else Ok (ast_create_void_type_node arrow, token_index) in
      Ok (Some (NodeTypeFnProto (pos_of_token token) directives visib_mod
                  (ast_buf_from_token fn_name) params return_type),
          token_index, st)
  end.

Definition ast_parse_fn_def (fuel : nat) (token_index : nat)
    (mandatory : bool) (st : ParseState)
    : Res (option AstNode * nat * ParseState) :=
  let* (fn_proto, token_index, st) :=
    ast_parse_fn_proto fuel token_index mandatory st in
  match fn_proto with
  | None => Ok (None, token_index, st)
  | Some fn_proto =>
      let* (body, token_index) :=
        non_null (ast_parse_block fuel token_index true) in
      Ok (Some (NodeTypeFnDef (node_pos fn_proto) fn_proto body),
          token_index, st)
  end.

Definition ast_parse_fn_decl (fuel : nat) (token_index : nat)
    (st : ParseState) : Res (AstNode * nat * ParseState) :=
  let* (fn_proto, token_index, st) :=
    ast_parse_fn_proto fuel token_index true st in
  match fn_proto with
  | None => Abort
  | Some fn_proto =>
      let* semicolon := token_at token_index in
      let token_index := token_index + 1 in
      let* _ := ast_expect_token semicolon TokenIdSemicolon in
      Ok (NodeTypeFnDecl (node_pos fn_proto) fn_proto, token_index, st)
  end.

(** The [for (;;)] loop of [ast_parse_extern_block]. *)
Fixpoint ast_parse_extern_block_loop (fuel : nat) (token_index : nat)
    (st : ParseState) (fn_decls : list AstNode)
    : Res (list AstNode * nat * ParseState) :=
  match fuel with
  | O => OutOfFuel
  | S fuel =>
      let* directive_token := token_at token_index in
      let* (token_index, st) := collect_directives fuel token_index st in
      let* token := token_at token_index in
      if decide (id token = TokenIdRBrace) then
        let* len := directive_list_length st in
        if decide (0 < len) then ast_error directive_token "invalid directive"
        else Ok (fn_decls, token_index + 1, clear_directive_list st)
      else
        let* (child, token_index, st) :=
          ast_parse_fn_decl fuel token_index st in
        ast_parse_extern_block_loop fuel token_index st (fn_decls ++ [child])
  end.

Definition ast_parse_extern_block (fuel : nat) (token_index : nat)
    (mandatory : bool) (st : ParseState)
    : Res (option AstNode * nat * ParseState) :=
  let* extern_kw := token_at token_index in
  if decide (id extern_kw <> TokenIdKeywordExtern) then
    if mandatory then ast_invalid_token_error extern_kw
    else Ok (None, token_index, st)
  else
    let token_index := token_index + 1 in
    let directives := directive_list st in
    let st := clear_directive_list st in
    let* l_brace := token_at token_index in
    let token_index := token_index + 1 in
    let* _ := ast_expect_token l_brace TokenIdLBrace in
    let* (fn_decls, token_index, st) :=
      ast_parse_extern_block_loop fuel token_index st [] in
    Ok (Some (NodeTypeExternBlock (pos_of_token extern_kw) directives
                fn_decls), token_index, st).

Definition ast_parse_root_export_decl (token_index : nat) (mandatory : bool)
    (st : ParseState) : Res (option AstNode * nat * ParseState) :=
  if mandatory then Abort
  else
    let* export_kw := token_at token_index in
    if decide (id export_kw <> TokenIdKeywordExport) then
      Ok (None, token_index, st)
    else
      let* export_type := token_at (token_index + 1) in
      if decide (id export_type <> TokenIdSymbol) then
        Ok (None, token_index, st)
      else
        let token_index := token_index + 2 in
        let directives := directive_list st in
        let st := clear_directive_list st in
        let* export_name := token_at token_index in
        let token_index := token_index + 1 in
        let* _ := ast_expect_token export_name TokenIdStringLiteral in
        let* name := parse_string_literal export_name in
        let* semicolon := token_at token_index in
        let token_index := token_index + 1 in
        let* _ := ast_expect_token semicolon TokenIdSemicolon in
        Ok (Some (NodeTypeRootExportDecl (pos_of_token export_kw) directives
                    (ast_buf_from_token export_type) name),
            token_index, st).

Definition ast_parse_use (token_index : nat) (mandatory : bool)
    (st : ParseState) : Res (option AstNode * nat * ParseState) :=
  if mandatory then Abort
  else
    let* use_kw := token_at token_index in
    if decide (id use_kw <> TokenIdKeywordUse) then
      Ok (None, token_index, st)
    else
      let token_index := token_index + 1 in
      let* use_name := token_at token_index in
      let token_index := token_index + 1 in
      let* _ := ast_expect_token use_name TokenIdStringLiteral in
      let* semicolon := token_at token_index in
      let token_index := token_index + 1 in
      let* _ := ast_expect_token semicolon TokenIdSemicolon in
      let* path := parse_string_literal use_name in
      let directives := directive_list st in
      let st := clear_directive_list st in
      Ok (Some (NodeTypeUse (pos_of_token use_kw) directives path),
          token_index, st).

Fixpoint ast_parse_top_level_decls (fuel : nat) (token_index : nat)
    (st : ParseState) (top_level_decls : list AstNode)
    : Res (list AstNode * nat * ParseState) :=
  match fuel with
  | O => OutOfFuel
  | S fuel =>
      let* directive_token := token_at token_index in
      let* (token_index, st) := collect_directives fuel token_index st in
      let* (root_export_decl_node, token_index, st) :=
        ast_parse_root_export_decl token_index false st in
      match root_export_decl_node with
      | Some node =>
          ast_parse_top_level_decls fuel token_index st
            (top_level_decls ++ [node])
      | None =>
      let* (fn_def_node, token_index, st) :=
        ast_parse_fn_def fuel token_index false st in
      match fn_def_node with
      | Some node =>
          ast_parse_top_level_decls fuel token_index st
            (top_level_decls ++ [node])
      | None =>
      let* (extern_node, token_index, st) :=
        ast_parse_extern_block fuel token_index false st in
      match extern_node with
      | Some node =>
          ast_parse_top_level_decls fuel token_index st
            (top_level_decls ++ [node])
      | None =>
      let* (use_node, token_index, st) :=
        ast_parse_use token_index false st in
      match use_node with
      | Some node =>
          ast_parse_top_level_decls fuel token_index st
            (top_level_decls ++ [node])
      | None =>
          let* len := directive_list_length st in
          if decide (0 < len) then
            ast_error directive_token "invalid directive"
          else Ok (top_level_decls, token_index, clear_directive_list st)
      end end end end
  end.

Definition ast_parse_root (fuel : nat) (token_index : nat) (st : ParseState)
    : Res (AstNode * nat * ParseState) :=
  let* first_token := token_at token_index in
  let* (top_level_decls, token_index, st) :=
    ast_parse_top_level_decls fuel token_index st [] in
  if decide (token_index <> length (tokens pc) - 1) then
    let* token := token_at token_index in
    ast_invalid_token_error token
  else
    Ok (NodeTypeRoot (pos_of_token first_token) top_level_decls,
        token_index, st).

(** The fuel of the entry point, linear in the number of tokens. *)
Definition parse_fuel : nat := 32 * (length (tokens pc) + 2).

(** [ParseContext pc = {0}]: no pending list, an empty store. *)
Definition initial_state : ParseState :=
  {| directive_list := None; lists := [] |}.

(** The entry point: the root node and the store its [directives] fields
    point into. *)
Definition ast_parse : Res (AstNode * list (list AstNode)) :=
  let* (root, token_index, st) := ast_parse_root parse_fuel 0 initial_state in
  Ok (root, lists st).

End Parser.

(** ** The debug printer

    [ast_print] writes to [stderr]; here it returns the text it writes. A
    [%s] argument that is a [Buf] of the node is printed up to its first NUL
    byte ([c_str]). The type of a cast, which the printer tests against
    [nullptr], is a node in every [CastExpr] of this model. *)

Definition bin_op_str (bin_op : BinOpType) : string :=
  match bin_op with
  | BinOpTypeInvalid => "(invalid)"
  | BinOpTypeBoolOr => "||"
  | BinOpTypeBoolAnd => "&&"
  | BinOpTypeCmpEq => "=="
  | BinOpTypeCmpNotEq => "!="
  | BinOpTypeCmpLessThan => "<"
  | BinOpTypeCmpGreaterThan => ">"
  | BinOpTypeCmpLessOrEq => "<="
  | BinOpTypeCmpGreaterOrEq => ">="
  | BinOpTypeBinOr => "|"
  | BinOpTypeBinXor => "^"
  | BinOpTypeBinAnd => "&"
  | BinOpTypeBitShiftLeft => "<<"
  | BinOpTypeBitShiftRight => ">>"
  | BinOpTypeAdd => "+"
  | BinOpTypeSub => "-"
  | BinOpTypeMult => "*"
  | BinOpTypeDiv => "/"
  | BinOpTypeMod => "%"
  end.

Definition prefix_op_str (prefix_op : PrefixOp) : string :=
  match prefix_op with
  | PrefixOpInvalid => "(invalid)"
  | PrefixOpNegation => "-"
  | PrefixOpBoolNot => "!"
  | PrefixOpBinNot => "~"
  end.

(** [node_type_str(node->type)]: both variants of a type node have the tag
    [NodeTypeType]. *)
Definition node_type_str (node : AstNode) : string :=
  match node with
  | NodeTypeRoot _ _ => "Root"
  | NodeTypeRootExportDecl _ _ _ _ => "RootExportDecl"
  | NodeTypeFnDef _ _ _ => "FnDef"
  | NodeTypeFnDecl _ _ => "FnDecl"
  | NodeTypeFnProto _ _ _ _ _ _ => "FnProto"
  | NodeTypeParamDecl _ _ _ => "ParamDecl"
  | NodeTypeTypePrimitive _ _ | NodeTypeTypePointer _ _ _ => "Type"
  | NodeTypeBlock _ _ => "Block"
  | NodeTypeBinOpExpr _ _ _ _ => "BinOpExpr"
  | NodeTypeFnCallExpr _ _ _ => "FnCallExpr"
  | NodeTypeExternBlock _ _ _ => "ExternBlock"
  | NodeTypeDirective _ _ _ => "Directive"
  | NodeTypeReturnExpr _ _ => "ReturnExpr"
  | NodeTypeCastExpr _ _ _ => "CastExpr"
  | NodeTypeNumberLiteral _ _ => "NumberLiteral"
  | NodeTypeStringLiteral _ _ => "StringLiteral"
  | NodeTypeUnreachable _ => "Unreachable"
  | NodeTypeSymbol _ _ => "Symbol"
  | NodeTypePrefixOpExpr _ _ _ => "PrefixOpExpr"
  | NodeTypeUse _ _ _ => "Use"
  end.

(** The line feed that ends every [fprintf] of the printer. *)
Definition newline : string := String "010" EmptyString.

(** [for (int i = 0; i < indent; i += 1) fprintf(stderr, " ");] *)
Fixpoint print_indent (indent : nat) : string :=
  match indent with
  | O => ""
  | S indent => " " +:+ print_indent indent
  end.

(** The text a loop over a list of children writes, given what the call in
    its body writes for one child. *)
Definition print_children (print : AstNode -> string)
    (children : list AstNode) : string :=
  foldr (fun child out => print child +:+ out) "" children.

Fixpoint ast_print (node : AstNode) (indent : nat) : string :=
  print_indent indent +:+
  match node with
  | NodeTypeRoot _ top_level_decls =>
      node_type_str node +:+ newline +:+
      print_children (fun child => ast_print child (indent + 2))
        top_level_decls
  | NodeTypeRootExportDecl _ _ type name =>
      node_type_str node +:+ " " +:+ c_str type +:+ " '" +:+ c_str name +:+
      "'" +:+
      newline
  | NodeTypeFnDef _ fn_proto body =>
      node_type_str node +:+ newline +:+
      ast_print fn_proto (indent + 2) +:+
      ast_print body (indent + 2)
  | NodeTypeFnProto _ _ _ name params return_type =>
      node_type_str node +:+ " '" +:+ c_str name +:+ "'" +:+ newline +:+
      print_children (fun child => ast_print child (indent + 2)) params +:+
      ast_print return_type (indent + 2)
  | NodeTypeBlock _ statements =>
      node_type_str node +:+ newline +:+
      print_children (fun child => ast_print child (indent + 2)) statements
  | NodeTypeParamDecl _ name type =>
      node_type_str node +:+ " '" +:+ c_str name +:+ "'" +:+ newline +:+
      ast_print type (indent + 2)
  | NodeTypeTypePrimitive _ primitive_name =>
      node_type_str node +:+ " '" +:+ c_str primitive_name +:+ "'" +:+
      newline
  | NodeTypeTypePointer _ is_const child_type =>
      let const_or_mut_str := if is_const then "const" else "mut" in
      "'" +:+ const_or_mut_str +:+ "' PointerType" +:+ newline +:+
      ast_print child_type (indent + 2)
  | NodeTypeReturnExpr _ expr =>
      node_type_str node +:+ newline +:+
      match expr with
      | Some expr => ast_print expr (indent + 2)
      | None => ""
      end
  | NodeTypeExternBlock _ _ fn_decls =>
      node_type_str node +:+ newline +:+
      print_children (fun child => ast_print child (indent + 2)) fn_decls
  | NodeTypeFnDecl _ fn_proto =>
      node_type_str node +:+ newline +:+
      ast_print fn_proto (indent + 2)
  | NodeTypeBinOpExpr _ op1 bin_op op2 =>
      node_type_str node +:+ " " +:+ bin_op_str bin_op +:+ newline +:+
      ast_print op1 (indent + 2) +:+
      ast_print op2 (indent + 2)
  | NodeTypeFnCallExpr _ fn_ref_expr params =>
      node_type_str node +:+ newline +:+
      ast_print fn_ref_expr (indent + 2) +:+
      print_children (fun child => ast_print child (indent + 2)) params
  | NodeTypeDirective _ _ _ =>
      node_type_str node +:+ newline
  | NodeTypeCastExpr _ prefix_op_expr type =>
      node_type_str node +:+ newline +:+
      ast_print prefix_op_expr (indent + 2) +:+
      ast_print type (indent + 2)
  | NodeTypePrefixOpExpr _ prefix_op primary_expr =>
      node_type_str node +:+ " " +:+ prefix_op_str prefix_op +:+ newline +:+
      ast_print primary_expr (indent + 2)
  | NodeTypeNumberLiteral _ number =>
      "PrimaryExpr Number " +:+ c_str number +:+ newline
  | NodeTypeStringLiteral _ str =>
      "PrimaryExpr String '" +:+ c_str str +:+ "'" +:+ newline
  | NodeTypeUnreachable _ =>
      "PrimaryExpr Unreachable" +:+ newline
  | NodeTypeSymbol _ symbol =>
      "PrimaryExpr Symbol " +:+ c_str symbol +:+ newline
  | NodeTypeUse _ _ path =>
      node_type_str node +:+ " '" +:+ c_str path +:+ "'" +:+ newline
  end.

(** * Definitions used by the statements *)

(** ** String literals, as the specification words them *)

(** The decoding of section 4.6, written on the bytes between the quotes: an
    escape pair gives one byte, a pair with an unknown second byte gives
    nothing, any other byte is copied. This definition follows the
    specification and is compared with [parse_string_literal] below. *)
Fixpoint decode_escapes (bytes : string) : string :=
  match bytes with
  | EmptyString => EmptyString
  | String c rest =>
      if Ascii.eqb c "\" then
        match rest with
        | EmptyString => EmptyString
        | String c' rest' =>
            if Ascii.eqb c' "\" then String "\" (decode_escapes rest')
            else if Ascii.eqb c' "r" then String "013" (decode_escapes rest')
            else if Ascii.eqb c' "n" then String "010" (decode_escapes rest')
            else if Ascii.eqb c' "t" then String "009" (decode_escapes rest')
            else if Ascii.eqb c' "034" then String "034" (decode_escapes rest')
            else decode_escapes rest'
        end
      else String c (decode_escapes rest)
  end.

(** The bytes end in a backslash that starts an escape with no second byte. *)
Fixpoint dangling_escape (bytes : string) : bool :=
  match bytes with
  | EmptyString => false
  | String c rest =>
      if Ascii.eqb c "\" then
        match rest with
        | EmptyString => true
        | String _ rest' => dangling_escape rest'
        end
      else dangling_escape rest
  end.

(** A double quote, and the source text of the literal of property 5: a
    quote, the five escape pairs, a quote. *)
Definition dquote : string := String "034" EmptyString.

Definition pc_escapes : ParseContext :=
  {| buf := dquote +:+ "\\\n\r\t\" +:+ dquote +:+ dquote;
     tokens := [mkToken TokenIdStringLiteral 0 12 1 1;
                mkToken TokenIdEof 12 12 1 13] |}.

(** ** Declaration starts *)

(** [token] starts none of the four declarations the top level tries:
    it is no [export], [pub], [fn], [extern] or [use]. *)
Definition starts_no_decl (token : Token) : Prop :=
  id token <> TokenIdKeywordExport /\ id token <> TokenIdKeywordPub /\
  id token <> TokenIdKeywordFn /\ id token <> TokenIdKeywordExtern /\
  id token <> TokenIdKeywordUse.

(** The diagnostic [ast_error(pc, token, "invalid directive")]. *)
Definition invalid_directive_at (token : Token) : ErrorMsg :=
  {| line_start := start_line token;
     column_start := start_column token;
     line_end := (-1)%Z;
     column_end := (-1)%Z;
     msg := "invalid directive" |}.

(** The diagnostic of [ast_invalid_token_error(pc, token)]: the lexeme is
    printed with [%s], up to its first NUL byte. *)
Definition invalid_token_at (pc : ParseContext) (token : Token) : ErrorMsg :=
  {| line_start := start_line token;
     column_start := start_column token;
     line_end := (-1)%Z;
     column_end := (-1)%Z;
     msg := "invalid token: '" +:+ c_str (ast_buf_from_token pc token)
            +:+ "'" |}.

(** ** The binary levels of the precedence ladder *)

(** The nine binary levels, from the tightest to the loosest. *)
Inductive BinLevel : Type :=
  | LevelMult
  | LevelAdd
  | LevelBitShift
  | LevelBinAnd
  | LevelBinXor
  | LevelBinOr
  | LevelComparison
  | LevelBoolAnd
  | LevelBoolOr.

Definition level_rank (l : BinLevel) : nat :=
  match l with
  | LevelMult => 0
  | LevelAdd => 1
  | LevelBitShift => 2
  | LevelBinAnd => 3
  | LevelBinXor => 4
  | LevelBinOr => 5
  | LevelComparison => 6
  | LevelBoolAnd => 7
  | LevelBoolOr => 8
  end.

(** The function of the parser for a level, *)
Definition level_parser (l : BinLevel)
    : ParseContext -> nat -> nat -> bool -> Res (option AstNode * nat) :=
  match l with
  | LevelMult => ast_parse_mult_expr
  | LevelAdd => ast_parse_add_expr
  | LevelBitShift => ast_parse_bit_shift_expr
  | LevelBinAnd => ast_parse_bin_and_expr
  | LevelBinXor => ast_parse_bin_xor_expr
  | LevelBinOr => ast_parse_bin_or_expr
  | LevelComparison => ast_parse_comparison_expr
  | LevelBoolAnd => ast_parse_bool_and_expr
  | LevelBoolOr => ast_parse_bool_or_expr
  end.

(** the function it calls for its operands, *)
Definition level_operand (l : BinLevel)
    : ParseContext -> nat -> nat -> bool -> Res (option AstNode * nat) :=
  match l with
  | LevelMult => ast_parse_cast_expression
  | LevelAdd => ast_parse_mult_expr
  | LevelBitShift => ast_parse_add_expr
  | LevelBinAnd => ast_parse_bit_shift_expr
  | LevelBinXor => ast_parse_bin_and_expr
  | LevelBinOr => ast_parse_bin_xor_expr
  | LevelComparison => ast_parse_bin_or_expr
  | LevelBoolAnd => ast_parse_comparison_expr
  | LevelBoolOr => ast_parse_bool_and_expr
  end.

(** and the operator a token stands for at the level ([BinOpTypeInvalid]
    when it is none of the level's operators). *)
Definition level_op (l : BinLevel) (token : Token) : BinOpType :=
  match l with
  | LevelMult => tok_to_mult_op token
  | LevelAdd => tok_to_add_op token
  | LevelBitShift => tok_to_bit_shift_op token
  | LevelBinAnd =>
      if decide (id token = TokenIdBinAnd) then BinOpTypeBinAnd
      else BinOpTypeInvalid
  | LevelBinXor =>
      if decide (id token = TokenIdBinXor) then BinOpTypeBinXor
      else BinOpTypeInvalid
  | LevelBinOr =>
      if decide (id token = TokenIdBinOr) then BinOpTypeBinOr
      else BinOpTypeInvalid
  | LevelComparison => tok_to_cmp_op token
  | LevelBoolAnd =>
      if decide (id token = TokenIdBoolAnd) then BinOpTypeBoolAnd
      else BinOpTypeInvalid
  | LevelBoolOr =>
      if decide (id token = TokenIdBoolOr) then BinOpTypeBoolOr
      else BinOpTypeInvalid
  end.

(** What every level does, given the parser of its operands: one operand,
    then at most one operator and one more operand. There is no loop. *)
Definition single_shot (pc : ParseContext)
    (operand : nat -> bool -> Res (option AstNode * nat))
    (op_of : Token -> BinOpType) (token_index : nat) (mandatory : bool)
    : Res (option AstNode * nat) :=
  let* (operand_1, token_index) := operand token_index mandatory in
  match operand_1 with
  | None => Ok (None, token_index)
  | Some operand_1 =>
      let* token := token_at pc token_index in
      if decide (op_of token = BinOpTypeInvalid) then
        Ok (Some operand_1, token_index)
      else
        let* (operand_2, token_index) :=
          non_null (operand (token_index + 1) true) in
        Ok (Some (NodeTypeBinOpExpr (pos_of_token token) operand_1
                    (op_of token) operand_2), token_index)
  end.

(** Operands of one token: a symbol or a number. *)
Definition is_atom (token : Token) : Prop :=
  id token = TokenIdSymbol \/ id token = TokenIdNumberLiteral.

Definition atom_node (pc : ParseContext) (token : Token) : AstNode :=
  if decide (id token = TokenIdNumberLiteral) then
    NodeTypeNumberLiteral (pos_of_token token) (ast_buf_from_token pc token)
  else NodeTypeSymbol (pos_of_token token) (ast_buf_from_token pc token).

(** A token that continues no expression: no [(], no [as], no binary
    operator. *)
Definition ends_expression (token : Token) : Prop :=
  id token <> TokenIdLParen /\ id token <> TokenIdKeywordAs /\
  forall l, level_op l token = BinOpTypeInvalid.

(** A token after which the operand of level [l] stops: no [(], no [as], no
    operator of a tighter level. *)
Definition stops_operand (l : BinLevel) (token : Token) : Prop :=
  id token <> TokenIdLParen /\ id token <> TokenIdKeywordAs /\
  forall l', level_rank l' < level_rank l ->
             level_op l' token = BinOpTypeInvalid.

(** The level whose operator a token kind is, if any. *)
Definition op_level_of (token_id : TokenId) : option BinLevel :=
  match token_id with
  | TokenIdStar | TokenIdSlash | TokenIdPercent => Some LevelMult
  | TokenIdPlus | TokenIdDash => Some LevelAdd
  | TokenIdBitShiftLeft | TokenIdBitShiftRight => Some LevelBitShift
  | TokenIdBinAnd => Some LevelBinAnd
  | TokenIdBinXor => Some LevelBinXor
  | TokenIdBinOr => Some LevelBinOr
  | TokenIdCmpEq | TokenIdCmpNotEq | TokenIdCmpLessThan
  | TokenIdCmpGreaterThan | TokenIdCmpLessOrEq | TokenIdCmpGreaterOrEq =>
      Some LevelComparison
  | TokenIdBoolAnd => Some LevelBoolAnd
  | TokenIdBoolOr => Some LevelBoolOr
  | _ => None
  end.

(** The tokens at the cursor [i] are those of [l], in order. *)
Definition tokens_from (pc : ParseContext) (i : nat) (l : list Token)
    : Prop :=
  forall k t, l !! k = Some t -> tokens pc !! (i + k) = Some t.

(** The operand of level [l] is the atom at the cursor when the token after
    it stops the operand. *)
Definition operand_atom_at (pc : ParseContext) (l : BinLevel) : Prop :=
  forall f i m a t,
    4 + level_rank l <= f -> tokens pc !! i = Some a -> is_atom a ->
    tokens pc !! (i + 1) = Some t -> stops_operand l t ->
    level_operand l pc f i m = Ok (Some (atom_node pc a), i + 1).

(** A result of level [l] is handed up unchanged by the looser levels when
    the token at the cursor is none of their operators. *)
Definition lifts_from (pc : ParseContext) (l : BinLevel) : Prop :=
  forall f i m n j t,
    level_parser l pc f i m = Ok (Some n, j) ->
    tokens pc !! j = Some t ->
    (forall l', level_rank l < level_rank l' ->
                level_op l' t = BinOpTypeInvalid) ->
    ast_parse_bool_or_expr pc (f + (8 - level_rank l)) i m = Ok (Some n, j).

(** Fuel [f] is enough for a parser of rank [r] at the cursor [i]. A parser
    calls at the same cursor parsers of a lower rank only; every other call
    comes after a token has been consumed. *)
Definition enough (pc : ParseContext) (r f i : nat) : Prop :=
  r + 32 * (length (tokens pc) - i) <= f.

(** ** Sample inputs

    The lexer is not part of the sources at hand. Each input below is a
    source text with the token list the lexer contract of section 6 gives
    for it: kind, byte offsets of the lexeme, 1-based line and column, and
    the end-of-file token last. *)

(** Scenario S1. *)
Definition pc_s1 : ParseContext :=
  {| buf := "fn main() { return 0; }";
     tokens :=
      [mkToken TokenIdKeywordFn 0 2 1 1;
       mkToken TokenIdSymbol 3 7 1 4;
       mkToken TokenIdLParen 7 8 1 8;
       mkToken TokenIdRParen 8 9 1 9;
       mkToken TokenIdLBrace 10 11 1 11;
       mkToken TokenIdKeywordReturn 12 18 1 13;
       mkToken TokenIdNumberLiteral 19 20 1 20;
       mkToken TokenIdSemicolon 20 21 1 21;
       mkToken TokenIdRBrace 22 23 1 23;
       mkToken TokenIdEof 23 23 1 24] |}.

(** Scenario S2. *)
Definition pc_s2 : ParseContext :=
  {| buf := "pub fn add(a: i32, b: i32) -> i32 { return a + b; }";
     tokens :=
      [mkToken TokenIdKeywordPub 0 3 1 1;
       mkToken TokenIdKeywordFn 4 6 1 5;
       mkToken TokenIdSymbol 7 10 1 8;
       mkToken TokenIdLParen 10 11 1 11;
       mkToken TokenIdSymbol 11 12 1 12;
       mkToken TokenIdColon 12 13 1 13;
       mkToken TokenIdSymbol 14 17 1 15;
       mkToken TokenIdComma 17 18 1 18;
       mkToken TokenIdSymbol 19 20 1 20;
       mkToken TokenIdColon 20 21 1 21;
       mkToken TokenIdSymbol 22 25 1 23;
       mkToken TokenIdRParen 25 26 1 26;
       mkToken TokenIdArrow 27 29 1 28;
       mkToken TokenIdSymbol 30 33 1 31;
       mkToken TokenIdLBrace 34 35 1 35;
       mkToken TokenIdKeywordReturn 36 42 1 37;
       mkToken TokenIdSymbol 43 44 1 44;
       mkToken TokenIdPlus 45 46 1 46;
       mkToken TokenIdSymbol 47 48 1 48;
       mkToken TokenIdSemicolon 48 49 1 49;
       mkToken TokenIdRBrace 50 51 1 51;
       mkToken TokenIdEof 51 51 1 52] |}.

(** Scenario S3. *)
Definition pc_s3 : ParseContext :=
  {| buf := ("extern { #link(" +:+ dquote +:+ "c" +:+ dquote +:+ ") fn puts(s: *const u8) -> i32; }");
     tokens :=
      [mkToken TokenIdKeywordExtern 0 6 1 1;
       mkToken TokenIdLBrace 7 8 1 8;
       mkToken TokenIdNumberSign 9 10 1 10;
       mkToken TokenIdSymbol 10 14 1 11;
       mkToken TokenIdLParen 14 15 1 15;
       mkToken TokenIdStringLiteral 15 18 1 16;
       mkToken TokenIdRParen 18 19 1 19;
       mkToken TokenIdKeywordFn 20 22 1 21;
       mkToken TokenIdSymbol 23 27 1 24;
       mkToken TokenIdLParen 27 28 1 28;
       mkToken TokenIdSymbol 28 29 1 29;
       mkToken TokenIdColon 29 30 1 30;
       mkToken TokenIdStar 31 32 1 32;
       mkToken TokenIdKeywordConst 32 37 1 33;
       mkToken TokenIdSymbol 38 40 1 39;
       mkToken TokenIdRParen 40 41 1 41;
       mkToken TokenIdArrow 42 44 1 43;
       mkToken TokenIdSymbol 45 48 1 46;
       mkToken TokenIdSemicolon 48 49 1 49;
       mkToken TokenIdRBrace 50 51 1 51;
       mkToken TokenIdEof 51 51 1 52] |}.

(** Scenario S6. *)
Definition pc_s6 : ParseContext :=
  {| buf := "fn f() { 1 + 2 * 3 - 4; }";
     tokens :=
      [mkToken TokenIdKeywordFn 0 2 1 1;
       mkToken TokenIdSymbol 3 4 1 4;
       mkToken TokenIdLParen 4 5 1 5;
       mkToken TokenIdRParen 5 6 1 6;
       mkToken TokenIdLBrace 7 8 1 8;
       mkToken TokenIdNumberLiteral 9 10 1 10;
       mkToken TokenIdPlus 11 12 1 12;
       mkToken TokenIdNumberLiteral 13 14 1 14;
       mkToken TokenIdStar 15 16 1 16;
       mkToken TokenIdNumberLiteral 17 18 1 18;
       mkToken TokenIdDash 19 20 1 20;
       mkToken TokenIdNumberLiteral 21 22 1 22;
       mkToken TokenIdSemicolon 22 23 1 23;
       mkToken TokenIdRBrace 24 25 1 25;
       mkToken TokenIdEof 25 25 1 26] |}.

(** A chain of three operands at the additive level. *)
Definition pc_chain : ParseContext :=
  {| buf := "fn f() { a + b + c; }";
     tokens :=
      [mkToken TokenIdKeywordFn 0 2 1 1;
       mkToken TokenIdSymbol 3 4 1 4;
       mkToken TokenIdLParen 4 5 1 5;
       mkToken TokenIdRParen 5 6 1 6;
       mkToken TokenIdLBrace 7 8 1 8;
       mkToken TokenIdSymbol 9 10 1 10;
       mkToken TokenIdPlus 11 12 1 12;
       mkToken TokenIdSymbol 13 14 1 14;
       mkToken TokenIdPlus 15 16 1 16;
       mkToken TokenIdSymbol 17 18 1 18;
       mkToken TokenIdSemicolon 18 19 1 19;
       mkToken TokenIdRBrace 20 21 1 21;
       mkToken TokenIdEof 21 21 1 22] |}.

(** A binary operation and a cast. *)
Definition pc_positions : ParseContext :=
  {| buf := "fn f() { a + b as u8; }";
     tokens :=
      [mkToken TokenIdKeywordFn 0 2 1 1;
       mkToken TokenIdSymbol 3 4 1 4;
       mkToken TokenIdLParen 4 5 1 5;
       mkToken TokenIdRParen 5 6 1 6;
       mkToken TokenIdLBrace 7 8 1 8;
       mkToken TokenIdSymbol 9 10 1 10;
       mkToken TokenIdPlus 11 12 1 12;
       mkToken TokenIdSymbol 13 14 1 14;
       mkToken TokenIdKeywordAs 15 17 1 16;
       mkToken TokenIdSymbol 18 20 1 19;
       mkToken TokenIdSemicolon 20 21 1 21;
       mkToken TokenIdRBrace 22 23 1 23;
       mkToken TokenIdEof 23 23 1 24] |}.

(** A parenthesised expression. *)
Definition pc_grouped : ParseContext :=
  {| buf := "fn f() { (x); }";
     tokens :=
      [mkToken TokenIdKeywordFn 0 2 1 1;
       mkToken TokenIdSymbol 3 4 1 4;
       mkToken TokenIdLParen 4 5 1 5;
       mkToken TokenIdRParen 5 6 1 6;
       mkToken TokenIdLBrace 7 8 1 8;
       mkToken TokenIdLParen 9 10 1 10;
       mkToken TokenIdSymbol 10 11 1 11;
       mkToken TokenIdRParen 11 12 1 12;
       mkToken TokenIdSemicolon 12 13 1 13;
       mkToken TokenIdRBrace 14 15 1 15;
       mkToken TokenIdEof 15 15 1 16] |}.

(** A directive that no declaration follows. *)
Definition pc_orphan : ParseContext :=
  {| buf := ("#link(" +:+ dquote +:+ "c" +:+ dquote +:+ ")");
     tokens :=
      [mkToken TokenIdNumberSign 0 1 1 1;
       mkToken TokenIdSymbol 1 5 1 2;
       mkToken TokenIdLParen 5 6 1 6;
       mkToken TokenIdStringLiteral 6 9 1 7;
       mkToken TokenIdRParen 9 10 1 10;
       mkToken TokenIdEof 10 10 1 11] |}.

(** A directive before the closing brace of an extern block. *)
Definition pc_extern_orphan : ParseContext :=
  {| buf := ("extern { #link(" +:+ dquote +:+ "c" +:+ dquote +:+ ") }");
     tokens :=
      [mkToken TokenIdKeywordExtern 0 6 1 1;
       mkToken TokenIdLBrace 7 8 1 8;
       mkToken TokenIdNumberSign 9 10 1 10;
       mkToken TokenIdSymbol 10 14 1 11;
       mkToken TokenIdLParen 14 15 1 15;
       mkToken TokenIdStringLiteral 15 18 1 16;
       mkToken TokenIdRParen 18 19 1 19;
       mkToken TokenIdRBrace 20 21 1 21;
       mkToken TokenIdEof 21 21 1 22] |}.

(** The tokens of an expression and the semicolon after it. *)
Definition pc_precedence : ParseContext :=
  {| buf := "a + b * c;";
     tokens :=
      [mkToken TokenIdSymbol 0 1 1 1;
       mkToken TokenIdPlus 2 3 1 3;
       mkToken TokenIdSymbol 4 5 1 5;
       mkToken TokenIdStar 6 7 1 7;
       mkToken TokenIdSymbol 8 9 1 9;
       mkToken TokenIdSemicolon 9 10 1 10;
       mkToken TokenIdEof 10 10 1 11] |}.

(** A comparison with a bitwise or on its right. *)
Definition pc_comparison : ParseContext :=
  {| buf := "a < b | c;";
     tokens :=
      [mkToken TokenIdSymbol 0 1 1 1;
       mkToken TokenIdCmpLessThan 2 3 1 3;
       mkToken TokenIdSymbol 4 5 1 5;
       mkToken TokenIdBinOr 6 7 1 7;
       mkToken TokenIdSymbol 8 9 1 9;
       mkToken TokenIdSemicolon 9 10 1 10;
       mkToken TokenIdEof 10 10 1 11] |}.

(** Directives in front of declarations of several kinds. *)
Definition pc_directives : ParseContext :=
  {| buf := ("#a(" +:+ dquote +:+ "1" +:+ dquote +:+ ") fn f() {} #b(" +:+ dquote +:+ "2" +:+ dquote +:+ ") #c(" +:+ dquote +:+ "3" +:+ dquote +:+ ") extern { #d(" +:+ dquote +:+ "4" +:+ dquote +:+ ") fn g(); fn h(); } use " +:+ dquote +:+ "m" +:+ dquote +:+ ";");
     tokens :=
      [mkToken TokenIdNumberSign 0 1 1 1;
       mkToken TokenIdSymbol 1 2 1 2;
       mkToken TokenIdLParen 2 3 1 3;
       mkToken TokenIdStringLiteral 3 6 1 4;
       mkToken TokenIdRParen 6 7 1 7;
       mkToken TokenIdKeywordFn 8 10 1 9;
       mkToken TokenIdSymbol 11 12 1 12;
       mkToken TokenIdLParen 12 13 1 13;
       mkToken TokenIdRParen 13 14 1 14;
       mkToken TokenIdLBrace 15 16 1 16;
       mkToken TokenIdRBrace 16 17 1 17;
       mkToken TokenIdNumberSign 18 19 1 19;
       mkToken TokenIdSymbol 19 20 1 20;
       mkToken TokenIdLParen 20 21 1 21;
       mkToken TokenIdStringLiteral 21 24 1 22;
       mkToken TokenIdRParen 24 25 1 25;
       mkToken TokenIdNumberSign 26 27 1 27;
       mkToken TokenIdSymbol 27 28 1 28;
       mkToken TokenIdLParen 28 29 1 29;
       mkToken TokenIdStringLiteral 29 32 1 30;
       mkToken TokenIdRParen 32 33 1 33;
       mkToken TokenIdKeywordExtern 34 40 1 35;
       mkToken TokenIdLBrace 41 42 1 42;
       mkToken TokenIdNumberSign 43 44 1 44;
       mkToken TokenIdSymbol 44 45 1 45;
       mkToken TokenIdLParen 45 46 1 46;
       mkToken TokenIdStringLiteral 46 49 1 47;
       mkToken TokenIdRParen 49 50 1 50;
       mkToken TokenIdKeywordFn 51 53 1 52;
       mkToken TokenIdSymbol 54 55 1 55;
       mkToken TokenIdLParen 55 56 1 56;
       mkToken TokenIdRParen 56 57 1 57;
       mkToken TokenIdSemicolon 57 58 1 58;
       mkToken TokenIdKeywordFn 59 61 1 60;
       mkToken TokenIdSymbol 62 63 1 63;
       mkToken TokenIdLParen 63 64 1 64;
       mkToken TokenIdRParen 64 65 1 65;
       mkToken TokenIdSemicolon 65 66 1 66;
       mkToken TokenIdRBrace 67 68 1 68;
       mkToken TokenIdKeywordUse 69 72 1 70;
       mkToken TokenIdStringLiteral 73 76 1 74;
       mkToken TokenIdSemicolon 76 77 1 77;
       mkToken TokenIdEof 77 77 1 78] |}.


(** ** Where the nodes of a tree come from

    The relations below read a tree against the token list: [expr_at pc i
    node j] says that [node] is built from the tokens from [i] up to, not
    including, [j], and fixes the line and column of every node in it. A
    node takes them from the first token of its production, with these
    exceptions, which are the code's: a [BinOpExpr] takes them from its
    operator token, a [CastExpr] from its [as], a [FnCallExpr] from the node
    of the callee, a [FnDef] or [FnDecl] from its [FnProto], and the "void"
    return type of a prototype without [->] from the token after the
    parameter list. A declaration's production starts after its
    directives. *)

Section Positions.

Variable pc : ParseContext.

Inductive type_at : nat -> AstNode -> nat -> Prop :=
  | type_at_unreachable i t :
      tokens pc !! i = Some t -> id t = TokenIdKeywordUnreachable ->
      type_at i (NodeTypeTypePrimitive (pos_of_token t) "unreachable")
        (i + 1)
  | type_at_symbol i t :
      tokens pc !! i = Some t -> id t = TokenIdSymbol ->
      type_at i (NodeTypeTypePrimitive (pos_of_token t)
                   (ast_buf_from_token pc t)) (i + 1)
  | type_at_pointer i t const_or_mut is_const child j :
      tokens pc !! i = Some t -> id t = TokenIdStar ->
      tokens pc !! (i + 1) = Some const_or_mut ->
      (id const_or_mut = TokenIdKeywordMut /\ is_const = false \/
       id const_or_mut = TokenIdKeywordConst /\ is_const = true) ->
      type_at (i + 1 + 1) child j ->
      type_at i (NodeTypeTypePointer (pos_of_token t) is_const child) j.

Inductive expr_at : nat -> AstNode -> nat -> Prop :=
  | expr_at_number i t :
      tokens pc !! i = Some t -> id t = TokenIdNumberLiteral ->
      expr_at i (NodeTypeNumberLiteral (pos_of_token t)
                   (ast_buf_from_token pc t)) (i + 1)
  | expr_at_string i t str :
      tokens pc !! i = Some t -> id t = TokenIdStringLiteral ->
      parse_string_literal pc t = Ok str ->
      expr_at i (NodeTypeStringLiteral (pos_of_token t) str) (i + 1)
  | expr_at_unreachable i t :
      tokens pc !! i = Some t -> id t = TokenIdKeywordUnreachable ->
      expr_at i (NodeTypeUnreachable (pos_of_token t)) (i + 1)
  | expr_at_symbol i t :
      tokens pc !! i = Some t -> id t = TokenIdSymbol ->
      expr_at i (NodeTypeSymbol (pos_of_token t) (ast_buf_from_token pc t))
        (i + 1)
  | expr_at_block i t statements j :
      tokens pc !! i = Some t -> id t = TokenIdLBrace ->
      stmts_at (i + 1) statements j ->
      expr_at i (NodeTypeBlock (pos_of_token t) statements) j
  | expr_at_grouped i l_paren node j r_paren :
      tokens pc !! i = Some l_paren -> id l_paren = TokenIdLParen ->
      expr_at (i + 1) node j ->
      tokens pc !! j = Some r_paren -> id r_paren = TokenIdRParen ->
      expr_at i node (j + 1)
  | expr_at_fn_call i fn_ref_expr j params k :
      expr_at i fn_ref_expr j ->
      args_at j params k ->
      expr_at i (NodeTypeFnCallExpr (node_pos fn_ref_expr) fn_ref_expr
                   params) k
  | expr_at_prefix_op i t primary_expr j :
      tokens pc !! i = Some t -> tok_to_prefix_op t <> PrefixOpInvalid ->
      expr_at (i + 1) primary_expr j ->
      expr_at i (NodeTypePrefixOpExpr (pos_of_token t) (tok_to_prefix_op t)
                   primary_expr) j
  | expr_at_cast i prefix_op_expr j as_kw type k :
      expr_at i prefix_op_expr j ->
      tokens pc !! j = Some as_kw -> id as_kw = TokenIdKeywordAs ->
      type_at (j + 1) type k ->
      expr_at i (NodeTypeCastExpr (pos_of_token as_kw) prefix_op_expr type)
        k
  | expr_at_bin_op l i op1 j t op2 k :
      expr_at i op1 j ->
      tokens pc !! j = Some t -> level_op l t <> BinOpTypeInvalid ->
      expr_at (j + 1) op2 k ->
      expr_at i (NodeTypeBinOpExpr (pos_of_token t) op1 (level_op l t) op2)
        k
  | expr_at_return i t :
      tokens pc !! i = Some t -> id t = TokenIdKeywordReturn ->
      expr_at i (NodeTypeReturnExpr (pos_of_token t) None) (i + 1)
  | expr_at_return_expr i t expr j :
      tokens pc !! i = Some t -> id t = TokenIdKeywordReturn ->
      expr_at (i + 1) expr j ->
      expr_at i (NodeTypeReturnExpr (pos_of_token t) (Some expr)) j

(** The statements of a block after its [{], up to and including its [}]. *)
with stmts_at : nat -> list AstNode -> nat -> Prop :=
  | stmts_at_end i r_brace :
      tokens pc !! i = Some r_brace -> id r_brace = TokenIdRBrace ->
      stmts_at i [] (i + 1)
  | stmts_at_statement i statement j semicolon rest k :
      expr_at i statement j ->
      tokens pc !! j = Some semicolon -> id semicolon = TokenIdSemicolon ->
      stmts_at (j + 1) rest k ->
      stmts_at i (statement :: rest) k

(** The arguments of a call, from its [(] up to and including its [)]. *)
with args_at : nat -> list AstNode -> nat -> Prop :=
  | args_at_none i l_paren r_paren :
      tokens pc !! i = Some l_paren -> id l_paren = TokenIdLParen ->
      tokens pc !! (i + 1) = Some r_paren -> id r_paren = TokenIdRParen ->
      args_at i [] (i + 1 + 1)
  | args_at_some i l_paren params k :
      tokens pc !! i = Some l_paren -> id l_paren = TokenIdLParen ->
      args_loop_at (i + 1) params k ->
      args_at i params k

with args_loop_at : nat -> list AstNode -> nat -> Prop :=
  | args_loop_at_last i expr j r_paren :
      expr_at i expr j ->
      tokens pc !! j = Some r_paren -> id r_paren = TokenIdRParen ->
      args_loop_at i [expr] (j + 1)
  | args_loop_at_more i expr j comma rest k :
      expr_at i expr j ->
      tokens pc !! j = Some comma -> id comma = TokenIdComma ->
      args_loop_at (j + 1) rest k ->
      args_loop_at i (expr :: rest) k.

Scheme expr_at_mut := Minimality for expr_at Sort Prop
  with stmts_at_mut := Minimality for stmts_at Sort Prop
  with args_at_mut := Minimality for args_at Sort Prop
  with args_loop_at_mut := Minimality for args_loop_at Sort Prop.

Combined Scheme expr_at_mutind
  from expr_at_mut, stmts_at_mut, args_at_mut, args_loop_at_mut.

(** A statement: an expression and the [;] after it. *)
Definition stmt_at (i : nat) (node : AstNode) (j : nat) : Prop :=
  exists j' semicolon,
    expr_at i node j' /\ tokens pc !! j' = Some semicolon /\
    id semicolon = TokenIdSemicolon /\ j = j' + 1.

(** The [directives] field of a declaration node. *)
Definition node_directives (node : AstNode) : option ListPtr :=
  match node with
  | NodeTypeRootExportDecl _ directives _ _
  | NodeTypeFnProto _ directives _ _ _ _
  | NodeTypeExternBlock _ directives _
  | NodeTypeUse _ directives _ => directives
  | _ => None
  end.

Inductive param_at : nat -> AstNode -> nat -> Prop :=
  | param_at_intro i param_name colon type j :
      tokens pc !! i = Some param_name -> id param_name = TokenIdSymbol ->
      tokens pc !! (i + 1) = Some colon -> id colon = TokenIdColon ->
      type_at (i + 1 + 1) type j ->
      param_at i (NodeTypeParamDecl (pos_of_token param_name)
                    (ast_buf_from_token pc param_name) type) j.

Inductive params_loop_at : nat -> list AstNode -> nat -> Prop :=
  | params_loop_at_last i param j r_paren :
      param_at i param j ->
      tokens pc !! j = Some r_paren -> id r_paren = TokenIdRParen ->
      params_loop_at i [param] (j + 1)
  | params_loop_at_more i param j comma rest k :
      param_at i param j ->
      tokens pc !! j = Some comma -> id comma = TokenIdComma ->
      params_loop_at (j + 1) rest k ->
      params_loop_at i (param :: rest) k.

(** The parameters of a prototype, from [(] up to and including [)]. *)
Inductive params_at : nat -> list AstNode -> nat -> Prop :=
  | params_at_none i l_paren r_paren :
      tokens pc !! i = Some l_paren -> id l_paren = TokenIdLParen ->
      tokens pc !! (i + 1) = Some r_paren -> id r_paren = TokenIdRParen ->
      params_at i [] (i + 1 + 1)
  | params_at_some i l_paren params k :
      tokens pc !! i = Some l_paren -> id l_paren = TokenIdLParen ->
      params_loop_at (i + 1) params k ->
      params_at i params k.

Inductive visib_at : nat -> FnProtoVisibMod -> nat -> Prop :=
  | visib_at_pub i t fn_token :
      tokens pc !! i = Some t -> id t = TokenIdKeywordPub ->
      tokens pc !! (i + 1) = Some fn_token ->
      id fn_token = TokenIdKeywordFn ->
      visib_at i FnProtoVisibModPub (i + 1 + 1)
  | visib_at_export i t fn_token :
      tokens pc !! i = Some t -> id t = TokenIdKeywordExport ->
      tokens pc !! (i + 1) = Some fn_token ->
      id fn_token = TokenIdKeywordFn ->
      visib_at i FnProtoVisibModExport (i + 1 + 1)
  | visib_at_private i t :
      tokens pc !! i = Some t -> id t = TokenIdKeywordFn ->
      visib_at i FnProtoVisibModPrivate (i + 1).

(** The return type at the token after the parameter list: the type after
    a [->], or "void" placed at that token, which is not consumed. *)
Inductive return_type_at : nat -> AstNode -> nat -> Prop :=
  | return_type_at_arrow k arrow type j :
      tokens pc !! k = Some arrow -> id arrow = TokenIdArrow ->
      type_at (k + 1) type j ->
      return_type_at k type j
  | return_type_at_void k t :
      tokens pc !! k = Some t -> id t <> TokenIdArrow ->
      return_type_at k (NodeTypeTypePrimitive (pos_of_token t) "void") k.

Inductive proto_at : nat -> AstNode -> nat -> Prop :=
  | proto_at_intro i t visib_mod i1 fn_name params k return_type j
      directives :
      tokens pc !! i = Some t ->
      visib_at i visib_mod i1 ->
      tokens pc !! i1 = Some fn_name -> id fn_name = TokenIdSymbol ->
      params_at (i1 + 1) params k ->
      return_type_at k return_type j ->
      proto_at i (NodeTypeFnProto (pos_of_token t) directives visib_mod
                    (ast_buf_from_token pc fn_name) params return_type) j.

Inductive directive_at : nat -> AstNode -> nat -> Prop :=
  | directive_at_intro i number_sign name_symbol l_paren param_str param
      r_paren :
      tokens pc !! i = Some number_sign ->
      id number_sign = TokenIdNumberSign ->
      tokens pc !! (i + 1) = Some name_symbol ->
      id name_symbol = TokenIdSymbol ->
      tokens pc !! (i + 1 + 1) = Some l_paren ->
      id l_paren = TokenIdLParen ->
      tokens pc !! (i + 1 + 1 + 1) = Some param_str ->
      id param_str = TokenIdStringLiteral ->
      parse_string_literal pc param_str = Ok param ->
      tokens pc !! (i + 1 + 1 + 1 + 1) = Some r_paren ->
      id r_paren = TokenIdRParen ->
      directive_at i (NodeTypeDirective (pos_of_token number_sign)
                        (ast_buf_from_token pc name_symbol) param)
        (i + 1 + 1 + 1 + 1 + 1).

(** The directives collected from the cursor on, up to the first token that
    is no [#]. *)
Inductive directives_at : nat -> list AstNode -> nat -> Prop :=
  | directives_at_end i t :
      tokens pc !! i = Some t -> id t <> TokenIdNumberSign ->
      directives_at i [] i
  | directives_at_directive i directive j rest k :
      directive_at i directive j ->
      directives_at j rest k ->
      directives_at i (directive :: rest) k.

Section Store.

(** The store of the directive lists at the end of the parse. *)
Variable ls : list (list AstNode).

(** The field [directives] points to the list [ds]. *)
Definition attached (directives : option ListPtr) (ds : list AstNode)
    : Prop :=
  exists p, directives = Some p /\ ls !! p = Some ds.

(** The declarations of an [extern] block after its [{], each with the
    directives in front of it, up to and including the [}]. *)
Inductive fn_decls_at : nat -> list AstNode -> nat -> Prop :=
  | fn_decls_at_end i r_brace :
      tokens pc !! i = Some r_brace -> id r_brace = TokenIdRBrace ->
      fn_decls_at i [] (i + 1)
  | fn_decls_at_decl i0 ds i fn_proto j semicolon rest k :
      directives_at i0 ds i ->
      proto_at i fn_proto j ->
      attached (node_directives fn_proto) ds ->
      tokens pc !! j = Some semicolon -> id semicolon = TokenIdSemicolon ->
      fn_decls_at (j + 1) rest k ->
      fn_decls_at i0 (NodeTypeFnDecl (node_pos fn_proto) fn_proto :: rest) k.

(** A declaration of the top level with the directives in front of it: the
    directives start at the first cursor, the declaration after them. *)
Inductive decl_at : nat -> AstNode -> nat -> Prop :=
  | decl_at_root_export i0 ds i export_kw export_type export_name name
      semicolon directives :
      directives_at i0 ds i -> attached directives ds ->
      tokens pc !! i = Some export_kw ->
      id export_kw = TokenIdKeywordExport ->
      tokens pc !! (i + 1) = Some export_type ->
      id export_type = TokenIdSymbol ->
      tokens pc !! (i + 2) = Some export_name ->
      id export_name = TokenIdStringLiteral ->
      parse_string_literal pc export_name = Ok name ->
      tokens pc !! (i + 2 + 1) = Some semicolon ->
      id semicolon = TokenIdSemicolon ->
      decl_at i0 (NodeTypeRootExportDecl (pos_of_token export_kw) directives
                    (ast_buf_from_token pc export_type) name)
        (i + 2 + 1 + 1)
  | decl_at_fn_def i0 ds i fn_proto j body k :
      directives_at i0 ds i ->
      proto_at i fn_proto j ->
      attached (node_directives fn_proto) ds ->
      expr_at j body k ->
      decl_at i0 (NodeTypeFnDef (node_pos fn_proto) fn_proto body) k
  | decl_at_extern_block i0 ds i extern_kw l_brace fn_decls j directives :
      directives_at i0 ds i -> attached directives ds ->
      tokens pc !! i = Some extern_kw ->
      id extern_kw = TokenIdKeywordExtern ->
      tokens pc !! (i + 1) = Some l_brace -> id l_brace = TokenIdLBrace ->
      fn_decls_at (i + 1 + 1) fn_decls j ->
      decl_at i0 (NodeTypeExternBlock (pos_of_token extern_kw) directives
                    fn_decls) j
  | decl_at_use i0 ds i use_kw use_name path semicolon directives :
      directives_at i0 ds i -> attached directives ds ->
      tokens pc !! i = Some use_kw -> id use_kw = TokenIdKeywordUse ->
      tokens pc !! (i + 1) = Some use_name ->
      id use_name = TokenIdStringLiteral ->
      tokens pc !! (i + 1 + 1) = Some semicolon ->
      id semicolon = TokenIdSemicolon ->
      parse_string_literal pc use_name = Ok path ->
      decl_at i0 (NodeTypeUse (pos_of_token use_kw) directives path)
        (i + 1 + 1 + 1).

Inductive top_decls_at : nat -> list AstNode -> nat -> Prop :=
  | top_decls_at_end i t :
      tokens pc !! i = Some t -> id t <> TokenIdNumberSign ->
      top_decls_at i [] i
  | top_decls_at_decl i decl j rest k :
      decl_at i decl j ->
      top_decls_at j rest k ->
      top_decls_at i (decl :: rest) k.

(** The root: the declarations from the first token to the last one of the
    token list. *)
Inductive root_at : nat -> AstNode -> nat -> Prop :=
  | root_at_intro i first_token top_level_decls j :
      tokens pc !! i = Some first_token ->
      top_decls_at i top_level_decls j ->
      j = length (tokens pc) - 1 ->
      root_at i (NodeTypeRoot (pos_of_token first_token) top_level_decls) j.

End Store.

End Positions.

(** ** Declarations and their directive lists *)

(** The [directives] fields of the declarations of a tree, in the order of
    the source: one for each [RootExportDecl], [FnProto], [ExternBlock] and
    [Use]. *)
Fixpoint directive_fields (node : AstNode) : list (option ListPtr) :=
  match node with
  | NodeTypeRoot _ top_level_decls =>
      concat (map directive_fields top_level_decls)
  | NodeTypeRootExportDecl _ directives _ _ => [directives]
  | NodeTypeFnProto _ directives _ _ _ _ => [directives]
  | NodeTypeFnDef _ fn_proto _ => directive_fields fn_proto
  | NodeTypeFnDecl _ fn_proto => directive_fields fn_proto
  | NodeTypeExternBlock _ directives fn_decls =>
      directives :: concat (map directive_fields fn_decls)
  | NodeTypeUse _ directives _ => [directives]
  | _ => []
  end.

(** What a stretch of the parse, from the store [ls] to the store [ls'],
    does with directive lists, when [fields] are the [directives] fields of
    the declarations it built: the lists of [ls] are all still there,
    unchanged; no two fields are the same pointer; every field points to a
    list allocated in the stretch; and every such list that holds a
    directive is pointed to by a field. *)
Definition attached_since (ls ls' : list (list AstNode))
    (fields : list (option ListPtr)) : Prop :=
  (exists more, ls' = ls ++ more) /\
  NoDup fields /\
  (forall d, d ∈ fields ->
     exists p, d = Some p /\ length ls <= p /\ p < length ls') /\
  (forall p l, length ls <= p -> ls' !! p = Some l -> l <> [] ->
     Some p ∈ fields).

(** ** The expression parsers by name *)

(** The functions of the expression grammar that return a node or
    [nullptr] and take the flag [mandatory]. *)
Inductive ExprParser : Type :=
  | ParserGroupedExpr
  | ParserPrimaryExpr
  | ParserFnCallExpr
  | ParserPrefixOpExpr
  | ParserCastExpression
  | ParserMultExpr
  | ParserAddExpr
  | ParserBitShiftExpr
  | ParserBinAndExpr
  | ParserBinXorExpr
  | ParserBinOrExpr
  | ParserComparisonExpr
  | ParserBoolAndExpr
  | ParserReturnExpr
  | ParserBoolOrExpr
  | ParserExpression
  | ParserBlock.

Definition run_parser (p : ExprParser) (pc : ParseContext)
    : nat -> nat -> bool -> Res (option AstNode * nat) :=
  match p with
  | ParserGroupedExpr => ast_parse_grouped_expr pc
  | ParserPrimaryExpr => ast_parse_primary_expr pc
  | ParserFnCallExpr => ast_parse_fn_call_expr pc
  | ParserPrefixOpExpr => ast_parse_prefix_op_expr pc
  | ParserCastExpression => ast_parse_cast_expression pc
  | ParserMultExpr => ast_parse_mult_expr pc
  | ParserAddExpr => ast_parse_add_expr pc
  | ParserBitShiftExpr => ast_parse_bit_shift_expr pc
  | ParserBinAndExpr => ast_parse_bin_and_expr pc
  | ParserBinXorExpr => ast_parse_bin_xor_expr pc
  | ParserBinOrExpr => ast_parse_bin_or_expr pc
  | ParserComparisonExpr => ast_parse_comparison_expr pc
  | ParserBoolAndExpr => ast_parse_bool_and_expr pc
  | ParserReturnExpr => ast_parse_return_expr pc
  | ParserBoolOrExpr => ast_parse_bool_or_expr pc
  | ParserExpression => ast_parse_expression pc
  | ParserBlock => ast_parse_block pc
  end.

(** ** What the lexer hands over *)

(** The token list ends with the end-of-file token. *)
Definition ends_with_eof (pc : ParseContext) : Prop :=
  exists eof, last (tokens pc) = Some eof /\ id eof = TokenIdEof.

(** No string literal of the token list ends in a backslash that escapes
    its closing quote. *)
Definition string_literals_closed (pc : ParseContext) : Prop :=
  Forall (fun t => id t = TokenIdStringLiteral ->
                   dangling_escape (string_literal_bytes pc t) = false)
    (tokens pc).

(** ** The kinds of the nodes of a tree *)

(** A type: a primitive, or pointers down to a primitive. *)
Fixpoint is_type (node : AstNode) : bool :=
  match node with
  | NodeTypeTypePrimitive _ _ => true
  | NodeTypeTypePointer _ _ child_type => is_type child_type
  | _ => false
  end.

(** An expression: its operators are valid, the type of a cast is a type,
    and every node below it is an expression. *)
Fixpoint is_expression (node : AstNode) : bool :=
  match node with
  | NodeTypeNumberLiteral _ _ | NodeTypeStringLiteral _ _
  | NodeTypeUnreachable _ | NodeTypeSymbol _ _ => true
  | NodeTypeBlock _ statements => forallb is_expression statements
  | NodeTypeFnCallExpr _ fn_ref_expr params =>
      is_expression fn_ref_expr && forallb is_expression params
  | NodeTypePrefixOpExpr _ prefix_op primary_expr =>
      bool_decide (prefix_op <> PrefixOpInvalid) &&
      is_expression primary_expr
  | NodeTypeCastExpr _ prefix_op_expr type =>
      is_expression prefix_op_expr && is_type type
  | NodeTypeBinOpExpr _ op1 bin_op op2 =>
      bool_decide (bin_op <> BinOpTypeInvalid) &&
      is_expression op1 && is_expression op2
  | NodeTypeReturnExpr _ None => true
  | NodeTypeReturnExpr _ (Some expr) => is_expression expr
  | _ => false
  end.

Definition is_block (node : AstNode) : bool :=
  match node with
  | NodeTypeBlock _ _ => true
  | _ => false
  end.

Definition is_param_decl (node : AstNode) : bool :=
  match node with
  | NodeTypeParamDecl _ _ type => is_type type
  | _ => false
  end.

Definition is_fn_proto (node : AstNode) : bool :=
  match node with
  | NodeTypeFnProto _ _ _ _ params return_type =>
      forallb is_param_decl params && is_type return_type
  | _ => false
  end.

Definition is_fn_decl (node : AstNode) : bool :=
  match node with
  | NodeTypeFnDecl _ fn_proto => is_fn_proto fn_proto
  | _ => false
  end.

(** A declaration of the top level. *)
Definition is_top_level_decl (node : AstNode) : bool :=
  match node with
  | NodeTypeRootExportDecl _ _ _ _ | NodeTypeUse _ _ _ => true
  | NodeTypeFnDef _ fn_proto body =>
      is_fn_proto fn_proto && is_block body && is_expression body
  | NodeTypeExternBlock _ _ fn_decls => forallb is_fn_decl fn_decls
  | _ => false
  end.

Definition is_root (node : AstNode) : bool :=
  match node with
  | NodeTypeRoot _ top_level_decls => forallb is_top_level_decl top_level_decls
  | _ => false
  end.

Definition is_directive (node : AstNode) : bool :=
  match node with
  | NodeTypeDirective _ _ _ => true
  | _ => false
  end.

(** Every list of the store holds directives only. *)
Definition directive_lists (store : list (list AstNode)) : Prop :=
  Forall (Forall (fun node => is_directive node = true)) store.

(** ** What the printer leaves out *)

(** The tree with the fields [ast_print] does not read set to fixed values:
    the line and column of every node, the directives of a declaration, the
    visibility of a prototype, the name and the parameter of a directive. *)
Fixpoint forget_unprinted (node : AstNode) : AstNode :=
  let origin := {| line := 0; column := 0 |} in
  match node with
  | NodeTypeRoot _ top_level_decls =>
      NodeTypeRoot origin (map forget_unprinted top_level_decls)
  | NodeTypeRootExportDecl _ _ type name =>
      NodeTypeRootExportDecl origin None type name
  | NodeTypeFnProto _ _ _ name params return_type =>
      NodeTypeFnProto origin None FnProtoVisibModPrivate name
        (map forget_unprinted params) (forget_unprinted return_type)
  | NodeTypeFnDef _ fn_proto body =>
      NodeTypeFnDef origin (forget_unprinted fn_proto) (forget_unprinted body)
  | NodeTypeFnDecl _ fn_proto =>
      NodeTypeFnDecl origin (forget_unprinted fn_proto)
  | NodeTypeParamDecl _ name type =>
      NodeTypeParamDecl origin name (forget_unprinted type)
  | NodeTypeTypePrimitive _ primitive_name =>
      NodeTypeTypePrimitive origin primitive_name
  | NodeTypeTypePointer _ is_const child_type =>
      NodeTypeTypePointer origin is_const (forget_unprinted child_type)
  | NodeTypeBlock _ statements =>
      NodeTypeBlock origin (map forget_unprinted statements)
  | NodeTypeExternBlock _ _ fn_decls =>
      NodeTypeExternBlock origin None (map forget_unprinted fn_decls)
  | NodeTypeDirective _ _ _ => NodeTypeDirective origin "" ""
  | NodeTypeReturnExpr _ expr =>
      NodeTypeReturnExpr origin
        match expr with
        | Some expr => Some (forget_unprinted expr)
        | None => None
        end
  | NodeTypeBinOpExpr _ op1 bin_op op2 =>
      NodeTypeBinOpExpr origin (forget_unprinted op1) bin_op
        (forget_unprinted op2)
  | NodeTypeCastExpr _ prefix_op_expr type =>
      NodeTypeCastExpr origin (forget_unprinted prefix_op_expr)
        (forget_unprinted type)
  | NodeTypeNumberLiteral _ number => NodeTypeNumberLiteral origin number
  | NodeTypeStringLiteral _ str => NodeTypeStringLiteral origin str
  | NodeTypeUnreachable _ => NodeTypeUnreachable origin
  | NodeTypeSymbol _ symbol => NodeTypeSymbol origin symbol
  | NodeTypePrefixOpExpr _ prefix_op primary_expr =>
      NodeTypePrefixOpExpr origin prefix_op (forget_unprinted primary_expr)
  | NodeTypeFnCallExpr _ fn_ref_expr params =>
      NodeTypeFnCallExpr origin (forget_unprinted fn_ref_expr)
        (map forget_unprinted params)
  | NodeTypeUse _ _ path => NodeTypeUse origin None path
  end.

(** The nodes [ast_print] visits: the node and the children it descends
    into, one call of [ast_print] each. *)
Fixpoint printed_nodes (node : AstNode) : nat :=
  let sum := foldr (fun child n => printed_nodes child + n) 0 in
  match node with
  | NodeTypeRoot _ top_level_decls => 1 + sum top_level_decls
  | NodeTypeFnProto _ _ _ _ params return_type =>
      1 + sum params + printed_nodes return_type
  | NodeTypeFnDef _ fn_proto body =>
      1 + printed_nodes fn_proto + printed_nodes body
  | NodeTypeFnDecl _ fn_proto => 1 + printed_nodes fn_proto
  | NodeTypeParamDecl _ _ type => 1 + printed_nodes type
  | NodeTypeTypePointer _ _ child_type => 1 + printed_nodes child_type
  | NodeTypeBlock _ statements => 1 + sum statements
  | NodeTypeExternBlock _ _ fn_decls => 1 + sum fn_decls
  | NodeTypeReturnExpr _ (Some expr) => 1 + printed_nodes expr
  | NodeTypeBinOpExpr _ op1 _ op2 =>
      1 + printed_nodes op1 + printed_nodes op2
  | NodeTypeCastExpr _ prefix_op_expr type =>
      1 + printed_nodes prefix_op_expr + printed_nodes type
  | NodeTypePrefixOpExpr _ _ primary_expr => 1 + printed_nodes primary_expr
  | NodeTypeFnCallExpr _ fn_ref_expr params =>
      1 + printed_nodes fn_ref_expr + sum params
  | _ => 1
  end.

(** The nodes the printer visits in a list of children. *)
Definition printed_nodes_of (children : list AstNode) : nat :=
  foldr (fun child n => printed_nodes child + n) 0 children.

(** The pointer levels of a type. *)
Fixpoint pointer_depth (node : AstNode) : nat :=
  match node with
  | NodeTypeTypePointer _ _ child_type => S (pointer_depth child_type)
  | _ => 0
  end.

(** ** String literals without escapes *)

Fixpoint no_backslash (bytes : string) : bool :=
  match bytes with
  | EmptyString => true
  | String c rest => negb (Ascii.eqb c "\") && no_backslash rest
  end.

(** ** The tokens an expression parser starts on *)






(** ** Diagnostics *)

(** The diagnostic [e] is one of the two the parser has, for a token of the
    input. *)
Definition diagnostic_at_token (pc : ParseContext) (e : ErrorMsg) : Prop :=
  exists k t,
    tokens pc !! k = Some t /\
    (e = invalid_token_at pc t \/ e = invalid_directive_at t).

(** ** Sample inputs *)

(** A string literal with a NUL byte between its quotes, at the top level:
    the five bytes quote, [a], NUL, [b], quote. *)
Definition pc_nul : ParseContext :=
  {| buf := String "034" (String "a" (String "000" (String "b" dquote)));
     tokens :=
      [mkToken TokenIdStringLiteral 0 5 1 1;
       mkToken TokenIdEof 5 5 1 6] |}.

(** The type [*const *mut u8]. *)
Definition pc_pointer : ParseContext :=
  {| buf := "*const *mut u8";
     tokens :=
      [mkToken TokenIdStar 0 1 1 1;
       mkToken TokenIdKeywordConst 1 6 1 2;
       mkToken TokenIdStar 7 8 1 8;
       mkToken TokenIdKeywordMut 8 11 1 9;
       mkToken TokenIdSymbol 12 14 1 13;
       mkToken TokenIdEof 14 14 1 15] |}.

(** An empty source file. *)

Definition pc_empty : ParseContext :=
  {| buf := ""; tokens := [mkToken TokenIdEof 0 0 1 1] |}.

(** * Properties of the parser *)

(** ** More fuel does not change a result *)

Section Fuel.

Variable pc : ParseContext.

(** One step of a monotonicity proof: case on the first call of the run with
    less fuel and replay its result in the run with more fuel. *)
Ltac mono_call :=
  match goal with
  | H : bind (non_null ?m) _ = _ |- _ =>
      let E := fresh "E" in
      destruct m as [[[?|] ?]| | |] eqn:E;
      try (match goal with
           | IH : forall _, _ |- _ =>
               eapply IH in E; [ rewrite E | lia | discriminate ]
           end);
      unfold non_null in H |- *; simpl in H |- *; try congruence
  | H : bind (match ?c with _ => _ end) _ = _ |- _ =>
      destruct c eqn:?; simpl in H |- *; try congruence
  | H : bind ?m _ = _ |- _ =>
      let E := fresh "E" in
      destruct m eqn:E;
      try (match goal with
           | IH : forall _, _ |- _ =>
               eapply IH in E; [ rewrite E | lia | discriminate ]
           end);
      simpl in H |- *; try congruence
  | H : match ?x with _ => _ end = _ |- _ =>
      destruct x eqn:?; simpl in H |- *; try congruence
  end.

Ltac mono_tail :=
  match goal with
  | IH : forall _, _ |- _ => eapply IH; [ | eassumption | assumption ]; lia
  end.

Ltac mono_start f' :=
  destruct f' as [|f']; [lia|]; simpl in *.

Lemma ast_parse_type_mono f f' i r :
  f <= f' -> ast_parse_type pc f i = r -> r <> OutOfFuel ->
  ast_parse_type pc f' i = r.
Proof.
  revert f' i r. induction f as [|f IH]; intros f' i r Hle H Hr; simpl in H.
  - congruence.
  - mono_start f'. repeat mono_call; try mono_tail.
Qed.

(** The expression parsers, all at once: the statement for fuel [S f] uses
    the statements for fuel [f] of the functions called. *)
Lemma expression_parsers_mono f :
  (forall f' (i : nat) (ps : list AstNode) r, f <= f' ->
     ast_parse_fn_call_param_list_loop pc f i ps = r -> r <> OutOfFuel ->
     ast_parse_fn_call_param_list_loop pc f' i ps = r) /\
  (forall f' (i : nat) r, f <= f' ->
     ast_parse_fn_call_param_list pc f i = r -> r <> OutOfFuel ->
     ast_parse_fn_call_param_list pc f' i = r) /\
  (forall f' (i : nat) (m : bool) r, f <= f' ->
     ast_parse_grouped_expr pc f i m = r -> r <> OutOfFuel ->
     ast_parse_grouped_expr pc f' i m = r) /\
  (forall f' (i : nat) (m : bool) r, f <= f' ->
     ast_parse_primary_expr pc f i m = r -> r <> OutOfFuel ->
     ast_parse_primary_expr pc f' i m = r) /\
  (forall f' (i : nat) (m : bool) r, f <= f' ->
     ast_parse_fn_call_expr pc f i m = r -> r <> OutOfFuel ->
     ast_parse_fn_call_expr pc f' i m = r) /\
  (forall f' (i : nat) (m : bool) r, f <= f' ->
     ast_parse_prefix_op_expr pc f i m = r -> r <> OutOfFuel ->
     ast_parse_prefix_op_expr pc f' i m = r) /\
  (forall f' (i : nat) (m : bool) r, f <= f' ->
     ast_parse_cast_expression pc f i m = r -> r <> OutOfFuel ->
     ast_parse_cast_expression pc f' i m = r) /\
  (forall f' (i : nat) (m : bool) r, f <= f' ->
     ast_parse_mult_expr pc f i m = r -> r <> OutOfFuel ->
     ast_parse_mult_expr pc f' i m = r) /\
  (forall f' (i : nat) (m : bool) r, f <= f' ->
     ast_parse_add_expr pc f i m = r -> r <> OutOfFuel ->
     ast_parse_add_expr pc f' i m = r) /\
  (forall f' (i : nat) (m : bool) r, f <= f' ->
     ast_parse_bit_shift_expr pc f i m = r -> r <> OutOfFuel ->
     ast_parse_bit_shift_expr pc f' i m = r) /\
  (forall f' (i : nat) (m : bool) r, f <= f' ->
     ast_parse_bin_and_expr pc f i m = r -> r <> OutOfFuel ->
     ast_parse_bin_and_expr pc f' i m = r) /\
  (forall f' (i : nat) (m : bool) r, f <= f' ->
     ast_parse_bin_xor_expr pc f i m = r -> r <> OutOfFuel ->
     ast_parse_bin_xor_expr pc f' i m = r) /\
  (forall f' (i : nat) (m : bool) r, f <= f' ->
     ast_parse_bin_or_expr pc f i m = r -> r <> OutOfFuel ->
     ast_parse_bin_or_expr pc f' i m = r) /\
  (forall f' (i : nat) (m : bool) r, f <= f' ->
     ast_parse_comparison_expr pc f i m = r -> r <> OutOfFuel ->
     ast_parse_comparison_expr pc f' i m = r) /\
  (forall f' (i : nat) (m : bool) r, f <= f' ->
     ast_parse_bool_and_expr pc f i m = r -> r <> OutOfFuel ->
     ast_parse_bool_and_expr pc f' i m = r) /\
  (forall f' (i : nat) (m : bool) r, f <= f' ->
     ast_parse_return_expr pc f i m = r -> r <> OutOfFuel ->
     ast_parse_return_expr pc f' i m = r) /\
  (forall f' (i : nat) (m : bool) r, f <= f' ->
     ast_parse_bool_or_expr pc f i m = r -> r <> OutOfFuel ->
     ast_parse_bool_or_expr pc f' i m = r) /\
  (forall f' (i : nat) (m : bool) r, f <= f' ->
     ast_parse_expression pc f i m = r -> r <> OutOfFuel ->
     ast_parse_expression pc f' i m = r) /\
  (forall f' (i : nat) r, f <= f' ->
     ast_parse_expression_statement pc f i = r -> r <> OutOfFuel ->
     ast_parse_expression_statement pc f' i = r) /\
  (forall f' (i : nat) r, f <= f' ->
     ast_parse_statement pc f i = r -> r <> OutOfFuel ->
     ast_parse_statement pc f' i = r) /\
  (forall f' (i : nat) (ps : list AstNode) r, f <= f' ->
     ast_parse_block_loop pc f i ps = r -> r <> OutOfFuel ->
     ast_parse_block_loop pc f' i ps = r) /\
  (forall f' (i : nat) (m : bool) r, f <= f' ->
     ast_parse_block pc f i m = r -> r <> OutOfFuel ->
     ast_parse_block pc f' i m = r).
Proof.
  induction f as [|f IH].
  - repeat split; intros; simpl in *; congruence.
  - destruct IH as (IH1 & IH2 & IH3 & IH4 & IH5 & IH6 & IH7 & IH8 & IH9 & IH10 & IH11 & IH12 & IH13 & IH14 & IH15 & IH16 & IH17 & IH18 & IH19 & IH20 & IH21 & IH22).
    pose proof ast_parse_type_mono as IHty.
    repeat split; intros f' **; mono_start f'; repeat mono_call; try mono_tail.
Qed.

Lemma ast_parse_directives_mono f f' i p ls r :
  f <= f' -> ast_parse_directives pc f i p ls = r -> r <> OutOfFuel ->
  ast_parse_directives pc f' i p ls = r.
Proof.
  revert f' i ls r.
  induction f as [|f IH]; intros f' i ls r Hle H Hr; simpl in H.
  - congruence.
  - mono_start f'. repeat mono_call; try mono_tail.
Qed.

Lemma ast_parse_param_decl_mono f f' i r :
  f <= f' -> ast_parse_param_decl pc f i = r -> r <> OutOfFuel ->
  ast_parse_param_decl pc f' i = r.
Proof.
  intros Hle H Hr. pose proof ast_parse_type_mono as IHty.
  unfold ast_parse_param_decl in *. repeat mono_call.
Qed.

Lemma ast_parse_param_decl_list_loop_mono f f' i ps r :
  f <= f' -> ast_parse_param_decl_list_loop pc f i ps = r ->
  r <> OutOfFuel -> ast_parse_param_decl_list_loop pc f' i ps = r.
Proof.
  revert f' i ps r.
  induction f as [|f IH]; intros f' i ps r Hle H Hr; simpl in H.
  - congruence.
  - pose proof ast_parse_param_decl_mono as IHp.
    mono_start f'. repeat mono_call; try mono_tail.
Qed.

Lemma ast_parse_param_decl_list_mono f f' i r :
  f <= f' -> ast_parse_param_decl_list pc f i = r -> r <> OutOfFuel ->
  ast_parse_param_decl_list pc f' i = r.
Proof.
  intros Hle H Hr. pose proof ast_parse_param_decl_list_loop_mono as IHp.
  unfold ast_parse_param_decl_list in *. repeat mono_call; try mono_tail.
Qed.

Lemma ast_parse_block_mono f f' i m r :
  f <= f' -> ast_parse_block pc f i m = r -> r <> OutOfFuel ->
  ast_parse_block pc f' i m = r.
Proof. intros. eapply (expression_parsers_mono f); eauto. Qed.

Lemma ast_parse_expression_mono f f' i m r :
  f <= f' -> ast_parse_expression pc f i m = r -> r <> OutOfFuel ->
  ast_parse_expression pc f' i m = r.
Proof. intros. eapply (expression_parsers_mono f); eauto. Qed.

Lemma ast_parse_fn_proto_mono f f' i m st r :
  f <= f' -> ast_parse_fn_proto pc f i m st = r -> r <> OutOfFuel ->
  ast_parse_fn_proto pc f' i m st = r.
Proof.
  intros Hle H Hr. pose proof ast_parse_param_decl_list_mono as IHp.
  pose proof ast_parse_type_mono as IHty.
  unfold ast_parse_fn_proto in *. repeat mono_call; try mono_tail.
Qed.

Lemma ast_parse_fn_def_mono f f' i m st r :
  f <= f' -> ast_parse_fn_def pc f i m st = r -> r <> OutOfFuel ->
  ast_parse_fn_def pc f' i m st = r.
Proof.
  intros Hle H Hr. pose proof ast_parse_fn_proto_mono as IHp.
  pose proof ast_parse_block_mono as IHb.
  unfold ast_parse_fn_def in *. repeat mono_call; try mono_tail.
Qed.

Lemma ast_parse_fn_decl_mono f f' i st r :
  f <= f' -> ast_parse_fn_decl pc f i st = r -> r <> OutOfFuel ->
  ast_parse_fn_decl pc f' i st = r.
Proof.
  intros Hle H Hr. pose proof ast_parse_fn_proto_mono as IHp.
  unfold ast_parse_fn_decl in *. repeat mono_call; try mono_tail.
Qed.

Lemma collect_directives_mono f f' i st r :
  f <= f' -> collect_directives pc f i st = r -> r <> OutOfFuel ->
  collect_directives pc f' i st = r.
Proof.
  intros Hle H Hr. pose proof ast_parse_directives_mono as IHd.
  unfold collect_directives in *. simpl in *.
  destruct (directive_list st); [done|]. repeat mono_call; try mono_tail.
Qed.

Lemma ast_parse_extern_block_loop_mono f f' i st ds r :
  f <= f' -> ast_parse_extern_block_loop pc f i st ds = r ->
  r <> OutOfFuel -> ast_parse_extern_block_loop pc f' i st ds = r.
Proof.
  revert f' i st ds r.
  induction f as [|f IH]; intros f' i st ds r Hle H Hr; simpl in H.
  - congruence.
  - pose proof collect_directives_mono as IHc.
    pose proof ast_parse_fn_decl_mono as IHd.
    mono_start f'. repeat mono_call; try mono_tail.
Qed.

Lemma ast_parse_extern_block_mono f f' i m st r :
  f <= f' -> ast_parse_extern_block pc f i m st = r -> r <> OutOfFuel ->
  ast_parse_extern_block pc f' i m st = r.
Proof.
  intros Hle H Hr. pose proof ast_parse_extern_block_loop_mono as IHp.
  unfold ast_parse_extern_block in *. repeat mono_call; try mono_tail.
Qed.

Lemma ast_parse_top_level_decls_mono f f' i st ds r :
  f <= f' -> ast_parse_top_level_decls pc f i st ds = r ->
  r <> OutOfFuel -> ast_parse_top_level_decls pc f' i st ds = r.
Proof.
  revert f' i st ds r.
  induction f as [|f IH]; intros f' i st ds r Hle H Hr; simpl in H.
  - congruence.
  - pose proof collect_directives_mono as IHc.
    pose proof ast_parse_fn_def_mono as IHd.
    pose proof ast_parse_extern_block_mono as IHe.
    mono_start f'. repeat mono_call; try mono_tail.
Qed.

Lemma ast_parse_root_mono f f' i st r :
  f <= f' -> ast_parse_root pc f i st = r -> r <> OutOfFuel ->
  ast_parse_root pc f' i st = r.
Proof.
  intros Hle H Hr. pose proof ast_parse_top_level_decls_mono as IHp.
  unfold ast_parse_root in *. repeat mono_call; try mono_tail.
Qed.

End Fuel.

(** ** Reading a successful run backwards *)

Lemma bind_Ok {A B : Type} (m : Res A) (k : A -> Res B) (b : B) :
  bind m k = Ok b -> exists a, m = Ok a /\ k a = Ok b.
Proof. destruct m; simpl; [eauto | done..]. Qed.

Lemma token_at_Ok pc i t : token_at pc i = Ok t <-> tokens pc !! i = Some t.
Proof.
  unfold token_at. destruct (tokens pc !! i); split; congruence.
Qed.

Lemma token_at_lookup pc i t : tokens pc !! i = Some t -> token_at pc i = Ok t.
Proof. apply token_at_Ok. Qed.

Lemma ast_expect_token_Ok pc t token_id u :
  ast_expect_token pc t token_id = Ok u -> id t = token_id.
Proof.
  unfold ast_expect_token. destruct (decide (id t <> token_id)) as [|Hn].
  - discriminate.
  - intros _. by destruct (decide (id t = token_id)).
Qed.

Lemma ast_expect_token_eq pc t token_id :
  id t = token_id -> ast_expect_token pc t token_id = Ok tt.
Proof.
  intros H. unfold ast_expect_token.
  by destruct (decide (id t <> token_id)).
Qed.

Lemma ast_expect_token_ne pc t token_id :
  id t <> token_id ->
  ast_expect_token pc t token_id = ast_invalid_token_error pc t.
Proof.
  intros H. unfold ast_expect_token.
  by destruct (decide (id t <> token_id)).
Qed.

Lemma non_null_Ok r node j :
  non_null r = Ok (node, j) <-> r = Ok (Some node, j).
Proof.
  unfold non_null. destruct r as [[[n|] k]| | |]; simpl; split; congruence.
Qed.

(** Take a hypothesis [body = Ok _] apart into the successful calls it is
    made of. *)
Ltac inv_ok :=
  repeat match goal with
  | H : bind _ _ = Ok _ |- _ =>
      let a := fresh "a" in
      let E := fresh "E" in
      apply bind_Ok in H as (a & E & H)
  | H : non_null _ = Ok (_, _) |- _ => apply non_null_Ok in H
  | H : non_null _ = Ok ?p |- _ => destruct p
  | H : ast_expect_token _ _ _ = Ok _ |- _ => apply ast_expect_token_Ok in H
  | H : token_at _ _ = Ok _ |- _ => apply token_at_Ok in H
  | H : ast_invalid_token_error _ _ = Ok _ |- _ => discriminate H
  | H : ast_error _ _ = Ok _ |- _ => discriminate H
  | H : Ok _ = Ok _ |- _ => injection H as H
  | H : (_, _) = (_, _) |- _ => injection H as ? ?
  | H : Some _ = None |- _ => discriminate H
  | H : None = Some _ |- _ => discriminate H
  | H : Some _ = Some _ |- _ => injection H as H
  | H : Exit _ = Ok _ |- _ => discriminate H
  | H : Abort = Ok _ |- _ => discriminate H
  | H : OutOfFuel = Ok _ |- _ => discriminate H
  | H : match ?x with _ => _ end = Ok _ |- _ => destruct x eqn:?
  end.

(** ** The string-literal decoder *)

Section StringLiteral.

Variable pc : ParseContext.

Lemma append_String_assoc (out : string) (c : ascii) (s : string) :
  (out +:+ String c EmptyString) +:+ s = out +:+ String c s.
Proof.
  induction out as [|d out IH]; [done|].
  change (String d ((out +:+ String c EmptyString) +:+ s)
          = String d (out +:+ String c s)).
  by rewrite IH.
Qed.

Lemma append_empty_r (out : string) : out +:+ EmptyString = out.
Proof.
  induction out as [|d out IH]; [done|].
  change (String d (out +:+ EmptyString) = String d out). by rewrite IH.
Qed.

(** The loop, started outside an escape, appends the decoded bytes to the
    buffer and stops inside an escape exactly on a dangling backslash. *)
Lemma parse_string_literal_loop_decode (bytes out : string) :
  parse_string_literal_loop bytes false out =
    (dangling_escape bytes, out +:+ decode_escapes bytes).
Proof.
  remember (String.length bytes) as n eqn:Hn.
  revert bytes out Hn.
  induction n as [n IH] using lt_wf_ind; intros bytes out Hn.
  destruct bytes as [|c rest]; simpl.
  - by rewrite append_empty_r.
  - destruct (Ascii.eqb c "\") eqn:Hc.
    + destruct rest as [|c' rest']; simpl.
      * by rewrite append_empty_r.
      * simpl in Hn.
        repeat (destruct (Ascii.eqb c' _));
          (erewrite IH; [ | | reflexivity ]; [ | lia ]);
          by rewrite ?append_String_assoc.
    + simpl in Hn. erewrite IH; [ | | reflexivity ]; [ | lia ].
      by rewrite append_String_assoc.
Qed.

(** C6: the decoder agrees with the decoding of the specification on the
    bytes strictly between the quotes: the pairs backslash-backslash,
    backslash-r, backslash-n, backslash-t and backslash-quote give
    backslash, CR, LF, TAB and a double quote, a backslash followed by any
    other byte gives nothing, every other byte is copied; the literal made
    of the five pairs decodes to the five bytes backslash, LF, CR, TAB,
    quote. *)
Theorem parse_string_literal_decodes :
  (forall token,
     parse_string_literal pc token =
       if dangling_escape (string_literal_bytes pc token) then Abort
       else Ok (decode_escapes (string_literal_bytes pc token))) /\
  (forall rest,
     decode_escapes (String "\" (String "\" rest))
       = String "\" (decode_escapes rest) /\
     decode_escapes (String "\" (String "r" rest))
       = String "013" (decode_escapes rest) /\
     decode_escapes (String "\" (String "n" rest))
       = String "010" (decode_escapes rest) /\
     decode_escapes (String "\" (String "t" rest))
       = String "009" (decode_escapes rest) /\
     decode_escapes (String "\" (String "034" rest))
       = String "034" (decode_escapes rest)) /\
  (forall c rest,
     c <> "\"%char ->
     decode_escapes (String c rest) = String c (decode_escapes rest)) /\
  (forall c rest,
     c <> "\"%char -> c <> "r"%char -> c <> "n"%char -> c <> "t"%char ->
     c <> "034"%char ->
     decode_escapes (String "\" (String c rest)) = decode_escapes rest) /\
  parse_string_literal pc_escapes (mkToken TokenIdStringLiteral 0 12 1 1) =
    Ok (String "\" (String "010" (String "013" (String "009"
         (String "034" EmptyString))))).
Proof.
  split; [|split; [|split; [|split]]].
  - intros token. unfold parse_string_literal.
    rewrite parse_string_literal_loop_decode. simpl.
    by destruct (dangling_escape _).
  - intros rest. by repeat split.
  - intros c rest Hc. simpl.
    by rewrite (proj2 (Ascii.eqb_neq c "\") Hc).
  - intros c rest H1 H2 H3 H4 H5. simpl.
    apply Ascii.eqb_neq in H1, H2, H3, H4, H5.
    by rewrite H1, H2, H3, H4, H5.
  - reflexivity.
Qed.

End StringLiteral.

Lemma parse_string_literal_decodes_witness :
  "a"%char <> "\"%char /\
  decode_escapes (String "a" "b") = String "a" (decode_escapes "b").
Proof.
  split; [discriminate|].
  apply (proj1 (proj2 (proj2 (parse_string_literal_decodes pc_escapes)))).
  discriminate.
Defined.

(** ** The root and the end of the token list *)

Section Root.

Variable pc : ParseContext.

(** When [ast_parse_use] finds no [use], the cursor rests on a token. *)
Lemma ast_parse_use_None i st j st' :
  ast_parse_use pc i false st = Ok (None, j, st') ->
  is_Some (tokens pc !! j).
Proof.
  unfold ast_parse_use. intros H. inv_ok; subst; eauto.
Qed.

(** The loop of the top level ends with the cursor on a token. *)
Lemma ast_parse_top_level_decls_cursor f i st acc decls j st' :
  ast_parse_top_level_decls pc f i st acc = Ok (decls, j, st') ->
  is_Some (tokens pc !! j).
Proof.
  revert i st acc.
  induction f as [|f IH]; intros i st acc H; simpl in H; [done|].
  inv_ok; subst; eauto using ast_parse_use_None.
Qed.

(** C9, as the code has it: once the loop of the top level has ended, the
    parse succeeds and returns the root exactly when the cursor is on the
    last token of the list; anywhere else the token under the cursor is
    reported as [invalid token: '<lexeme>'], with the lexeme as [%s] prints
    it, up to its first NUL byte, and the process exits. *)
Theorem ast_parse_root_end_of_tokens f i st first_token decls j st' :
  tokens pc !! i = Some first_token ->
  ast_parse_top_level_decls pc f i st [] = Ok (decls, j, st') ->
  (j = length (tokens pc) - 1 ->
   ast_parse_root pc f i st =
     Ok (NodeTypeRoot (pos_of_token first_token) decls, j, st')) /\
  (j <> length (tokens pc) - 1 ->
   exists token,
     tokens pc !! j = Some token /\
     ast_parse_root pc f i st =
       Exit {| line_start := start_line token;
               column_start := start_column token;
               line_end := (-1)%Z;
               column_end := (-1)%Z;
               msg := "invalid token: '" +:+
                        c_str (ast_buf_from_token pc token) +:+ "'" |}) /\
  (ast_parse_root pc f i st =
     Ok (NodeTypeRoot (pos_of_token first_token) decls, j, st')
   <-> j = length (tokens pc) - 1).
Proof.
  intros Hfirst Hloop.
  destruct (ast_parse_top_level_decls_cursor _ _ _ _ _ _ _ Hloop)
    as [token Htoken].
  unfold ast_parse_root.
  rewrite (token_at_lookup _ _ _ Hfirst). simpl. rewrite Hloop. simpl.
  destruct (decide (j <> length (tokens pc) - 1)) as [Hne|Heq].
  - rewrite (token_at_lookup _ _ _ Htoken). simpl.
    split; [done|]. split; [eauto|]. split; [discriminate | done].
  - apply dec_stable in Heq. split; [done|]. split; done.
Qed.

End Root.

(** ** Directives with no declaration *)

Section OrphanDirective.

Variable pc : ParseContext.

Ltac decide_false :=
  repeat match goal with
  | |- context [decide ?P] =>
      destruct (decide P); [ congruence | ]; simpl
  end.

(** A token that starts no declaration makes the four declaration parsers
    of the top level return [nullptr] and leave cursor and state alone. *)
Lemma no_decl_at f j st token :
  tokens pc !! j = Some token -> starts_no_decl token ->
  ast_parse_root_export_decl pc j false st = Ok (None, j, st) /\
  ast_parse_fn_def pc f j false st = Ok (None, j, st) /\
  ast_parse_extern_block pc f j false st = Ok (None, j, st) /\
  ast_parse_use pc j false st = Ok (None, j, st).
Proof.
  intros Htoken (Hexport & Hpub & Hfn & Hextern & Huse).
  unfold ast_parse_root_export_decl, ast_parse_fn_def, ast_parse_fn_proto,
    ast_parse_fn_proto_visib, ast_parse_extern_block, ast_parse_use.
  rewrite (token_at_lookup _ _ _ Htoken). simpl.
  repeat split.
  - by destruct (decide (id token <> TokenIdKeywordExport)).
  - by decide_false.
  - by destruct (decide (id token <> TokenIdKeywordExtern)).
  - by destruct (decide (id token <> TokenIdKeywordUse)).
Qed.

(** Directives were collected only if the first token was a [#]. *)
Lemma collect_directives_first f i st j st1 directive_token len :
  tokens pc !! i = Some directive_token ->
  collect_directives pc f i st = Ok (j, st1) ->
  directive_list_length st1 = Ok len -> 0 < len ->
  id directive_token = TokenIdNumberSign.
Proof.
  intros Htoken Hcollect Hlen Hpos. unfold collect_directives in Hcollect.
  destruct (directive_list st); [done|]. simpl in Hcollect.
  destruct f as [|f]; simpl in Hcollect; [done|].
  rewrite (token_at_lookup _ _ _ Htoken) in Hcollect. simpl in Hcollect.
  destruct (decide (id directive_token = TokenIdNumberSign)); [done|].
  simpl in Hcollect. injection Hcollect as <- <-.
  unfold directive_list_length, list_length in Hlen. simpl in Hlen.
  rewrite lookup_app_r, Nat.sub_diag in Hlen by lia. simpl in Hlen.
  injection Hlen as <-. lia.
Qed.

(** C8: where a declaration may start, one or more collected directives
    that no declaration follows end the parse with [invalid directive],
    reported at the token the collecting started on, which is the [#] of the
    first directive: at the top level when the next token starts no
    declaration, in an [extern] block when the next token is the closing
    brace. With no directive collected the loop of the top level returns
    without an error. *)
Theorem orphan_directive_is_fatal f i st acc directive_token j st1 len token :
  tokens pc !! i = Some directive_token ->
  collect_directives pc f i st = Ok (j, st1) ->
  directive_list_length st1 = Ok len ->
  tokens pc !! j = Some token ->
  (0 < len -> starts_no_decl token ->
   id directive_token = TokenIdNumberSign /\
   ast_parse_top_level_decls pc (S f) i st acc =
     Exit (invalid_directive_at directive_token)) /\
  (0 < len -> id token = TokenIdRBrace ->
   id directive_token = TokenIdNumberSign /\
   ast_parse_extern_block_loop pc (S f) i st acc =
     Exit (invalid_directive_at directive_token)) /\
  (len = 0 -> starts_no_decl token ->
   ast_parse_top_level_decls pc (S f) i st acc =
     Ok (acc, j, clear_directive_list st1)).
Proof.
  intros Hfirst Hcollect Hlen Htoken.
  split; [|split].
  - intros Hpos Hno. split; [by eapply collect_directives_first|].
    destruct (no_decl_at f j st1 token Htoken Hno) as (H1 & H2 & H3 & H4).
    cbn [ast_parse_top_level_decls bind].
    rewrite (token_at_lookup _ _ _ Hfirst). cbn [bind].
    rewrite Hcollect. cbn [bind]. rewrite H1. cbn [bind].
    rewrite H2. cbn [bind]. rewrite H3. cbn [bind]. rewrite H4. cbn [bind].
    rewrite Hlen. cbn [bind].
    by destruct (decide (0 < len)).
  - intros Hpos Hbrace. split; [by eapply collect_directives_first|].
    cbn [ast_parse_extern_block_loop bind].
    rewrite (token_at_lookup _ _ _ Hfirst). cbn [bind].
    rewrite Hcollect. cbn [bind].
    rewrite (token_at_lookup _ _ _ Htoken). cbn [bind].
    destruct (decide (id token = TokenIdRBrace)); [|done].
    rewrite Hlen. cbn [bind]. by destruct (decide (0 < len)).
  - intros -> Hno.
    destruct (no_decl_at f j st1 token Htoken Hno) as (H1 & H2 & H3 & H4).
    cbn [ast_parse_top_level_decls bind].
    rewrite (token_at_lookup _ _ _ Hfirst). cbn [bind].
    rewrite Hcollect. cbn [bind]. rewrite H1. cbn [bind].
    rewrite H2. cbn [bind]. rewrite H3. cbn [bind]. rewrite H4. cbn [bind].
    rewrite Hlen. cbn [bind]. done.
Qed.

End OrphanDirective.

(** ** The return type of a prototype *)

Section FnProto.

Variable pc : ParseContext.

(** C5: a prototype that was parsed has a return type node in every case.
    With [arrow] the token after the parameter list: when it is no [->],
    the return type is a primitive type named "void" at the line and column
    of that token, and the cursor stays on it; when it is a [->], the return
    type is the type parsed after it. *)
Theorem fn_proto_return_type f i mandatory st node j st' :
  ast_parse_fn_proto pc f i mandatory st = Ok (Some node, j, st') ->
  exists p directives visib_mod name params return_type i1 k arrow,
    node = NodeTypeFnProto p directives visib_mod name params return_type /\
    ast_parse_param_decl_list pc f i1 = Ok (params, k) /\
    tokens pc !! k = Some arrow /\
    (id arrow <> TokenIdArrow ->
     return_type = NodeTypeTypePrimitive (pos_of_token arrow) "void" /\
     j = k) /\
    (id arrow = TokenIdArrow ->
     ast_parse_type pc f (k + 1) = Ok (return_type, j)).
Proof.
  unfold ast_parse_fn_proto. intros H. inv_ok; subst.
  - do 9 eexists. split; [reflexivity|]. split; [eassumption|].
    split; [eassumption|]. split; [done|]. intros _. assumption.
  - do 9 eexists. split; [reflexivity|]. split; [eassumption|].
    split; [eassumption|]. split; [|done]. intros _. done.
Qed.

End FnProto.

(** ** Parentheses *)

Section Grouped.

Variable pc : ParseContext.

(** C10: a parenthesised expression is the node of the expression inside.
    With a [(] at the cursor, when the expression after it parses to [node]
    and a [)] follows, [ast_parse_grouped_expr] and through it
    [ast_parse_primary_expr] return that very node: same kind, payload,
    children, line and column; no node is made for the parentheses. In the
    other direction, a node that [ast_parse_grouped_expr] returns is the node
    [ast_parse_expression] returns for the tokens after the [(]. *)
Theorem grouped_expr_is_inner_expr f i mandatory l_paren :
  tokens pc !! i = Some l_paren -> id l_paren = TokenIdLParen ->
  (forall node j r_paren,
     ast_parse_expression pc f (i + 1) true = Ok (Some node, j) ->
     tokens pc !! j = Some r_paren -> id r_paren = TokenIdRParen ->
     ast_parse_grouped_expr pc (S f) i mandatory = Ok (Some node, j + 1) /\
     ast_parse_primary_expr pc (S (S f)) i mandatory
       = Ok (Some node, j + 1)) /\
  (forall node k,
     ast_parse_grouped_expr pc (S f) i mandatory = Ok (Some node, k) ->
     exists j r_paren,
       k = j + 1 /\ tokens pc !! j = Some r_paren /\
       id r_paren = TokenIdRParen /\
       ast_parse_expression pc f (i + 1) true = Ok (Some node, j)).
Proof.
  intros Hl Hid. split.
  - intros node j r_paren Hexpr Hr Hrid.
    assert (Hg : forall m,
      ast_parse_grouped_expr pc (S f) i m = Ok (Some node, j + 1)).
    { intros m. cbn [ast_parse_grouped_expr bind].
      rewrite (token_at_lookup _ _ _ Hl). cbn [bind].
      destruct (decide (id l_paren <> TokenIdLParen)); [done|].
      rewrite Hexpr. cbn [bind].
      rewrite (token_at_lookup _ _ _ Hr). cbn [bind].
      by rewrite (ast_expect_token_eq _ _ _ Hrid). }
    split; [apply Hg|].
    cbn [ast_parse_primary_expr bind].
    rewrite (token_at_lookup _ _ _ Hl). cbn [bind].
    repeat (destruct (decide (id l_paren = _)); [congruence|]).
    assert (Hb : ast_parse_block pc (S f) i false = Ok (None, i)).
    { cbn [ast_parse_block bind].
      rewrite (token_at_lookup _ _ _ Hl). cbn [bind].
      destruct (decide (id l_paren <> TokenIdLBrace)) as [|Hn]; [done|].
      exfalso. apply Hn. congruence. }
    rewrite Hb. cbn [bind]. rewrite Hg. done.
  - intros node k H. cbn [ast_parse_grouped_expr bind] in H.
    rewrite (token_at_lookup _ _ _ Hl) in H. cbn [bind] in H.
    destruct (decide (id l_paren <> TokenIdLParen)); [done|].
    inv_ok; subst. eauto 10.
Qed.

End Grouped.

(** ** The precedence ladder *)

Section Ladder.

Variable pc : ParseContext.

Lemma level_parser_mono l f f' i m r :
  f <= f' -> level_parser l pc f i m = r -> r <> OutOfFuel ->
  level_parser l pc f' i m = r.
Proof. destruct l; intros; eapply (expression_parsers_mono pc f); eauto. Qed.

Lemma level_operand_mono l f f' i m r :
  f <= f' -> level_operand l pc f i m = r -> r <> OutOfFuel ->
  level_operand l pc f' i m = r.
Proof. destruct l; intros; eapply (expression_parsers_mono pc f); eauto. Qed.

(** Each of the nine functions is the single-shot scheme at its level. *)
Lemma level_parser_single_shot l f i m :
  level_parser l pc (S f) i m =
    single_shot pc (level_operand l pc f) (level_op l) i m.
Proof.
  unfold single_shot.
  destruct l; cbn [level_parser level_operand level_op];
    match goal with
    | |- ?p pc (S f) i m = _ => cbn [p bind]
    end;
    match goal with
    | |- bind ?x _ = _ => destruct x as [[[operand_1|] j]| | |]
    end; cbn [bind]; try reflexivity;
    unfold ast_parse_mult_op, ast_parse_add_op, ast_parse_bit_shift_op,
      ast_parse_comparison_operator, ast_parse_bin_op;
    destruct (token_at pc j) as [token| | |]; cbn [bind]; try reflexivity;
    repeat (cbn [bind];
            match goal with
            | |- context [decide (id ?t = ?x)] =>
                destruct (decide (id t = x))
            | |- context [decide ?P] => destruct (decide P)
            end);
    cbn [bind]; try reflexivity; try congruence; tauto.
Qed.

(** *** One step of each function *)

Lemma level_pass l f i m n j t :
  level_operand l pc f i m = Ok (Some n, j) ->
  tokens pc !! j = Some t -> level_op l t = BinOpTypeInvalid ->
  level_parser l pc (S f) i m = Ok (Some n, j).
Proof.
  intros Hop Ht Hinv. rewrite level_parser_single_shot. unfold single_shot.
  rewrite Hop. cbn [bind]. rewrite (token_at_lookup _ _ _ Ht). cbn [bind].
  by destruct (decide (level_op l t = BinOpTypeInvalid)).
Qed.

Lemma level_fold l f i m o1 j t o2 k :
  level_operand l pc f i m = Ok (Some o1, j) ->
  tokens pc !! j = Some t -> level_op l t <> BinOpTypeInvalid ->
  level_operand l pc f (j + 1) true = Ok (Some o2, k) ->
  level_parser l pc (S f) i m =
    Ok (Some (NodeTypeBinOpExpr (pos_of_token t) o1 (level_op l t) o2), k).
Proof.
  intros Hop Ht Hinv Hop2. rewrite level_parser_single_shot.
  unfold single_shot.
  rewrite Hop. cbn [bind]. rewrite (token_at_lookup _ _ _ Ht). cbn [bind].
  destruct (decide (level_op l t = BinOpTypeInvalid)); [done|].
  rewrite Hop2. reflexivity.
Qed.

Lemma primary_atom f i m a :
  tokens pc !! i = Some a -> is_atom a ->
  ast_parse_primary_expr pc (S f) i m = Ok (Some (atom_node pc a), i + 1).
Proof.
  intros Ha Hatom. cbn [ast_parse_primary_expr bind].
  rewrite (token_at_lookup _ _ _ Ha). cbn [bind]. unfold atom_node.
  destruct Hatom as [Hs|Hn].
  - repeat (destruct (decide (id a = _)); [congruence|]).
    by destruct (decide (id a = TokenIdSymbol)).
  - by destruct (decide (id a = TokenIdNumberLiteral)).
Qed.

Lemma fn_call_pass f i m n j t :
  ast_parse_primary_expr pc f i m = Ok (Some n, j) ->
  tokens pc !! j = Some t -> id t <> TokenIdLParen ->
  ast_parse_fn_call_expr pc (S f) i m = Ok (Some n, j).
Proof.
  intros Hp Ht Hid. cbn [ast_parse_fn_call_expr bind]. rewrite Hp.
  cbn [bind]. rewrite (token_at_lookup _ _ _ Ht). cbn [bind].
  by destruct (decide (id t <> TokenIdLParen)).
Qed.

Lemma prefix_pass f i m t0 :
  tokens pc !! i = Some t0 -> tok_to_prefix_op t0 = PrefixOpInvalid ->
  ast_parse_prefix_op_expr pc (S f) i m = ast_parse_fn_call_expr pc f i m.
Proof.
  intros Ht Hop. cbn [ast_parse_prefix_op_expr bind].
  unfold ast_parse_prefix_op.
  rewrite (token_at_lookup _ _ _ Ht). cbn [bind]. rewrite Hop.
  destruct (decide (PrefixOpInvalid = PrefixOpInvalid)); [|done].
  cbn [bind]. by destruct (decide (PrefixOpInvalid = PrefixOpInvalid)).
Qed.

Lemma prefix_fold f i m t0 n j :
  tokens pc !! i = Some t0 -> tok_to_prefix_op t0 <> PrefixOpInvalid ->
  ast_parse_fn_call_expr pc f (i + 1) true = Ok (Some n, j) ->
  ast_parse_prefix_op_expr pc (S f) i m =
    Ok (Some (NodeTypePrefixOpExpr (pos_of_token t0) (tok_to_prefix_op t0) n),
        j).
Proof.
  intros Ht Hop Hcall. cbn [ast_parse_prefix_op_expr bind].
  unfold ast_parse_prefix_op.
  rewrite (token_at_lookup _ _ _ Ht). cbn [bind].
  destruct (decide (tok_to_prefix_op t0 = PrefixOpInvalid)); [done|].
  cbn [bind].
  destruct (decide (tok_to_prefix_op t0 = PrefixOpInvalid)); [done|].
  rewrite Hcall. reflexivity.
Qed.

Lemma cast_pass f i m n j t :
  ast_parse_prefix_op_expr pc f i m = Ok (Some n, j) ->
  tokens pc !! j = Some t -> id t <> TokenIdKeywordAs ->
  ast_parse_cast_expression pc (S f) i m = Ok (Some n, j).
Proof.
  intros Hp Ht Hid. cbn [ast_parse_cast_expression bind]. rewrite Hp.
  cbn [bind]. rewrite (token_at_lookup _ _ _ Ht). cbn [bind].
  by destruct (decide (id t <> TokenIdKeywordAs)).
Qed.

Lemma cast_fold f i m n j t ty k :
  ast_parse_prefix_op_expr pc f i m = Ok (Some n, j) ->
  tokens pc !! j = Some t -> id t = TokenIdKeywordAs ->
  ast_parse_type pc f (j + 1) = Ok (ty, k) ->
  ast_parse_cast_expression pc (S f) i m =
    Ok (Some (NodeTypeCastExpr (pos_of_token t) n ty), k).
Proof.
  intros Hp Ht Hid Hty. cbn [ast_parse_cast_expression bind]. rewrite Hp.
  cbn [bind]. rewrite (token_at_lookup _ _ _ Ht). cbn [bind].
  destruct (decide (id t <> TokenIdKeywordAs)); [done|].
  rewrite Hty. reflexivity.
Qed.

Lemma type_symbol f i t :
  tokens pc !! i = Some t -> id t = TokenIdSymbol ->
  ast_parse_type pc (S f) i =
    Ok (NodeTypeTypePrimitive (pos_of_token t) (ast_buf_from_token pc t),
        i + 1).
Proof.
  intros Ht Hid. cbn [ast_parse_type bind].
  rewrite (token_at_lookup _ _ _ Ht). cbn [bind].
  destruct (decide (id t = TokenIdKeywordUnreachable)); [congruence|].
  by destruct (decide (id t = TokenIdSymbol)).
Qed.

Lemma expression_of_bool_or f i m t0 n j :
  tokens pc !! i = Some t0 -> id t0 <> TokenIdKeywordReturn ->
  ast_parse_bool_or_expr pc f i false = Ok (Some n, j) ->
  ast_parse_expression pc (S f) i m = Ok (Some n, j).
Proof.
  intros Ht Hid Hor. cbn [ast_parse_expression bind].
  rewrite (token_at_lookup _ _ _ Ht). cbn [bind].
  destruct f as [|f]; [done|].
  assert (Hret : ast_parse_return_expr pc (S f) i false = Ok (None, i)).
  { cbn [ast_parse_return_expr bind].
    rewrite (token_at_lookup _ _ _ Ht). cbn [bind].
    by destruct (decide (id t0 = TokenIdKeywordReturn)). }
  rewrite Hret. cbn [bind]. rewrite Hor. reflexivity.
Qed.

(** *** Operators and levels *)

Lemma level_op_level l t :
  level_op l t <> BinOpTypeInvalid <-> op_level_of (id t) = Some l.
Proof.
  unfold level_op, tok_to_mult_op, tok_to_add_op, tok_to_bit_shift_op,
    tok_to_cmp_op.
  destruct l; destruct (id t); simpl; split; congruence.
Qed.

Lemma level_op_other l l' t :
  level_op l t <> BinOpTypeInvalid -> l' <> l ->
  level_op l' t = BinOpTypeInvalid.
Proof.
  intros Hl Hne. apply level_op_level in Hl.
  destruct (decide (level_op l' t = BinOpTypeInvalid)) as [|Hl']; [done|].
  apply level_op_level in Hl'. congruence.
Qed.

Lemma level_op_not_paren_as l t :
  level_op l t <> BinOpTypeInvalid ->
  id t <> TokenIdLParen /\ id t <> TokenIdKeywordAs /\
  id t <> TokenIdSemicolon.
Proof.
  intros Hl. apply level_op_level in Hl.
  repeat split; intros Hid; rewrite Hid in Hl; discriminate.
Qed.

Lemma atom_not_prefix a : is_atom a -> tok_to_prefix_op a = PrefixOpInvalid.
Proof. unfold tok_to_prefix_op. by intros [-> | ->]. Qed.

Lemma atom_not_return a : is_atom a -> id a <> TokenIdKeywordReturn.
Proof. by intros [-> | ->]. Qed.

(** *** Operands of one token *)

Lemma cast_atom f i m a t :
  4 <= f -> tokens pc !! i = Some a -> is_atom a ->
  tokens pc !! (i + 1) = Some t ->
  id t <> TokenIdLParen -> id t <> TokenIdKeywordAs ->
  ast_parse_cast_expression pc f i m = Ok (Some (atom_node pc a), i + 1).
Proof.
  intros Hf Ha Hatom Ht Hp Has.
  do 4 (destruct f as [|f]; [lia|]).
  eapply cast_pass; [|done..].
  rewrite (prefix_pass _ _ _ _ Ha (atom_not_prefix _ Hatom)).
  eapply fn_call_pass; [|done..]. by apply primary_atom.
Qed.

Lemma operand_atom_step l l' :
  level_operand l = level_parser l' -> level_rank l = S (level_rank l') ->
  operand_atom_at pc l' -> operand_atom_at pc l.
Proof.
  intros Heq Hrank IH f i m a t Hf Ha Hatom Ht (Hp & Has & Hops).
  unfold operand_atom_at in IH. rewrite Heq. destruct f as [|f]; [lia|].
  eapply level_pass; [|exact Ht|apply Hops; lia].
  apply (IH f i m a t); [lia|done..|]. split; [done|]. split; [done|].
  intros l'' Hl''. apply Hops. lia.
Qed.

Lemma operand_atom l : operand_atom_at pc l.
Proof.
  assert (H0 : operand_atom_at pc LevelMult).
  { intros f i m a t Hf Ha Hatom Ht (Hp & Has & _).
    apply (cast_atom f i m a t); [simpl in Hf; lia|done..]. }
  assert (H1 : operand_atom_at pc LevelAdd)
    by (by apply (operand_atom_step _ LevelMult)).
  assert (H2 : operand_atom_at pc LevelBitShift)
    by (by apply (operand_atom_step _ LevelAdd)).
  assert (H3 : operand_atom_at pc LevelBinAnd)
    by (by apply (operand_atom_step _ LevelBitShift)).
  assert (H4 : operand_atom_at pc LevelBinXor)
    by (by apply (operand_atom_step _ LevelBinAnd)).
  assert (H5 : operand_atom_at pc LevelBinOr)
    by (by apply (operand_atom_step _ LevelBinXor)).
  assert (H6 : operand_atom_at pc LevelComparison)
    by (by apply (operand_atom_step _ LevelBinOr)).
  assert (H7 : operand_atom_at pc LevelBoolAnd)
    by (by apply (operand_atom_step _ LevelComparison)).
  assert (H8 : operand_atom_at pc LevelBoolOr)
    by (by apply (operand_atom_step _ LevelBoolAnd)).
  by destruct l.
Qed.

(** *** From a level up to the expression *)

Lemma lifts_from_step l l' :
  level_operand l' = level_parser l -> level_rank l' = S (level_rank l) ->
  level_rank l' <= 8 -> lifts_from pc l' -> lifts_from pc l.
Proof.
  intros Heq Hrank Hle IH f i m n j t Hl Ht Hops.
  unfold lifts_from in IH.
  replace (f + (8 - level_rank l)) with (S f + (8 - level_rank l')) by lia.
  apply IH with t; [|done|].
  - eapply level_pass; [by rewrite Heq|exact Ht|]. apply Hops. lia.
  - intros l'' Hl''. apply Hops. lia.
Qed.

Lemma lifts l : lifts_from pc l.
Proof.
  assert (H8 : lifts_from pc LevelBoolOr).
  { intros f i m n j t Hl _ _. simpl. by rewrite Nat.add_0_r. }
  assert (H7 : lifts_from pc LevelBoolAnd)
    by (apply (lifts_from_step _ LevelBoolOr); simpl; done || lia).
  assert (H6 : lifts_from pc LevelComparison)
    by (apply (lifts_from_step _ LevelBoolAnd); simpl; done || lia).
  assert (H5 : lifts_from pc LevelBinOr)
    by (apply (lifts_from_step _ LevelComparison); simpl; done || lia).
  assert (H4 : lifts_from pc LevelBinXor)
    by (apply (lifts_from_step _ LevelBinOr); simpl; done || lia).
  assert (H3 : lifts_from pc LevelBinAnd)
    by (apply (lifts_from_step _ LevelBinXor); simpl; done || lia).
  assert (H2 : lifts_from pc LevelBitShift)
    by (apply (lifts_from_step _ LevelBinAnd); simpl; done || lia).
  assert (H1 : lifts_from pc LevelAdd)
    by (apply (lifts_from_step _ LevelBitShift); simpl; done || lia).
  assert (H0 : lifts_from pc LevelMult)
    by (apply (lifts_from_step _ LevelAdd); simpl; done || lia).
  by destruct l.
Qed.

(** The expression is what level [l] returned, for any fuel from 14 on. *)
Lemma expression_of_level l fuel f i m t0 n j t :
  level_parser l pc f i false = Ok (Some n, j) ->
  f <= 5 + level_rank l -> 14 <= fuel ->
  tokens pc !! i = Some t0 -> id t0 <> TokenIdKeywordReturn ->
  tokens pc !! j = Some t ->
  (forall l', level_rank l < level_rank l' ->
              level_op l' t = BinOpTypeInvalid) ->
  ast_parse_expression pc fuel i m = Ok (Some n, j).
Proof.
  intros Hl Hf Hfuel Ht0 Hid Ht Hops.
  apply (ast_parse_expression_mono pc (S (f + (8 - level_rank l))));
    [destruct l; simpl in *; lia| |done].
  eapply expression_of_bool_or; [done..|]. by eapply (lifts l).
Qed.

(** *** Tokens around an operator *)

Lemma semicolon_no_op l t : id t = TokenIdSemicolon ->
  level_op l t = BinOpTypeInvalid.
Proof.
  intros Hid.
  destruct (decide (level_op l t = BinOpTypeInvalid)) as [|Hl]; [done|].
  apply level_op_level in Hl. rewrite Hid in Hl. discriminate.
Qed.

Lemma ends_expression_stops l t : ends_expression t -> stops_operand l t.
Proof. intros (Hp & Has & Hops). repeat split; auto. Qed.

Lemma semicolon_ends_expression t :
  id t = TokenIdSemicolon -> ends_expression t.
Proof.
  intros Hid. repeat split; try congruence.
  intros l. by apply semicolon_no_op.
Qed.

(** An operator of level [l] stops the operand of level [l]. *)
Lemma level_op_stops l t :
  level_op l t <> BinOpTypeInvalid -> stops_operand l t.
Proof.
  intros Hl. destruct (level_op_not_paren_as _ _ Hl) as (Hp & Has & _).
  split; [done|]. split; [done|]. intros l' Hrank.
  apply (level_op_other l); [done|]. intros ->. lia.
Qed.

(** An operator of a looser level stops the operand of level [l] too. *)
Lemma looser_op_stops l l0 t :
  level_op l0 t <> BinOpTypeInvalid -> level_rank l <= level_rank l0 ->
  stops_operand l t.
Proof.
  intros Hl Hle. destruct (level_op_not_paren_as _ _ Hl) as (Hp & Has & _).
  split; [done|]. split; [done|]. intros l' Hrank.
  apply (level_op_other l0); [done|]. intros ->. lia.
Qed.

Lemma tokens_from_lookup i l k t :
  tokens_from pc i l -> l !! k = Some t -> tokens pc !! (i + k) = Some t.
Proof. intros H. apply H. Qed.

End Ladder.

(** Bring the cursor arithmetic to the form [i + k]. *)
Ltac norm_idx := rewrite <- ?Nat.add_assoc; simpl Nat.add.

(** Find the token at [i + k] among the tokens listed from [i] on. *)
Ltac tok :=
  norm_idx;
  match goal with
  | H : tokens_from ?pc ?i _ |- tokens ?pc !! ?i = Some _ =>
      rewrite <- (Nat.add_0_r i); apply H; reflexivity
  | H : tokens_from ?pc ?i _ |- tokens ?pc !! (?i + _) = Some _ =>
      apply H; reflexivity
  end.

(** ** One fold per level, and precedence *)

Section Precedence.

Variable pc : ParseContext.

(** C1, as the code has it: a binary level folds once. For an input
    [a1 op a2] at level [l], followed by a [;] or by another operator of the
    same level, the function of the level returns
    [BinOpExpr(op, a1, a2)], a tree of depth 1, with the cursor on the token
    after [a2]; so does the expression. When that token is a [;] the
    statement is this tree. When it is a further operator of the level
    (the input is a chain of three or more operands), the operator is not
    consumed and the statement exits with [invalid token] at it. *)
Theorem binary_level_folds_once l fuel i m a1 o1 a2 t3 :
  14 <= fuel ->
  tokens_from pc i [a1; o1; a2; t3] ->
  is_atom a1 -> level_op l o1 <> BinOpTypeInvalid -> is_atom a2 ->
  id t3 = TokenIdSemicolon \/ level_op l t3 <> BinOpTypeInvalid ->
  let node :=
    NodeTypeBinOpExpr (pos_of_token o1) (atom_node pc a1) (level_op l o1)
      (atom_node pc a2) in
  level_parser l pc fuel i m = Ok (Some node, i + 3) /\
  ast_parse_expression pc fuel i m = Ok (Some node, i + 3) /\
  (id t3 = TokenIdSemicolon ->
   ast_parse_expression_statement pc (S fuel) i = Ok (node, i + 4)) /\
  (level_op l t3 <> BinOpTypeInvalid ->
   ast_parse_expression_statement pc (S fuel) i =
     Exit (invalid_token_at pc t3)).
Proof.
  intros Hfuel Htoks Ha1 Ho1 Ha2 Ht3 node.
  assert (Hstop3 : stops_operand l t3).
  { destruct Ht3 as [Hsemi|Hop].
    - by apply ends_expression_stops, semicolon_ends_expression.
    - by apply level_op_stops. }
  assert (Hlevel : forall f m', 5 + level_rank l <= f ->
            level_parser l pc f i m' = Ok (Some node, i + 3)).
  { intros f m' Hf. destruct f as [|f]; [lia|].
    replace (i + 3) with (i + 1 + 1 + 1) by lia.
    apply (level_fold pc l f i m' _ (i + 1) o1).
    - apply (operand_atom pc l f i m' a1 o1); [lia|tok|done|tok|].
      by apply level_op_stops.
    - tok.
    - done.
    - apply (operand_atom pc l f (i + 1 + 1) true a2 t3);
        [lia|tok|done|tok|done]. }
  assert (Hexpr : forall m',
            ast_parse_expression pc fuel i m' = Ok (Some node, i + 3)).
  { intros m'.
    apply (expression_of_level pc l fuel (5 + level_rank l) i m' a1 _ _ t3).
    - by apply Hlevel.
    - done.
    - done.
    - tok.
    - by apply atom_not_return.
    - tok.
    - intros l' Hrank. destruct Ht3 as [Hsemi|Hop].
      + by apply semicolon_no_op.
      + apply (level_op_other l); [done|]. intros ->. lia. }
  split; [|split; [|split]].
  - apply Hlevel. destruct l; simpl; lia.
  - apply Hexpr.
  - intros Hsemi. cbn [ast_parse_expression_statement bind].
    rewrite Hexpr. unfold non_null. cbn [bind].
    assert (Ht : tokens pc !! (i + 3) = Some t3) by tok.
    rewrite (token_at_lookup _ _ _ Ht). cbn [bind].
    rewrite (ast_expect_token_eq _ _ _ Hsemi). cbn [bind].
    do 2 f_equal. lia.
  - intros Hop. cbn [ast_parse_expression_statement bind].
    rewrite Hexpr. unfold non_null. cbn [bind].
    assert (Ht : tokens pc !! (i + 3) = Some t3) by tok.
    rewrite (token_at_lookup _ _ _ Ht). cbn [bind].
    rewrite ast_expect_token_ne; [done|].
    by apply (level_op_not_paren_as l).
Qed.

(** Two operators of neighbouring levels, the tighter one second:
    [a o1 b o2 c] is [a o1 (b o2 c)]. *)
Lemma nest_right l1 l2 fuel i m a o1 b o2 c e :
  level_operand l1 = level_parser l2 -> level_rank l1 = S (level_rank l2) ->
  14 <= fuel ->
  tokens_from pc i [a; o1; b; o2; c; e] ->
  is_atom a -> level_op l1 o1 <> BinOpTypeInvalid -> is_atom b ->
  level_op l2 o2 <> BinOpTypeInvalid -> is_atom c -> ends_expression e ->
  ast_parse_expression pc fuel i m =
    Ok (Some (NodeTypeBinOpExpr (pos_of_token o1) (atom_node pc a)
                (level_op l1 o1)
                (NodeTypeBinOpExpr (pos_of_token o2) (atom_node pc b)
                   (level_op l2 o2) (atom_node pc c))), i + 5).
Proof.
  intros Heq Hrank Hfuel Htoks Ha Ho1 Hb Ho2 Hc He.
  assert (Hl2 : forall f, 5 + level_rank l2 <= f ->
    level_parser l2 pc f (i + 1 + 1) true =
      Ok (Some (NodeTypeBinOpExpr (pos_of_token o2) (atom_node pc b)
                  (level_op l2 o2) (atom_node pc c)), i + 5)).
  { intros f Hf. destruct f as [|f]; [lia|].
    replace (i + 5) with (i + 1 + 1 + 1 + 1 + 1) by lia.
    apply (level_fold pc l2 f _ _ _ (i + 1 + 1 + 1) o2); [|tok|done|].
    - apply (operand_atom pc l2 f _ _ b o2); [lia|tok|done|tok|].
      by apply level_op_stops.
    - apply (operand_atom pc l2 f _ _ c e); [lia|tok|done|tok|].
      by apply ends_expression_stops. }
  apply (expression_of_level pc l1 fuel (5 + level_rank l1) i m a _ _ e);
    [|done|done|tok|by apply atom_not_return|tok|intros; apply He].
  replace (5 + level_rank l1) with (S (4 + level_rank l1)) by lia.
  apply (level_fold pc l1 _ i false _ (i + 1) o1); [|tok|done|].
  - apply (operand_atom pc l1 _ _ _ a o1); [lia|tok|done|tok|].
    by apply level_op_stops.
  - rewrite Heq. apply Hl2. lia.
Qed.

(** Two operators of neighbouring levels, the tighter one first:
    [a o2 b o1 c] is [(a o2 b) o1 c]. *)
Lemma nest_left l1 l2 fuel i m a o2 b o1 c e :
  level_operand l1 = level_parser l2 -> level_rank l1 = S (level_rank l2) ->
  14 <= fuel ->
  tokens_from pc i [a; o2; b; o1; c; e] ->
  is_atom a -> level_op l2 o2 <> BinOpTypeInvalid -> is_atom b ->
  level_op l1 o1 <> BinOpTypeInvalid -> is_atom c -> ends_expression e ->
  ast_parse_expression pc fuel i m =
    Ok (Some (NodeTypeBinOpExpr (pos_of_token o1)
                (NodeTypeBinOpExpr (pos_of_token o2) (atom_node pc a)
                   (level_op l2 o2) (atom_node pc b))
                (level_op l1 o1) (atom_node pc c)), i + 5).
Proof.
  intros Heq Hrank Hfuel Htoks Ha Ho2 Hb Ho1 Hc He.
  assert (Hl2 : forall f, 5 + level_rank l2 <= f ->
    level_parser l2 pc f i false =
      Ok (Some (NodeTypeBinOpExpr (pos_of_token o2) (atom_node pc a)
                  (level_op l2 o2) (atom_node pc b)), i + 1 + 1 + 1)).
  { intros f Hf. destruct f as [|f]; [lia|].
    apply (level_fold pc l2 f _ _ _ (i + 1) o2); [|tok|done|].
    - apply (operand_atom pc l2 f _ _ a o2); [lia|tok|done|tok|].
      by apply level_op_stops.
    - apply (operand_atom pc l2 f _ _ b o1); [lia|tok|done|tok|].
      apply (looser_op_stops l2 l1); [done|lia]. }
  apply (expression_of_level pc l1 fuel (5 + level_rank l1) i m a _ _ e);
    [|done|done|tok|by apply atom_not_return|tok|intros; apply He].
  replace (5 + level_rank l1) with (S (4 + level_rank l1)) by lia.
  replace (i + 5) with (i + 1 + 1 + 1 + 1 + 1) by lia.
  apply (level_fold pc l1 _ i false _ (i + 1 + 1 + 1) o1); [|tok|done|].
  - rewrite Heq. apply Hl2. lia.
  - apply (operand_atom pc l1 _ _ _ c e); [lia|tok|done|tok|].
    by apply ends_expression_stops.
Qed.

(** A cast binds tighter than a multiplication: [a as T * b]. *)
Lemma cast_then_mult fuel i m a k T s b e :
  14 <= fuel ->
  tokens_from pc i [a; k; T; s; b; e] ->
  is_atom a -> id k = TokenIdKeywordAs -> id T = TokenIdSymbol ->
  id s = TokenIdStar -> is_atom b -> ends_expression e ->
  ast_parse_expression pc fuel i m =
    Ok (Some (NodeTypeBinOpExpr (pos_of_token s)
                (NodeTypeCastExpr (pos_of_token k) (atom_node pc a)
                   (NodeTypeTypePrimitive (pos_of_token T)
                      (ast_buf_from_token pc T)))
                BinOpTypeMult (atom_node pc b)), i + 5).
Proof.
  intros Hfuel Htoks Ha Hk HT Hs Hb He.
  assert (Hmult : level_op LevelMult s = BinOpTypeMult).
  { simpl. unfold tok_to_mult_op. by rewrite Hs. }
  rewrite <- Hmult.
  apply (expression_of_level pc LevelMult fuel 5 i m a _ _ e);
    [|done|done|tok|by apply atom_not_return|tok|intros; apply He].
  replace (i + 5) with (i + 1 + 1 + 1 + 1 + 1) by lia.
  apply (level_fold pc LevelMult 4 i false _ (i + 1 + 1 + 1) s);
    [|tok|by rewrite Hmult|].
  - apply (cast_fold pc 3 i false _ (i + 1) k); [|tok|done|].
    + assert (Hta : tokens pc !! i = Some a) by tok.
      rewrite (prefix_pass pc _ _ _ _ Hta (atom_not_prefix _ Ha)).
      apply (fn_call_pass pc 1 i false _ _ k); [|tok|congruence].
      by apply primary_atom.
    + apply type_symbol; [tok|done].
  - apply (operand_atom pc LevelMult 4 _ _ b e); [simpl; lia|tok|done|tok|].
    by apply ends_expression_stops.
Qed.

(** A prefix operator binds tighter than an addition: [!a + b]. *)
Lemma not_then_add fuel i m n a p b e :
  14 <= fuel ->
  tokens_from pc i [n; a; p; b; e] ->
  id n = TokenIdBang -> is_atom a -> id p = TokenIdPlus -> is_atom b ->
  ends_expression e ->
  ast_parse_expression pc fuel i m =
    Ok (Some (NodeTypeBinOpExpr (pos_of_token p)
                (NodeTypePrefixOpExpr (pos_of_token n) PrefixOpBoolNot
                   (atom_node pc a))
                BinOpTypeAdd (atom_node pc b)), i + 4).
Proof.
  intros Hfuel Htoks Hn Ha Hp Hb He.
  assert (Hadd : level_op LevelAdd p = BinOpTypeAdd).
  { simpl. unfold tok_to_add_op. by rewrite Hp. }
  assert (Hnot : tok_to_prefix_op n = PrefixOpBoolNot).
  { unfold tok_to_prefix_op. by rewrite Hn. }
  rewrite <- Hadd, <- Hnot.
  apply (expression_of_level pc LevelAdd fuel 6 i m n _ _ e);
    [|done|done|tok|congruence|tok|intros; apply He].
  replace (i + 4) with (i + 1 + 1 + 1 + 1) by lia.
  apply (level_fold pc LevelAdd 5 i false _ (i + 1 + 1) p);
    [|tok|by rewrite Hadd|].
  - apply (level_pass pc LevelMult 4 i false _ _ p);
      [|tok|simpl; unfold tok_to_mult_op; by rewrite Hp].
    apply (cast_pass pc 3 i false _ _ p); [|tok|congruence].
    apply prefix_fold; [tok|congruence|].
    apply (fn_call_pass pc 1 (i + 1) true _ _ p); [|tok|congruence].
    apply primary_atom; [tok|done].
  - apply (operand_atom pc LevelAdd 5 _ _ b e); [simpl; lia|tok|done|tok|].
    by apply ends_expression_stops.
Qed.

(** C4: the precedence ladder. With [a], [b], [c] symbols or numbers and
    [T] a type name, each followed by a token that continues no expression:
    [a + b * c] is [a + (b * c)]; [a * b + c] is [(a * b) + c];
    [a as T * b] is [(a as T) * b]; [!a + b] is [(!a) + b];
    [a && b || c] is [(a && b) || c]; and [a cmp b | c] is [a cmp (b | c)]
    for each of the six comparison operators [==], [!=], [<], [>], [<=],
    [>=], with the operator of the node the one of the token. *)
Theorem precedence_ladder fuel i m :
  14 <= fuel ->
  (forall a p b s c e,
     tokens_from pc i [a; p; b; s; c; e] ->
     is_atom a -> id p = TokenIdPlus -> is_atom b -> id s = TokenIdStar ->
     is_atom c -> ends_expression e ->
     ast_parse_expression pc fuel i m =
       Ok (Some (NodeTypeBinOpExpr (pos_of_token p) (atom_node pc a)
                   BinOpTypeAdd
                   (NodeTypeBinOpExpr (pos_of_token s) (atom_node pc b)
                      BinOpTypeMult (atom_node pc c))), i + 5)) /\
  (forall a s b p c e,
     tokens_from pc i [a; s; b; p; c; e] ->
     is_atom a -> id s = TokenIdStar -> is_atom b -> id p = TokenIdPlus ->
     is_atom c -> ends_expression e ->
     ast_parse_expression pc fuel i m =
       Ok (Some (NodeTypeBinOpExpr (pos_of_token p)
                   (NodeTypeBinOpExpr (pos_of_token s) (atom_node pc a)
                      BinOpTypeMult (atom_node pc b))
                   BinOpTypeAdd (atom_node pc c)), i + 5)) /\
  (forall a k T s b e,
     tokens_from pc i [a; k; T; s; b; e] ->
     is_atom a -> id k = TokenIdKeywordAs -> id T = TokenIdSymbol ->
     id s = TokenIdStar -> is_atom b -> ends_expression e ->
     ast_parse_expression pc fuel i m =
       Ok (Some (NodeTypeBinOpExpr (pos_of_token s)
                   (NodeTypeCastExpr (pos_of_token k) (atom_node pc a)
                      (NodeTypeTypePrimitive (pos_of_token T)
                         (ast_buf_from_token pc T)))
                   BinOpTypeMult (atom_node pc b)), i + 5)) /\
  (forall n a p b e,
     tokens_from pc i [n; a; p; b; e] ->
     id n = TokenIdBang -> is_atom a -> id p = TokenIdPlus -> is_atom b ->
     ends_expression e ->
     ast_parse_expression pc fuel i m =
       Ok (Some (NodeTypeBinOpExpr (pos_of_token p)
                   (NodeTypePrefixOpExpr (pos_of_token n) PrefixOpBoolNot
                      (atom_node pc a))
                   BinOpTypeAdd (atom_node pc b)), i + 4)) /\
  (forall a x b y c e,
     tokens_from pc i [a; x; b; y; c; e] ->
     is_atom a -> id x = TokenIdBoolAnd -> is_atom b ->
     id y = TokenIdBoolOr -> is_atom c -> ends_expression e ->
     ast_parse_expression pc fuel i m =
       Ok (Some (NodeTypeBinOpExpr (pos_of_token y)
                   (NodeTypeBinOpExpr (pos_of_token x) (atom_node pc a)
                      BinOpTypeBoolAnd (atom_node pc b))
                   BinOpTypeBoolOr (atom_node pc c)), i + 5)) /\
  (forall a x b y c e cmp,
     tokens_from pc i [a; x; b; y; c; e] ->
     is_atom a ->
     (id x = TokenIdCmpEq /\ cmp = BinOpTypeCmpEq \/
      id x = TokenIdCmpNotEq /\ cmp = BinOpTypeCmpNotEq \/
      id x = TokenIdCmpLessThan /\ cmp = BinOpTypeCmpLessThan \/
      id x = TokenIdCmpGreaterThan /\ cmp = BinOpTypeCmpGreaterThan \/
      id x = TokenIdCmpLessOrEq /\ cmp = BinOpTypeCmpLessOrEq \/
      id x = TokenIdCmpGreaterOrEq /\ cmp = BinOpTypeCmpGreaterOrEq) ->
     is_atom b -> id y = TokenIdBinOr -> is_atom c -> ends_expression e ->
     ast_parse_expression pc fuel i m =
       Ok (Some (NodeTypeBinOpExpr (pos_of_token x) (atom_node pc a) cmp
                   (NodeTypeBinOpExpr (pos_of_token y) (atom_node pc b)
                      BinOpTypeBinOr (atom_node pc c))), i + 5)).
Proof.
  intros Hfuel. split; [|split; [|split; [|split; [|split]]]].
  - intros a p b s c e Htoks Ha Hp Hb Hs Hc He.
    assert (Hadd : level_op LevelAdd p = BinOpTypeAdd)
      by (simpl; unfold tok_to_add_op; by rewrite Hp).
    assert (Hmult : level_op LevelMult s = BinOpTypeMult)
      by (simpl; unfold tok_to_mult_op; by rewrite Hs).
    rewrite <- Hadd, <- Hmult.
    apply (nest_right LevelAdd LevelMult fuel i m a p b s c e);
      try done; congruence.
  - intros a s b p c e Htoks Ha Hs Hb Hp Hc He.
    assert (Hadd : level_op LevelAdd p = BinOpTypeAdd)
      by (simpl; unfold tok_to_add_op; by rewrite Hp).
    assert (Hmult : level_op LevelMult s = BinOpTypeMult)
      by (simpl; unfold tok_to_mult_op; by rewrite Hs).
    rewrite <- Hadd, <- Hmult.
    apply (nest_left LevelAdd LevelMult fuel i m a s b p c e);
      try done; congruence.
  - intros a k T s b e **. by apply (cast_then_mult fuel i m a k T s b e).
  - intros n a p b e **. by apply (not_then_add fuel i m n a p b e).
  - intros a x b y c e Htoks Ha Hx Hb Hy Hc He.
    assert (Hand : level_op LevelBoolAnd x = BinOpTypeBoolAnd)
      by (simpl; by destruct (decide (id x = TokenIdBoolAnd))).
    assert (Hor : level_op LevelBoolOr y = BinOpTypeBoolOr)
      by (simpl; by destruct (decide (id y = TokenIdBoolOr))).
    rewrite <- Hand, <- Hor.
    apply (nest_left LevelBoolOr LevelBoolAnd fuel i m a x b y c e);
      try done; congruence.
  - intros a x b y c e cmp Htoks Ha Hx Hb Hy Hc He.
    assert (Hcmp : level_op LevelComparison x = cmp).
    { simpl. unfold tok_to_cmp_op.
      destruct Hx as [[-> ->]|[[-> ->]|[[-> ->]|[[-> ->]|[[-> ->]|[-> ->]]]]]];
        reflexivity. }
    assert (Hvalid : cmp <> BinOpTypeInvalid)
      by (destruct Hx as [[_ ->]|[[_ ->]|[[_ ->]|[[_ ->]|[[_ ->]|[_ ->]]]]]];
          done).
    assert (Hor : level_op LevelBinOr y = BinOpTypeBinOr)
      by (simpl; by destruct (decide (id y = TokenIdBinOr))).
    rewrite <- Hor, <- Hcmp.
    apply (nest_right LevelComparison LevelBinOr fuel i m a x b y c e);
      try done; congruence.
Qed.

End Precedence.


(** ** Chains and scenario S6 on the code *)

(** The statement [a + b + c;] is not parsed: the additive level returns the
    tree of [a + b], of depth 1 and not 2, with the cursor on the second
    [+], and the parse exits there. *)
Lemma chain_of_three_is_rejected :
  ast_parse_add_expr pc_chain (parse_fuel pc_chain) 5 true =
    Ok (Some (NodeTypeBinOpExpr {| line := 1; column := 12 |}
                (NodeTypeSymbol {| line := 1; column := 10 |} "a")
                BinOpTypeAdd
                (NodeTypeSymbol {| line := 1; column := 14 |} "b")), 8) /\
  ast_parse pc_chain =
    Exit {| line_start := 1; column_start := 16; line_end := -1;
            column_end := -1; msg := "invalid token: '+'" |} /\
  ~ exists root store, ast_parse pc_chain = Ok (root, store).
Proof.
  split; [vm_compute; reflexivity|]. split; [vm_compute; reflexivity|].
  intros (root & store & H). vm_compute in H. discriminate H.
Qed.

(** The input of scenario S6 is not parsed. *)
Lemma s6_is_not_parsed :
  ~ exists root store, ast_parse pc_s6 = Ok (root, store).
Proof. intros (root & store & H). vm_compute in H. discriminate H. Qed.

(** C3, as the code has it: parsing [fn f() { 1 + 2 * 3 - 4; }] exits with
    [invalid token: '-'] at the [-]. The expression of the statement is
    [BinOpExpr(+, 1, BinOpExpr( *, 2, 3))], which ends before the [-]; the
    statement then needs a [;]. *)
Theorem s6_exits_at_minus :
  ast_parse pc_s6 =
    Exit {| line_start := 1; column_start := 20; line_end := -1;
            column_end := -1; msg := "invalid token: '-'" |} /\
  ast_parse_expression pc_s6 (parse_fuel pc_s6) 5 true =
    Ok (Some (NodeTypeBinOpExpr {| line := 1; column := 12 |}
                (NodeTypeNumberLiteral {| line := 1; column := 10 |} "1")
                BinOpTypeAdd
                (NodeTypeBinOpExpr {| line := 1; column := 16 |}
                   (NodeTypeNumberLiteral {| line := 1; column := 14 |} "2")
                   BinOpTypeMult
                   (NodeTypeNumberLiteral {| line := 1; column := 18 |} "3"))),
        10) /\
  tokens pc_s6 !! 10 = Some (mkToken TokenIdDash 19 20 1 20).
Proof. repeat split; vm_compute; reflexivity. Qed.

(** In [a + b as u8] the node of the addition has the line and column of
    the [+] and the node of the cast those of the [as], not those of the
    first token of their left operands. *)
Lemma operator_position_counterexample :
  exists a plus b as_kw binop cast,
    tokens pc_positions !! 5 = Some a /\
    tokens pc_positions !! 6 = Some plus /\
    tokens pc_positions !! 7 = Some b /\
    tokens pc_positions !! 8 = Some as_kw /\
    ast_parse_expression pc_positions (parse_fuel pc_positions) 5 true =
      Ok (Some binop, 10) /\
    binop = NodeTypeBinOpExpr (pos_of_token plus)
              (NodeTypeSymbol (pos_of_token a) "a") BinOpTypeAdd cast /\
    cast = NodeTypeCastExpr (pos_of_token as_kw)
             (NodeTypeSymbol (pos_of_token b) "b")
             (NodeTypeTypePrimitive {| line := 1; column := 19 |} "u8") /\
    node_pos binop <> pos_of_token a /\
    node_pos cast <> pos_of_token b.
Proof.
  do 6 eexists.
  repeat split; try (vm_compute; reflexivity); vm_compute; discriminate.
Qed.

(** The message of [ast_invalid_token_error] does not always hold the lexeme
    of the token: the lexeme is passed to [%s] as a C string, which ends at
    its first NUL byte. For the string literal of the five bytes quote, [a],
    NUL, [b], quote at the top level, the loop of the top level ends with
    the cursor on the literal, and the diagnostic is the 19 bytes
    [invalid token: '] quote [a'], not the 22 bytes with the whole lexeme. *)
Lemma nul_in_lexeme_counterexample :
  exists token e st,
    tokens pc_nul !! 0 = Some token /\
    ast_parse_top_level_decls pc_nul (parse_fuel pc_nul) 0 initial_state [] =
      Ok ([], 0, st) /\
    ast_parse_root pc_nul (parse_fuel pc_nul) 0 initial_state = Exit e /\
    ast_parse pc_nul = Exit e /\
    msg e = "invalid token: '" +:+ String "034" "a'" /\
    String.length (msg e) = 19 /\
    String.length
      ("invalid token: '" +:+ ast_buf_from_token pc_nul token +:+ "'") = 22 /\
    msg e <> "invalid token: '" +:+ ast_buf_from_token pc_nul token +:+ "'".
Proof.
  eexists _, _, _. repeat split; try (vm_compute; reflexivity).
  vm_compute. discriminate.
Qed.

(** ** The positions of the nodes *)

Section PositionsSound.

Variable pc : ParseContext.

Lemma ast_parse_type_at f i node j :
  ast_parse_type pc f i = Ok (node, j) -> type_at pc i node j.
Proof.
  revert i node j. induction f as [|f IH]; intros i node j H; [done|].
  simpl in H. inv_ok; subst.
  - by apply type_at_unreachable.
  - by apply type_at_symbol.
  - eapply type_at_pointer; eauto.
  - eapply type_at_pointer; eauto.
Qed.

(** A parser that returns [nullptr] was called with [mandatory = false] and
    has not moved the cursor. *)
Lemma expression_parsers_null f :
  (forall i m j, ast_parse_grouped_expr pc f i m = Ok (None, j) -> j = i /\ m = false) /\
  (forall i m j, ast_parse_primary_expr pc f i m = Ok (None, j) -> j = i /\ m = false) /\
  (forall i m j, ast_parse_fn_call_expr pc f i m = Ok (None, j) -> j = i /\ m = false) /\
  (forall i m j, ast_parse_prefix_op_expr pc f i m = Ok (None, j) -> j = i /\ m = false) /\
  (forall i m j, ast_parse_cast_expression pc f i m = Ok (None, j) -> j = i /\ m = false) /\
  (forall i m j, ast_parse_mult_expr pc f i m = Ok (None, j) -> j = i /\ m = false) /\
  (forall i m j, ast_parse_add_expr pc f i m = Ok (None, j) -> j = i /\ m = false) /\
  (forall i m j, ast_parse_bit_shift_expr pc f i m = Ok (None, j) -> j = i /\ m = false) /\
  (forall i m j, ast_parse_bin_and_expr pc f i m = Ok (None, j) -> j = i /\ m = false) /\
  (forall i m j, ast_parse_bin_xor_expr pc f i m = Ok (None, j) -> j = i /\ m = false) /\
  (forall i m j, ast_parse_bin_or_expr pc f i m = Ok (None, j) -> j = i /\ m = false) /\
  (forall i m j, ast_parse_comparison_expr pc f i m = Ok (None, j) -> j = i /\ m = false) /\
  (forall i m j, ast_parse_bool_and_expr pc f i m = Ok (None, j) -> j = i /\ m = false) /\
  (forall i m j, ast_parse_return_expr pc f i m = Ok (None, j) -> j = i /\ m = false) /\
  (forall i m j, ast_parse_bool_or_expr pc f i m = Ok (None, j) -> j = i /\ m = false) /\
  (forall i m j, ast_parse_expression pc f i m = Ok (None, j) -> j = i /\ m = false) /\
  (forall i m j, ast_parse_block pc f i m = Ok (None, j) -> j = i /\ m = false).
Proof.
  induction f as [|f IH]; [by repeat split|].
  destruct IH as (IH1 & IH2 & IH3 & IH4 & IH5 & IH6 & IH7 & IH8 & IH9 & IH10 & IH11 & IH12 & IH13 & IH14 & IH15 & IH16 & IH17).
  repeat match goal with |- _ /\ _ => split end;
    intros i m j H; simpl in H;
    unfold ast_parse_prefix_op, ast_parse_mult_op, ast_parse_add_op,
      ast_parse_bit_shift_op, ast_parse_comparison_operator,
      ast_parse_bin_op in H;
    inv_ok; subst; eauto;
    repeat match goal with
    | IH : forall i m j, ?p pc f i m = Ok (None, j) -> _,
      H : ?p pc f _ _ = Ok (None, _) |- _ => apply IH in H as [? ?]; subst
    end; try done; destruct m; simpl in *; inv_ok; done.
Qed.

(** The scheme of a binary level keeps the relation. *)
Lemma single_shot_at l operand i m node j :
  (forall i m node j, operand i m = Ok (Some node, j) -> expr_at pc i node j) ->
  single_shot pc operand (level_op l) i m = Ok (Some node, j) ->
  expr_at pc i node j.
Proof.
  intros Hop H. unfold single_shot in H. inv_ok; subst.
  - eauto.
  - eapply expr_at_bin_op; eauto.
Qed.

(** Use the facts on [nullptr] results that are at hand. *)
Ltac use_null :=
  repeat match goal with
  | N : forall i m j, ?p _ ?f i m = Ok (None, j) -> _,
    H : ?p _ ?f _ _ = Ok (None, _) |- _ => apply N in H as [? ?]; subst
  end.

Lemma expression_parsers_at f :
  (forall i acc params j,
     ast_parse_fn_call_param_list_loop pc f i acc = Ok (params, j) ->
     exists new, params = acc ++ new /\ args_loop_at pc i new j) /\
  (forall i params j,
     ast_parse_fn_call_param_list pc f i = Ok (params, j) -> args_at pc i params j) /\
  (forall i m node j,
     ast_parse_grouped_expr pc f i m = Ok (Some node, j) -> expr_at pc i node j) /\
  (forall i m node j,
     ast_parse_primary_expr pc f i m = Ok (Some node, j) -> expr_at pc i node j) /\
  (forall i m node j,
     ast_parse_fn_call_expr pc f i m = Ok (Some node, j) -> expr_at pc i node j) /\
  (forall i m node j,
     ast_parse_prefix_op_expr pc f i m = Ok (Some node, j) -> expr_at pc i node j) /\
  (forall i m node j,
     ast_parse_cast_expression pc f i m = Ok (Some node, j) -> expr_at pc i node j) /\
  (forall i m node j,
     ast_parse_mult_expr pc f i m = Ok (Some node, j) -> expr_at pc i node j) /\
  (forall i m node j,
     ast_parse_add_expr pc f i m = Ok (Some node, j) -> expr_at pc i node j) /\
  (forall i m node j,
     ast_parse_bit_shift_expr pc f i m = Ok (Some node, j) -> expr_at pc i node j) /\
  (forall i m node j,
     ast_parse_bin_and_expr pc f i m = Ok (Some node, j) -> expr_at pc i node j) /\
  (forall i m node j,
     ast_parse_bin_xor_expr pc f i m = Ok (Some node, j) -> expr_at pc i node j) /\
  (forall i m node j,
     ast_parse_bin_or_expr pc f i m = Ok (Some node, j) -> expr_at pc i node j) /\
  (forall i m node j,
     ast_parse_comparison_expr pc f i m = Ok (Some node, j) -> expr_at pc i node j) /\
  (forall i m node j,
     ast_parse_bool_and_expr pc f i m = Ok (Some node, j) -> expr_at pc i node j) /\
  (forall i m node j,
     ast_parse_return_expr pc f i m = Ok (Some node, j) -> expr_at pc i node j) /\
  (forall i m node j,
     ast_parse_bool_or_expr pc f i m = Ok (Some node, j) -> expr_at pc i node j) /\
  (forall i m node j,
     ast_parse_expression pc f i m = Ok (Some node, j) -> expr_at pc i node j) /\
  (forall i node j,
     ast_parse_expression_statement pc f i = Ok (node, j) -> stmt_at pc i node j) /\
  (forall i node j,
     ast_parse_statement pc f i = Ok (node, j) -> stmt_at pc i node j) /\
  (forall i acc statements j,
     ast_parse_block_loop pc f i acc = Ok (statements, j) ->
     exists new, statements = acc ++ new /\ stmts_at pc i new j) /\
  (forall i m node j,
     ast_parse_block pc f i m = Ok (Some node, j) -> expr_at pc i node j).
Proof.
  induction f as [|f IH]; [by repeat split|].
  destruct IH as (IH1 & IH2 & IH3 & IH4 & IH5 & IH6 & IH7 & IH8 & IH9 & IH10 & IH11 & IH12 & IH13 & IH14 & IH15 & IH16 & IH17 & IH18 & IH19 & IH20 & IH21 & IH22).
  pose proof (expression_parsers_null f) as
    (N1 & N2 & N3 & N4 & N5 & N6 & N7 & N8 & N9 & N10 & N11 & N12 & N13 &
     N14 & N15 & N16 & N17).
  split; [|split; [|split; [|split; [|split; [|split; [|split]]]]]].
  - (* ast_parse_fn_call_param_list_loop *)
    intros i acc params j H. simpl in H. inv_ok; subst.
    + eexists. split; [reflexivity|]. eapply args_loop_at_last; eauto.
    + apply IH1 in H as (new & -> & Hnew). rewrite <- app_assoc.
      eexists. split; [reflexivity|]. simpl.
      eapply args_loop_at_more; eauto.
  - (* ast_parse_fn_call_param_list *)
    intros i params j H. simpl in H. inv_ok; subst.
    + eapply args_at_none; eauto.
    + apply IH1 in H as (new & -> & Hnew). eapply args_at_some; eauto.
  - (* ast_parse_grouped_expr *)
    intros i m node j H. simpl in H. inv_ok; subst.
    eapply expr_at_grouped; eauto. by apply dec_stable.
  - (* ast_parse_primary_expr *)
    intros i m node j H. simpl in H. inv_ok; use_null; subst; eauto.
    + by apply expr_at_number.
    + by apply expr_at_string.
    + by apply expr_at_unreachable.
    + by apply expr_at_symbol.
  - (* ast_parse_fn_call_expr *)
    intros i m node j H. simpl in H. inv_ok; subst; eauto.
    eapply expr_at_fn_call; eauto.
  - (* ast_parse_prefix_op_expr *)
    intros i m node j H. simpl in H. unfold ast_parse_prefix_op in H.
    inv_ok; simplify_eq; eauto.
    apply expr_at_prefix_op; eauto.
  - (* ast_parse_cast_expression *)
    intros i m node j H. simpl in H. inv_ok; subst; eauto.
    eapply expr_at_cast; eauto using ast_parse_type_at. by apply dec_stable.
  - (* the binary levels, ast_parse_return_expr, and the rest *)
    repeat match goal with |- _ /\ _ => split end.
    + intros i m node j H.
      change (level_parser LevelMult pc (S f) i m = Ok (Some node, j)) in H.
      rewrite level_parser_single_shot in H.
      eapply single_shot_at; [|exact H]. eauto.
    + intros i m node j H.
      change (level_parser LevelAdd pc (S f) i m = Ok (Some node, j)) in H.
      rewrite level_parser_single_shot in H.
      eapply single_shot_at; [|exact H]. eauto.
    + intros i m node j H.
      change (level_parser LevelBitShift pc (S f) i m = Ok (Some node, j)) in H.
      rewrite level_parser_single_shot in H.
      eapply single_shot_at; [|exact H]. eauto.
    + intros i m node j H.
      change (level_parser LevelBinAnd pc (S f) i m = Ok (Some node, j)) in H.
      rewrite level_parser_single_shot in H.
      eapply single_shot_at; [|exact H]. eauto.
    + intros i m node j H.
      change (level_parser LevelBinXor pc (S f) i m = Ok (Some node, j)) in H.
      rewrite level_parser_single_shot in H.
      eapply single_shot_at; [|exact H]. eauto.
    + intros i m node j H.
      change (level_parser LevelBinOr pc (S f) i m = Ok (Some node, j)) in H.
      rewrite level_parser_single_shot in H.
      eapply single_shot_at; [|exact H]. eauto.
    + intros i m node j H.
      change (level_parser LevelComparison pc (S f) i m = Ok (Some node, j)) in H.
      rewrite level_parser_single_shot in H.
      eapply single_shot_at; [|exact H]. eauto.
    + intros i m node j H.
      change (level_parser LevelBoolAnd pc (S f) i m = Ok (Some node, j)) in H.
      rewrite level_parser_single_shot in H.
      eapply single_shot_at; [|exact H]. eauto.
    + (* ast_parse_return_expr *)
      intros i m node j H. simpl in H. inv_ok; subst.
      destruct o as [expr|].
      * apply expr_at_return_expr; eauto.
      * use_null. by apply expr_at_return.
    + intros i m node j H.
      change (level_parser LevelBoolOr pc (S f) i m = Ok (Some node, j)) in H.
      rewrite level_parser_single_shot in H.
      eapply single_shot_at; [|exact H]. eauto.
    + (* ast_parse_expression *)
      intros i m node j H. simpl in H. inv_ok; use_null; subst; eauto.
    + (* ast_parse_expression_statement *)
      intros i node j H. simpl in H. inv_ok; subst.
      unfold stmt_at. eauto 10.
    + (* ast_parse_statement *)
      intros i node j H. simpl in H. eauto.
    + (* ast_parse_block_loop *)
      intros i acc statements j H. simpl in H. inv_ok; subst.
      * exists []. rewrite app_nil_r. split; [done|].
        eapply stmts_at_end; eauto.
      * unfold stmt_at in IH20.
        match goal with
        | H : ast_parse_statement _ _ _ = _ |- _ =>
            apply IH20 in H as (j' & semicolon & Hexpr & Hsemi & Hid & ->)
        end.
        apply IH21 in H as (new & -> & Hnew). rewrite <- app_assoc.
        eexists. split; [reflexivity|]. simpl.
        eapply stmts_at_statement; eauto.
    + (* ast_parse_block *)
      intros i m node j H. simpl in H. inv_ok; subst.
      match goal with
      | H : ast_parse_block_loop _ _ _ _ = _ |- _ =>
          apply IH21 in H as (new & -> & Hnew)
      end.
      eapply expr_at_block; eauto. by apply dec_stable.
Qed.

End PositionsSound.

(** ** The positions of declarations and their directives *)

Section DeclarationsSound.

Variable pc : ParseContext.

Lemma ast_parse_param_decl_at f i node j :
  ast_parse_param_decl pc f i = Ok (node, j) -> param_at pc i node j.
Proof.
  unfold ast_parse_param_decl. intros H. inv_ok; subst.
  eapply param_at_intro; eauto using ast_parse_type_at.
Qed.

Lemma ast_parse_param_decl_list_loop_at f i acc params j :
  ast_parse_param_decl_list_loop pc f i acc = Ok (params, j) ->
  exists new, params = acc ++ new /\ params_loop_at pc i new j.
Proof.
  revert i acc. induction f as [|f IH]; intros i acc H; [done|].
  simpl in H. inv_ok; subst.
  - eexists. split; [reflexivity|].
    eapply params_loop_at_last; eauto using ast_parse_param_decl_at.
  - apply IH in H as (new & -> & Hnew). rewrite <- app_assoc.
    eexists. split; [reflexivity|]. simpl.
    eapply params_loop_at_more; eauto using ast_parse_param_decl_at.
Qed.

Lemma ast_parse_param_decl_list_at f i params j :
  ast_parse_param_decl_list pc f i = Ok (params, j) ->
  params_at pc i params j.
Proof.
  unfold ast_parse_param_decl_list. intros H. inv_ok; subst.
  - eapply params_at_none; eauto.
  - apply ast_parse_param_decl_list_loop_at in H as (new & -> & Hnew).
    eapply params_at_some; eauto.
Qed.

Lemma ast_parse_directive_at i node j :
  ast_parse_directive pc i = Ok (node, j) -> directive_at pc i node j.
Proof.
  unfold ast_parse_directive. intros H. inv_ok; subst.
  eapply directive_at_intro; eauto.
Qed.

(** The loop appends the directives it parses to the list at [p] and
    touches nothing else. *)
Lemma ast_parse_directives_at f i p ls j ls' :
  ast_parse_directives pc f i p ls = Ok (j, ls') ->
  exists ds, directives_at pc i ds j /\ ls' = alter (fun l => l ++ ds) p ls.
Proof.
  revert i ls. induction f as [|f IH]; intros i ls H; [done|].
  simpl in H. inv_ok; subst.
  - apply IH in H as (ds & Hds & ->).
    eexists (_ :: ds). split.
    + eapply directives_at_directive; eauto using ast_parse_directive_at.
    + unfold list_append. rewrite list_alter_alter_eq.
      apply list_alter_ext; [|done]. intros l _. simpl.
      by rewrite <- app_assoc.
  - exists []. split; [by eapply directives_at_end|].
    symmetry. apply list_alter_id. intros l. by rewrite app_nil_r.
Qed.

(** Collecting starts with no pending list, puts the directives it parses
    in a new list at the end of the store, and leaves that list pending. *)
Lemma collect_directives_at f i st j st1 :
  collect_directives pc f i st = Ok (j, st1) ->
  directive_list st = None /\
  exists ds,
    directives_at pc i ds j /\
    st1 = {| directive_list := Some (length (lists st));
             lists := lists st ++ [ds] |}.
Proof.
  unfold collect_directives. intros H.
  destruct (directive_list st); [done|]. split; [done|].
  simpl in H. inv_ok; subst.
  match goal with
  | H : ast_parse_directives _ _ _ _ _ = _ |- _ =>
      apply ast_parse_directives_at in H as (ds & Hds & ->)
  end.
  exists ds. split; [done|]. f_equal.
  rewrite alter_app_r_alt by lia. by rewrite Nat.sub_diag.
Qed.

Lemma ast_parse_fn_proto_visib_at t i m visib_mod j :
  tokens pc !! i = Some t ->
  ast_parse_fn_proto_visib pc t i m = Ok (Some visib_mod, j) ->
  visib_at pc i visib_mod j.
Proof.
  unfold ast_parse_fn_proto_visib. intros Ht H. inv_ok; subst.
  - eapply visib_at_pub; eauto.
  - eapply visib_at_export; eauto.
  - eapply visib_at_private; eauto.
Qed.

Lemma ast_parse_fn_proto_visib_None t i m j :
  ast_parse_fn_proto_visib pc t i m = Ok (None, j) -> j = i.
Proof.
  unfold ast_parse_fn_proto_visib. intros H. by inv_ok; subst.
Qed.

(** A prototype takes the pending list and clears the slot. *)
Lemma ast_parse_fn_proto_at f i m st node j st' :
  ast_parse_fn_proto pc f i m st = Ok (Some node, j, st') ->
  proto_at pc i node j /\
  node_directives node = directive_list st /\
  st' = clear_directive_list st.
Proof.
  unfold ast_parse_fn_proto. intros H. inv_ok; subst.
  - split; [|done].
    eapply proto_at_intro;
      eauto using ast_parse_fn_proto_visib_at, ast_parse_param_decl_list_at.
    eapply return_type_at_arrow; eauto using ast_parse_type_at.
  - split; [|done].
    eapply proto_at_intro;
      eauto using ast_parse_fn_proto_visib_at, ast_parse_param_decl_list_at.
    by eapply return_type_at_void.
Qed.

Lemma ast_parse_fn_proto_None f i m st j st' :
  ast_parse_fn_proto pc f i m st = Ok (None, j, st') -> j = i /\ st' = st.
Proof.
  unfold ast_parse_fn_proto. intros H. inv_ok; subst.
  split; [|done]. by eapply ast_parse_fn_proto_visib_None.
Qed.

Lemma ast_parse_fn_def_None f i m st j st' :
  ast_parse_fn_def pc f i m st = Ok (None, j, st') -> j = i /\ st' = st.
Proof.
  unfold ast_parse_fn_def. intros H. inv_ok; subst.
  by eapply ast_parse_fn_proto_None.
Qed.

Lemma ast_parse_extern_block_None f i st j st' :
  ast_parse_extern_block pc f i false st = Ok (None, j, st') ->
  j = i /\ st' = st.
Proof. unfold ast_parse_extern_block. intros H. by inv_ok; subst. Qed.

Lemma ast_parse_root_export_decl_None i st j st' :
  ast_parse_root_export_decl pc i false st = Ok (None, j, st') ->
  j = i /\ st' = st.
Proof. unfold ast_parse_root_export_decl. intros H. by inv_ok; subst. Qed.

Lemma ast_parse_use_None' i st j st' :
  ast_parse_use pc i false st = Ok (None, j, st') -> j = i /\ st' = st.
Proof. unfold ast_parse_use. intros H. by inv_ok; subst. Qed.

(** *** The store only grows *)

Lemma attached_app ls more directives ds :
  attached ls directives ds -> attached (ls ++ more) directives ds.
Proof.
  intros (p & -> & Hp). exists p. split; [done|].
  by apply lookup_app_l_Some.
Qed.

Lemma fn_decls_at_app ls more i fn_decls j :
  fn_decls_at pc ls i fn_decls j -> fn_decls_at pc (ls ++ more) i fn_decls j.
Proof.
  induction 1.
  - by eapply fn_decls_at_end.
  - eapply fn_decls_at_decl; eauto using attached_app.
Qed.

Lemma decl_at_app ls more i decl j :
  decl_at pc ls i decl j -> decl_at pc (ls ++ more) i decl j.
Proof.
  destruct 1.
  - eapply decl_at_root_export; eauto using attached_app.
  - eapply decl_at_fn_def; eauto using attached_app.
  - eapply decl_at_extern_block; eauto using attached_app, fn_decls_at_app.
  - eapply decl_at_use; eauto using attached_app.
Qed.

Lemma directives_at_nil i j : directives_at pc i [] j -> j = i.
Proof. by inversion 1. Qed.

Lemma directives_at_cursor i ds j :
  directives_at pc i ds j ->
  exists t, tokens pc !! j = Some t /\ id t <> TokenIdNumberSign.
Proof. induction 1; eauto. Qed.

(** The list the pending slot points to after collecting. *)
Lemma attached_collected ls ds more :
  attached ((ls ++ [ds]) ++ more) (Some (length ls)) ds.
Proof.
  exists (length ls). split; [done|]. apply lookup_app_l_Some.
  rewrite lookup_app_r by lia. by rewrite Nat.sub_diag.
Qed.

Lemma collected_length ls ds :
  list_length (length ls) (ls ++ [ds]) = length ds.
Proof.
  unfold list_length. rewrite lookup_app_r by lia.
  by rewrite Nat.sub_diag.
Qed.

(** *** Lists allocated and attached *)

Lemma attached_since_none ls : attached_since ls (ls ++ [[]]) [].
Proof.
  split; [by eexists|]. split; [constructor|]. split.
  - intros d Hd. by apply elem_of_nil in Hd.
  - intros p l Hp Hl Hne.
    destruct (decide (p = length ls)) as [->|].
    + rewrite lookup_app_r, Nat.sub_diag in Hl by lia. by injection Hl as <-.
    + apply lookup_lt_Some in Hl. rewrite length_app in Hl. simpl in Hl. lia.
Qed.

Lemma attached_since_one ls ds :
  attached_since ls (ls ++ [ds]) [Some (length ls)].
Proof.
  split; [by eexists|]. split; [apply NoDup_singleton|]. split.
  - intros d Hd. apply list_elem_of_singleton in Hd as ->.
    exists (length ls). rewrite length_app. simpl. split; [done|lia].
  - intros p l Hp Hl Hne. apply list_elem_of_singleton.
    apply lookup_lt_Some in Hl. rewrite length_app in Hl. simpl in Hl.
    f_equal. lia.
Qed.

Lemma attached_since_trans ls ls1 ls2 fs1 fs2 :
  attached_since ls ls1 fs1 -> attached_since ls1 ls2 fs2 ->
  attached_since ls ls2 (fs1 ++ fs2).
Proof.
  intros ([m1 ->] & Hnd1 & Hin1 & Hcov1) ([m2 ->] & Hnd2 & Hin2 & Hcov2).
  split; [exists (m1 ++ m2); by rewrite app_assoc|]. split; [|split].
  - apply NoDup_app. split; [done|]. split; [|done].
    intros d Hd1 Hd2.
    apply Hin1 in Hd1 as (p & -> & _ & Hp).
    apply Hin2 in Hd2 as (p' & [= <-] & Hp' & _). lia.
  - intros d Hd. apply elem_of_app in Hd as [Hd|Hd].
    + apply Hin1 in Hd as (p & -> & Hp1 & Hp2). exists p.
      rewrite length_app. split; [done|]. lia.
    + apply Hin2 in Hd as (p & -> & Hp1 & Hp2). exists p.
      rewrite length_app in Hp1. split; [done|]. lia.
  - intros p l Hp Hl Hne. apply elem_of_app.
    destruct (decide (p < length (ls ++ m1))) as [Hlt|Hge].
    + left. apply (Hcov1 p l); [done| |done].
      by rewrite lookup_app_l in Hl.
    + right. apply (Hcov2 p l); [lia|done|done].
Qed.

Lemma attached_since_grows ls ls' fields :
  attached_since ls ls' fields -> exists more, ls' = ls ++ more.
Proof. by intros (H & _). Qed.

(** *** The loops *)

Lemma proto_at_fields i fn_proto j :
  proto_at pc i fn_proto j ->
  directive_fields fn_proto = [node_directives fn_proto].
Proof. by destruct 1. Qed.

Lemma ast_parse_extern_block_loop_at f i st acc fn_decls j st' :
  directive_list st = None ->
  ast_parse_extern_block_loop pc f i st acc = Ok (fn_decls, j, st') ->
  directive_list st' = None /\
  exists new,
    fn_decls = acc ++ new /\
    fn_decls_at pc (lists st') i new j /\
    attached_since (lists st) (lists st')
      (concat (map directive_fields new)).
Proof.
  revert i st acc.
  induction f as [|f IH]; intros i st acc Hst H; [done|].
  simpl in H. apply bind_Ok in H as (directive_token & _ & H).
  apply bind_Ok in H as ([i1 st1] & Hcollect & H).
  apply collect_directives_at in Hcollect as (_ & ds & Hds & ->).
  apply bind_Ok in H as (token & Htoken & H). apply token_at_Ok in Htoken.
  destruct (decide (id token = TokenIdRBrace)) as [Hbrace|Hbrace].
  - unfold directive_list_length in H. simpl in H.
    rewrite collected_length in H.
    destruct (decide (0 < length ds)); [done|]. inv_ok; subst.
    destruct ds; [|simpl in *; lia].
    apply directives_at_nil in Hds as ->.
    split; [done|]. exists []. simpl. rewrite app_nil_r.
    split; [done|]. split; [by eapply fn_decls_at_end|].
    apply attached_since_none.
  - apply bind_Ok in H as ([[child i2] st2] & Hdecl & H).
    unfold ast_parse_fn_decl in Hdecl.
    apply bind_Ok in Hdecl as ([[fn_proto i2'] st2'] & Hproto & Hdecl).
    destruct fn_proto as [fn_proto|]; [|done].
    apply ast_parse_fn_proto_at in Hproto as (Hproto & Hdir & ->).
    inv_ok; subst. simpl in Hdir.
    apply IH in H as (Hnone & new & -> & Hnew & Hsince); [|done].
    simpl in Hsince.
    destruct (attached_since_grows _ _ _ Hsince) as [more Hls].
    split; [done|].
    exists (NodeTypeFnDecl (node_pos fn_proto) fn_proto :: new).
    split; [by rewrite <- app_assoc|]. split.
    + eapply fn_decls_at_decl; eauto.
      rewrite Hdir, Hls. apply attached_collected.
    + simpl. rewrite (proto_at_fields _ _ _ Hproto), Hdir.
      apply (attached_since_trans _ (lists st ++ [ds]) _ [_]); [|done].
      apply attached_since_one.
Qed.

Lemma ast_parse_top_level_decls_at f i st acc decls j st' :
  directive_list st = None ->
  ast_parse_top_level_decls pc f i st acc = Ok (decls, j, st') ->
  directive_list st' = None /\
  exists new,
    decls = acc ++ new /\
    top_decls_at pc (lists st') i new j /\
    attached_since (lists st) (lists st')
      (concat (map directive_fields new)).
Proof.
  revert i st acc.
  induction f as [|f IH]; intros i st acc Hst H; [done|].
  simpl in H. apply bind_Ok in H as (directive_token & _ & H).
  apply bind_Ok in H as ([i1 st1] & Hcollect & H).
  apply collect_directives_at in Hcollect as (_ & ds & Hds & ->).
  (* what the rest of the loop gives once a declaration is there *)
  assert (Hnext : forall node i2 st2,
    ast_parse_top_level_decls pc f i2 st2 (acc ++ [node])
      = Ok (decls, j, st') ->
    directive_list st2 = None ->
    attached_since (lists st) (lists st2) (directive_fields node) ->
    (forall more, decl_at pc (lists st2 ++ more) i node i2) ->
    directive_list st' = None /\
    exists new,
      decls = acc ++ new /\
      top_decls_at pc (lists st') i new j /\
      attached_since (lists st) (lists st')
        (concat (map directive_fields new))).
  { intros node i2 st2 Hloop Hnone2 Hsince2 Hnode.
    apply IH in Hloop as (Hnone & new & -> & Hnew & Hsince); [|done].
    destruct (attached_since_grows _ _ _ Hsince) as [more Hls].
    split; [done|]. exists (node :: new).
    split; [by rewrite <- app_assoc|]. split.
    - eapply top_decls_at_decl; [|done]. rewrite Hls. apply Hnode.
    - simpl. by eapply attached_since_trans. }
  apply bind_Ok in H as ([[node i2] st2] & Hexport & H).
  destruct node as [node|].
  { (* a root export declaration *)
    apply (Hnext node i2 st2 H);
      unfold ast_parse_root_export_decl in Hexport; inv_ok; subst;
      try done.
    - apply attached_since_one.
    - intros more. eapply decl_at_root_export; eauto.
      + apply attached_collected.
      + by apply dec_stable.
      + by apply dec_stable. }
  apply ast_parse_root_export_decl_None in Hexport as [-> ->].
  apply bind_Ok in H as ([[node i2] st2] & Hdef & H).
  destruct node as [node|].
  { (* a function definition *)
    unfold ast_parse_fn_def in Hdef.
    apply bind_Ok in Hdef as ([[fn_proto i2'] st2'] & Hproto & Hdef).
    destruct fn_proto as [fn_proto|]; [|inv_ok].
    apply ast_parse_fn_proto_at in Hproto as (Hproto & Hdir & ->).
    apply bind_Ok in Hdef as ([body i3] & Hbody & Hdef).
    apply non_null_Ok in Hbody. inv_ok; subst. simpl in Hdir.
    eapply (Hnext _ i2 _ H); [done| |].
    - simpl. rewrite (proto_at_fields _ _ _ Hproto), Hdir.
      apply attached_since_one.
    - intros more. eapply decl_at_fn_def; eauto.
      + rewrite Hdir. apply attached_collected.
      + by eapply (expression_parsers_at pc f). }
  apply ast_parse_fn_def_None in Hdef as [-> ->].
  apply bind_Ok in H as ([[node i2] st2] & Hextern & H).
  destruct node as [node|].
  { (* an extern block *)
    unfold ast_parse_extern_block in Hextern. simpl in Hextern.
    apply bind_Ok in Hextern as (extern_kw & Hkw & Hextern).
    apply token_at_Ok in Hkw.
    destruct (decide (id extern_kw <> TokenIdKeywordExtern)); [done|].
    apply bind_Ok in Hextern as (l_brace & Hl & Hextern).
    apply token_at_Ok in Hl.
    apply bind_Ok in Hextern as (u & Hlid & Hextern).
    apply ast_expect_token_Ok in Hlid.
    apply bind_Ok in Hextern as ([[fn_decls i3] st3] & Hloop & Hextern).
    apply ast_parse_extern_block_loop_at in Hloop
      as (Hnone3 & new3 & Hnew3 & Hdecls & Hsince3); [|done].
    simpl in Hnew3, Hsince3. subst fn_decls. inv_ok; subst.
    destruct (attached_since_grows _ _ _ Hsince3) as [more3 Hls3].
    eapply (Hnext _ i2 _ H); [done| |].
    - simpl.
      apply (attached_since_trans _ (lists st ++ [ds]) _ [_]); [|done].
      apply attached_since_one.
    - intros more. eapply decl_at_extern_block; eauto.
      + rewrite Hls3, <- app_assoc. apply attached_collected.
      + by apply dec_stable.
      + by apply fn_decls_at_app. }
  apply ast_parse_extern_block_None in Hextern as [-> ->].
  apply bind_Ok in H as ([[node i2] st2] & Huse & H).
  destruct node as [node|].
  { (* a use declaration *)
    apply (Hnext node i2 st2 H);
      unfold ast_parse_use in Huse; inv_ok; subst; try done.
    - apply attached_since_one.
    - intros more. eapply decl_at_use; eauto.
      + apply attached_collected.
      + by apply dec_stable. }
  apply ast_parse_use_None' in Huse as [-> ->].
  (* no declaration: the loop ends *)
  unfold directive_list_length in H. simpl in H.
  rewrite collected_length in H.
  destruct (decide (0 < length ds)); [done|]. inv_ok; subst.
  destruct ds; [|simpl in *; lia].
  pose proof (directives_at_cursor _ _ _ Hds) as (t & Ht & Hid).
  apply directives_at_nil in Hds as ->.
  split; [done|]. exists []. simpl. rewrite app_nil_r.
  split; [done|]. split; [by eapply top_decls_at_end|].
  apply attached_since_none.
Qed.

(** The tree of a successful parse is placed on the token list from its
    first to its last token, with the store of the final state; the slot of
    the pending list is empty at the end, and the lists of the store are
    those of the declarations of the tree. *)
Lemma ast_parse_root_at f i st root j st' :
  directive_list st = None ->
  ast_parse_root pc f i st = Ok (root, j, st') ->
  root_at pc (lists st') i root j /\
  directive_list st' = None /\
  attached_since (lists st) (lists st') (directive_fields root).
Proof.
  unfold ast_parse_root. intros Hst H.
  apply bind_Ok in H as (first_token & Hfirst & H).
  apply token_at_Ok in Hfirst.
  apply bind_Ok in H as ([[decls i1] st1] & Hloop & H).
  apply ast_parse_top_level_decls_at in Hloop
    as (Hnone & new & Hnew & Hdecls & Hsince); [|done].
  simpl in Hnew. subst decls.
  destruct (decide (i1 <> length (tokens pc) - 1)) as [|Heq]; [inv_ok|].
  apply dec_stable in Heq. inv_ok; subst.
  split; [by eapply root_at_intro|]. done.
Qed.

End DeclarationsSound.

(** ** The position of every node, and the directives of every declaration *)

Section PlacedAndAttached.

Variable pc : ParseContext.

(** Wherever a [BinOpExpr] node sits in a tree, its line and column are
    those of its operator token, which comes after its left operand. *)
Lemma expr_at_bin_op_inv i p op1 bin_op op2 k :
  expr_at pc i (NodeTypeBinOpExpr p op1 bin_op op2) k ->
  exists i' j t l,
    expr_at pc i' op1 j /\ tokens pc !! j = Some t /\
    level_op l t = bin_op /\ bin_op <> BinOpTypeInvalid /\
    p = pos_of_token t.
Proof.
  remember (NodeTypeBinOpExpr p op1 bin_op op2) as node eqn:Hnode.
  induction 1; try discriminate; [by auto|].
  injection Hnode as ? ? ? ?; subst. eauto 10.
Qed.

(** Wherever a [CastExpr] node sits in a tree, its line and column are
    those of its [as] token, which comes after its operand. *)
Lemma expr_at_cast_inv i p prefix_op_expr type k :
  expr_at pc i (NodeTypeCastExpr p prefix_op_expr type) k ->
  exists i' j as_kw,
    expr_at pc i' prefix_op_expr j /\ tokens pc !! j = Some as_kw /\
    id as_kw = TokenIdKeywordAs /\ p = pos_of_token as_kw.
Proof.
  remember (NodeTypeCastExpr p prefix_op_expr type) as node eqn:Hnode.
  induction 1; try discriminate; [by auto|].
  injection Hnode as ? ? ?; subst. eauto 10.
Qed.

(** C2, as the code has it: the tree of a successful parse is placed on the
    token list by [root_at], which gives every node its line and column:
    those of the first token of its production for a Root, RootExportDecl,
    Use, ExternBlock and FnProto (the first token after the directives),
    ParamDecl, parsed Type, Block, PrefixOpExpr, ReturnExpr, literal, Symbol,
    Unreachable and Directive; those of the operator token for a BinOpExpr
    and of the [as] token for a CastExpr; those of the callee node for a
    FnCallExpr and of the FnProto for a FnDef or FnDecl; those of the token
    after the parameter list for the "void" return type of a prototype
    without [->]. *)
Theorem nodes_are_placed f root j st' :
  ast_parse_root pc f 0 initial_state = Ok (root, j, st') ->
  root_at pc (lists st') 0 root j /\
  (forall i p op1 bin_op op2 k,
     expr_at pc i (NodeTypeBinOpExpr p op1 bin_op op2) k ->
     exists i' j t l,
       expr_at pc i' op1 j /\ tokens pc !! j = Some t /\
       level_op l t = bin_op /\ bin_op <> BinOpTypeInvalid /\
       p = pos_of_token t) /\
  (forall i p prefix_op_expr type k,
     expr_at pc i (NodeTypeCastExpr p prefix_op_expr type) k ->
     exists i' j as_kw,
       expr_at pc i' prefix_op_expr j /\ tokens pc !! j = Some as_kw /\
       id as_kw = TokenIdKeywordAs /\ p = pos_of_token as_kw).
Proof.
  intros H. split; [|split].
  - by apply ast_parse_root_at in H as (H & _).
  - apply expr_at_bin_op_inv.
  - apply expr_at_cast_inv.
Qed.

(** *** Attachment *)

Lemma ast_parse_root_export_decl_attaches i st node j st' :
  ast_parse_root_export_decl pc i false st = Ok (Some node, j, st') ->
  node_directives node = directive_list st /\
  st' = clear_directive_list st.
Proof. unfold ast_parse_root_export_decl. intros H. by inv_ok; subst. Qed.

Lemma ast_parse_use_attaches i st node j st' :
  ast_parse_use pc i false st = Ok (Some node, j, st') ->
  node_directives node = directive_list st /\
  st' = clear_directive_list st.
Proof. unfold ast_parse_use. intros H. by inv_ok; subst. Qed.

Lemma ast_parse_extern_block_attaches f i m st node j st' :
  ast_parse_extern_block pc f i m st = Ok (Some node, j, st') ->
  node_directives node = directive_list st /\ directive_list st' = None.
Proof.
  unfold ast_parse_extern_block. intros H.
  apply bind_Ok in H as (extern_kw & _ & H).
  destruct (decide (id extern_kw <> TokenIdKeywordExtern));
    [by destruct m|].
  apply bind_Ok in H as (l_brace & _ & H).
  apply bind_Ok in H as (u & _ & H).
  apply bind_Ok in H as ([[fn_decls i3] st3] & Hloop & H).
  apply ast_parse_extern_block_loop_at in Hloop as (Hnone & _); [|done].
  by inv_ok; subst.
Qed.

(** C7: directives attach to the declaration that follows them, once.
    Collecting directives puts the directives in front of the cursor in a
    new list and leaves it pending. Each of the four declaration parsers
    that succeeds stores the pending list in the [directives] field of its
    node, and the slot is empty when it returns. After a successful parse
    the slot is empty; the tree is placed by [root_at], in which the list of
    each declaration holds exactly the directives in front of it; no two
    declarations of the tree have the same list; and every list of the
    store that holds a directive is the list of a declaration of the tree,
    so that every directive is in exactly one declaration's list. *)
Theorem directives_attach_once :
  (forall f i st j st1,
     collect_directives pc f i st = Ok (j, st1) ->
     directive_list st = None /\
     exists ds,
       directives_at pc i ds j /\
       st1 = {| directive_list := Some (length (lists st));
                lists := lists st ++ [ds] |}) /\
  (forall i st node j st',
     ast_parse_root_export_decl pc i false st = Ok (Some node, j, st') ->
     node_directives node = directive_list st /\
     st' = clear_directive_list st) /\
  (forall f i m st node j st',
     ast_parse_fn_proto pc f i m st = Ok (Some node, j, st') ->
     node_directives node = directive_list st /\
     st' = clear_directive_list st) /\
  (forall f i m st node j st',
     ast_parse_extern_block pc f i m st = Ok (Some node, j, st') ->
     node_directives node = directive_list st /\
     directive_list st' = None) /\
  (forall i st node j st',
     ast_parse_use pc i false st = Ok (Some node, j, st') ->
     node_directives node = directive_list st /\
     st' = clear_directive_list st) /\
  (forall f root j st',
     ast_parse_root pc f 0 initial_state = Ok (root, j, st') ->
     directive_list st' = None /\
     root_at pc (lists st') 0 root j /\
     NoDup (directive_fields root) /\
     (forall d, d ∈ directive_fields root ->
        exists p, d = Some p /\ p < length (lists st')) /\
     (forall p l, lists st' !! p = Some l -> l <> [] ->
        Some p ∈ directive_fields root)).
Proof.
  split; [|split; [|split; [|split; [|split]]]].
  - apply collect_directives_at.
  - apply ast_parse_root_export_decl_attaches.
  - intros f i m st node j st' H.
    by apply ast_parse_fn_proto_at in H as (_ & H).
  - apply ast_parse_extern_block_attaches.
  - apply ast_parse_use_attaches.
  - intros f root j st' H.
    apply ast_parse_root_at in H
      as (Hroot & Hnone & _ & Hnodup & Hin & Hcov); [|done].
    split; [done|]. split; [done|]. split; [done|]. split.
    + intros d Hd. apply Hin in Hd as (p & -> & _ & Hp). eauto.
    + intros p l Hl Hne. apply (Hcov p l); [simpl; lia|done|done].
Qed.

End PlacedAndAttached.

(** ** The fuel of the entry point is enough *)

Section Total.

Variable pc : ParseContext.

(** *** A production consumes tokens of the list *)

Lemma type_at_bounds i node j :
  type_at pc i node j -> i < j <= length (tokens pc).
Proof.
  induction 1;
    repeat match goal with
    | H : tokens pc !! _ = Some _ |- _ => apply lookup_lt_Some in H
    end; lia.
Qed.

Lemma expr_at_bounds :
  (forall i node j, expr_at pc i node j -> i < j <= length (tokens pc)) /\
  (forall i l j, stmts_at pc i l j -> i < j <= length (tokens pc)) /\
  (forall i l j, args_at pc i l j -> i < j <= length (tokens pc)) /\
  (forall i l j, args_loop_at pc i l j -> i < j <= length (tokens pc)).
Proof.
  apply expr_at_mutind; intros;
    repeat match goal with
    | H : tokens pc !! _ = Some _ |- _ => apply lookup_lt_Some in H
    | H : type_at pc _ _ _ |- _ => apply type_at_bounds in H
    end; lia.
Qed.

(** The cursor after a successful call: it has not moved back, and where it
    has moved it is within the token list. *)
Lemma expression_parsers_cursor f :
  (forall i ps r j,
     ast_parse_fn_call_param_list_loop pc f i ps = Ok (r, j) -> i < j <= length (tokens pc)) /\
  (forall i r j,
     ast_parse_fn_call_param_list pc f i = Ok (r, j) -> i < j <= length (tokens pc)) /\
  (forall i m r j,
     ast_parse_grouped_expr pc f i m = Ok (r, j) ->
     i <= j /\ (j = i \/ j <= length (tokens pc))) /\
  (forall i m r j,
     ast_parse_primary_expr pc f i m = Ok (r, j) ->
     i <= j /\ (j = i \/ j <= length (tokens pc))) /\
  (forall i m r j,
     ast_parse_fn_call_expr pc f i m = Ok (r, j) ->
     i <= j /\ (j = i \/ j <= length (tokens pc))) /\
  (forall i m r j,
     ast_parse_prefix_op_expr pc f i m = Ok (r, j) ->
     i <= j /\ (j = i \/ j <= length (tokens pc))) /\
  (forall i m r j,
     ast_parse_cast_expression pc f i m = Ok (r, j) ->
     i <= j /\ (j = i \/ j <= length (tokens pc))) /\
  (forall i m r j,
     ast_parse_mult_expr pc f i m = Ok (r, j) ->
     i <= j /\ (j = i \/ j <= length (tokens pc))) /\
  (forall i m r j,
     ast_parse_add_expr pc f i m = Ok (r, j) ->
     i <= j /\ (j = i \/ j <= length (tokens pc))) /\
  (forall i m r j,
     ast_parse_bit_shift_expr pc f i m = Ok (r, j) ->
     i <= j /\ (j = i \/ j <= length (tokens pc))) /\
  (forall i m r j,
     ast_parse_bin_and_expr pc f i m = Ok (r, j) ->
     i <= j /\ (j = i \/ j <= length (tokens pc))) /\
  (forall i m r j,
     ast_parse_bin_xor_expr pc f i m = Ok (r, j) ->
     i <= j /\ (j = i \/ j <= length (tokens pc))) /\
  (forall i m r j,
     ast_parse_bin_or_expr pc f i m = Ok (r, j) ->
     i <= j /\ (j = i \/ j <= length (tokens pc))) /\
  (forall i m r j,
     ast_parse_comparison_expr pc f i m = Ok (r, j) ->
     i <= j /\ (j = i \/ j <= length (tokens pc))) /\
  (forall i m r j,
     ast_parse_bool_and_expr pc f i m = Ok (r, j) ->
     i <= j /\ (j = i \/ j <= length (tokens pc))) /\
  (forall i m r j,
     ast_parse_return_expr pc f i m = Ok (r, j) ->
     i <= j /\ (j = i \/ j <= length (tokens pc))) /\
  (forall i m r j,
     ast_parse_bool_or_expr pc f i m = Ok (r, j) ->
     i <= j /\ (j = i \/ j <= length (tokens pc))) /\
  (forall i m r j,
     ast_parse_expression pc f i m = Ok (r, j) ->
     i <= j /\ (j = i \/ j <= length (tokens pc))) /\
  (forall i r j,
     ast_parse_expression_statement pc f i = Ok (r, j) -> i < j <= length (tokens pc)) /\
  (forall i r j,
     ast_parse_statement pc f i = Ok (r, j) -> i < j <= length (tokens pc)) /\
  (forall i ps r j,
     ast_parse_block_loop pc f i ps = Ok (r, j) -> i < j <= length (tokens pc)) /\
  (forall i m r j,
     ast_parse_block pc f i m = Ok (r, j) ->
     i <= j /\ (j = i \/ j <= length (tokens pc))).
Proof.
  pose proof (expression_parsers_at pc f) as
    (A1 & A2 & A3 & A4 & A5 & A6 & A7 & A8 & A9 & A10 & A11 & A12 & A13 & A14 & A15 & A16 & A17 & A18 & A19 & A20 & A21 & A22).
  pose proof (expression_parsers_null pc f) as
    (N1 & N2 & N3 & N4 & N5 & N6 & N7 & N8 & N9 & N10 & N11 & N12 & N13 & N14 & N15 & N16 & N17).
  destruct expr_at_bounds as (Be & Bs & Ba & Bl).
  unfold stmt_at in *.
  repeat match goal with |- _ /\ _ => split end; intros;
    repeat match goal with
    | H : _ = Ok (?r, _) |- _ =>
        is_var r; match type of r with option _ => destruct r end
    end;
    repeat match goal with
    | N : forall i m j, ?p pc f i m = Ok (None, j) -> _,
      H : ?p pc f _ _ = Ok (None, _) |- _ => apply N in H as [? ?]; subst
    end;
    repeat match goal with
    | A : forall i m node j, ?p pc f i m = Ok (Some node, j) -> _,
      H : ?p pc f _ _ = Ok (Some _, _) |- _ => apply A in H
    | A : forall i params j, ?p pc f i = Ok (params, j) -> _,
      H : ?p pc f _ = Ok (_, _) |- _ => apply A in H
    | A : forall i acc params j, ?p pc f i acc = Ok (params, j) -> _,
      H : ?p pc f _ _ = Ok (_, _) |- _ => apply A in H
    end;
    repeat match goal with
    | H : exists _, _ |- _ => destruct H as [? H]
    | H : _ /\ _ |- _ => destruct H as [? H]
    end;
    repeat match goal with
    | H : expr_at pc _ _ _ |- _ => apply Be in H
    | H : stmts_at pc _ _ _ |- _ => apply Bs in H
    | H : args_at pc _ _ _ |- _ => apply Ba in H
    | H : args_loop_at pc _ _ _ |- _ => apply Bl in H
    | H : tokens pc !! _ = Some _ |- _ => apply lookup_lt_Some in H
    end; lia.
Qed.

(** *** No parser runs out of fuel *)

Lemma bind_OutOfFuel {A B : Type} (m : Res A) (k : A -> Res B) :
  bind m k = OutOfFuel ->
  m = OutOfFuel \/ exists a, m = Ok a /\ k a = OutOfFuel.
Proof. destruct m; simpl; eauto; discriminate. Qed.

Lemma non_null_OutOfFuel r : non_null r = OutOfFuel -> r = OutOfFuel.
Proof. unfold non_null. by destruct r as [[[n|] k]| | |]. Qed.

Lemma token_at_fuel i : token_at pc i <> OutOfFuel.
Proof. unfold token_at. by destruct (tokens pc !! i). Qed.

Lemma ast_expect_token_fuel t token_id :
  ast_expect_token pc t token_id <> OutOfFuel.
Proof. unfold ast_expect_token. by destruct (decide _). Qed.

Lemma parse_string_literal_fuel t : parse_string_literal pc t <> OutOfFuel.
Proof.
  unfold parse_string_literal.
  by destruct (parse_string_literal_loop _ _ _) as [[] out].
Qed.

(** Take a hypothesis [body = OutOfFuel] apart: the call that ran out of
    fuel, after the successful calls before it. *)
Ltac inv_fuel :=
  repeat match goal with
  | H : bind _ _ = OutOfFuel |- _ =>
      let a := fresh "a" in
      let E := fresh "E" in
      apply bind_OutOfFuel in H as [H | (a & E & H)]
  | H : non_null _ = OutOfFuel |- _ => apply non_null_OutOfFuel in H
  | H : token_at _ _ = OutOfFuel |- _ => by apply token_at_fuel in H
  | H : ast_expect_token _ _ _ = OutOfFuel |- _ =>
      by apply ast_expect_token_fuel in H
  | H : parse_string_literal _ _ = OutOfFuel |- _ =>
      by apply parse_string_literal_fuel in H
  | H : ast_invalid_token_error _ _ = OutOfFuel |- _ => discriminate H
  | H : ast_error _ _ = OutOfFuel |- _ => discriminate H
  | H : Ok _ = OutOfFuel |- _ => discriminate H
  | H : Exit _ = OutOfFuel |- _ => discriminate H
  | H : Abort = OutOfFuel |- _ => discriminate H
  | H : match ?x with _ => _ end = OutOfFuel |- _ => destruct x eqn:?
  | H : _ = Ok ?a |- _ =>
      is_var a; match type of a with (_ * _)%type => destruct a end
  end.

(** The tokens that were read are in the list. *)
Ltac in_list :=
  inv_ok;
  repeat match goal with
  | H : tokens _ !! _ = Some _ |- _ => apply lookup_lt_Some in H
  end.

Lemma ast_parse_type_cursor f i r j :
  ast_parse_type pc f i = Ok (r, j) -> i < j <= length (tokens pc).
Proof. intros H. by apply ast_parse_type_at, type_at_bounds in H. Qed.

Lemma ast_parse_type_total f i :
  enough pc 1 f i -> ast_parse_type pc f i <> OutOfFuel.
Proof.
  unfold enough. revert i. induction f as [|f IH]; intros i He H; [lia|].
  simpl in H. inv_fuel; in_list; (apply IH in H; [done|lia]).
Qed.

Lemma expression_parsers_total f :
  (forall i ps,
     enough pc 16 f i -> ast_parse_fn_call_param_list_loop pc f i ps <> OutOfFuel) /\
  (forall i,
     enough pc 1 f i -> ast_parse_fn_call_param_list pc f i <> OutOfFuel) /\
  (forall i m,
     enough pc 1 f i -> ast_parse_grouped_expr pc f i m <> OutOfFuel) /\
  (forall i m,
     enough pc 2 f i -> ast_parse_primary_expr pc f i m <> OutOfFuel) /\
  (forall i m,
     enough pc 3 f i -> ast_parse_fn_call_expr pc f i m <> OutOfFuel) /\
  (forall i m,
     enough pc 4 f i -> ast_parse_prefix_op_expr pc f i m <> OutOfFuel) /\
  (forall i m,
     enough pc 5 f i -> ast_parse_cast_expression pc f i m <> OutOfFuel) /\
  (forall i m,
     enough pc 6 f i -> ast_parse_mult_expr pc f i m <> OutOfFuel) /\
  (forall i m,
     enough pc 7 f i -> ast_parse_add_expr pc f i m <> OutOfFuel) /\
  (forall i m,
     enough pc 8 f i -> ast_parse_bit_shift_expr pc f i m <> OutOfFuel) /\
  (forall i m,
     enough pc 9 f i -> ast_parse_bin_and_expr pc f i m <> OutOfFuel) /\
  (forall i m,
     enough pc 10 f i -> ast_parse_bin_xor_expr pc f i m <> OutOfFuel) /\
  (forall i m,
     enough pc 11 f i -> ast_parse_bin_or_expr pc f i m <> OutOfFuel) /\
  (forall i m,
     enough pc 12 f i -> ast_parse_comparison_expr pc f i m <> OutOfFuel) /\
  (forall i m,
     enough pc 13 f i -> ast_parse_bool_and_expr pc f i m <> OutOfFuel) /\
  (forall i m,
     enough pc 1 f i -> ast_parse_return_expr pc f i m <> OutOfFuel) /\
  (forall i m,
     enough pc 14 f i -> ast_parse_bool_or_expr pc f i m <> OutOfFuel) /\
  (forall i m,
     enough pc 15 f i -> ast_parse_expression pc f i m <> OutOfFuel) /\
  (forall i,
     enough pc 16 f i -> ast_parse_expression_statement pc f i <> OutOfFuel) /\
  (forall i,
     enough pc 17 f i -> ast_parse_statement pc f i <> OutOfFuel) /\
  (forall i ps,
     enough pc 18 f i -> ast_parse_block_loop pc f i ps <> OutOfFuel) /\
  (forall i m,
     enough pc 1 f i -> ast_parse_block pc f i m <> OutOfFuel).
Proof.
  unfold enough. induction f as [|f IH].
  { repeat match goal with |- _ /\ _ => split end; intros; lia. }
  destruct IH as
    (IH1 & IH2 & IH3 & IH4 & IH5 & IH6 & IH7 & IH8 & IH9 & IH10 & IH11 & IH12 & IH13 & IH14 & IH15 & IH16 & IH17 & IH18 & IH19 & IH20 & IH21 & IH22).
  pose proof (expression_parsers_cursor f) as
    (C1 & C2 & C3 & C4 & C5 & C6 & C7 & C8 & C9 & C10 & C11 & C12 & C13 & C14 & C15 & C16 & C17 & C18 & C19 & C20 & C21 & C22).
  repeat match goal with |- _ /\ _ => split end;
    repeat match goal with |- forall _, _ => intro end;
    intros Hout; simpl in Hout;
    unfold ast_parse_prefix_op, ast_parse_mult_op, ast_parse_add_op,
      ast_parse_bit_shift_op, ast_parse_comparison_operator,
      ast_parse_bin_op in *;
    inv_fuel;
    repeat match goal with
    | C : forall i m r j, ?p pc f i m = Ok (r, j) -> _,
      H : ?p pc f _ _ = Ok (_, _) |- _ => apply C in H
    | C : forall i r j, ?p pc f i = Ok (r, j) -> _,
      H : ?p pc f _ = Ok (_, _) |- _ => apply C in H
    | H : non_null _ = Ok (_, _) |- _ => apply non_null_Ok in H
    | H : ast_parse_type pc _ _ = Ok (_, _) |- _ =>
        apply ast_parse_type_cursor in H
    end;
    in_list;
    match goal with
    | H : ast_parse_type pc f _ = OutOfFuel |- _ =>
        apply ast_parse_type_total in H; [done | unfold enough; lia]
    | I : forall i m, _ -> ?p pc f i m <> OutOfFuel,
      H : ?p pc f _ _ = OutOfFuel |- _ => apply I in H; [done | lia]
    | I : forall i, _ -> ?p pc f i <> OutOfFuel,
      H : ?p pc f _ = OutOfFuel |- _ => apply I in H; [done | lia]
    end.
Qed.

(** *** Declarations *)

Lemma directives_at_bounds i ds j :
  directives_at pc i ds j -> i <= j < length (tokens pc).
Proof.
  induction 1 as [i t Ht _|i d j rest k Hd _ IH].
  - apply lookup_lt_Some in Ht. lia.
  - inversion Hd; subst. lia.
Qed.

Lemma params_at_bounds i params j :
  params_at pc i params j -> i < j <= length (tokens pc).
Proof.
  assert (Hparam : forall i p j,
            param_at pc i p j -> i < j <= length (tokens pc)).
  { intros ? ? ? H. inversion H; subst.
    match goal with H : type_at _ _ _ _ |- _ => apply type_at_bounds in H end.
    lia. }
  assert (Hloop : forall i ps j,
            params_loop_at pc i ps j -> i < j <= length (tokens pc)).
  { induction 1;
      repeat match goal with
      | H : param_at _ _ _ _ |- _ => apply Hparam in H
      | H : tokens pc !! _ = Some _ |- _ => apply lookup_lt_Some in H
      end; lia. }
  intros H. inversion H; subst;
    repeat match goal with
    | H : params_loop_at _ _ _ _ |- _ => apply Hloop in H
    | H : tokens pc !! _ = Some _ |- _ => apply lookup_lt_Some in H
    end; lia.
Qed.

Lemma proto_at_bounds i node j :
  proto_at pc i node j -> i < j <= length (tokens pc).
Proof.
  intros H. inversion H; subst.
  repeat match goal with
  | H : visib_at _ _ _ _ |- _ => inversion H; subst; clear H
  | H : return_type_at _ _ _ _ |- _ => inversion H; subst; clear H
  | H : params_at _ _ _ _ |- _ => apply params_at_bounds in H
  | H : type_at _ _ _ _ |- _ => apply type_at_bounds in H
  | H : tokens pc !! _ = Some _ |- _ => apply lookup_lt_Some in H
  end; lia.
Qed.

Lemma collect_directives_cursor f i st j st1 :
  collect_directives pc f i st = Ok (j, st1) ->
  i <= j < length (tokens pc).
Proof.
  intros H. apply collect_directives_at in H as (_ & ds & H & _).
  by apply directives_at_bounds in H.
Qed.

Lemma ast_parse_fn_proto_cursor f i m st r j st' :
  ast_parse_fn_proto pc f i m st = Ok (r, j, st') ->
  i <= j /\ (j = i \/ j <= length (tokens pc)) /\
  (is_Some r -> i < j <= length (tokens pc)).
Proof.
  intros H. destruct r as [node|].
  - apply ast_parse_fn_proto_at in H as (H & _).
    apply proto_at_bounds in H. split; [lia|]. split; [lia|]. done.
  - apply ast_parse_fn_proto_None in H as [-> _].
    split; [lia|]. split; [by left|]. by intros [? ?].
Qed.

Lemma ast_parse_block_cursor f i m r j :
  ast_parse_block pc f i m = Ok (r, j) ->
  i <= j /\ (j = i \/ j <= length (tokens pc)).
Proof.
  pose proof (expression_parsers_cursor f) as C.
  repeat match type of C with _ /\ _ => destruct C as [_ C] end.
  apply C.
Qed.

Lemma ast_parse_fn_def_cursor f i m st r j st' :
  ast_parse_fn_def pc f i m st = Ok (r, j, st') ->
  i <= j /\ (is_Some r -> i < j <= length (tokens pc)).
Proof.
  unfold ast_parse_fn_def. intros H. inv_ok; subst.
  - match goal with
    | H : ast_parse_fn_proto _ _ _ _ _ = Ok _ |- _ =>
        apply ast_parse_fn_proto_cursor in H as (_ & _ & H);
        specialize (H ltac:(eauto))
    end.
    match goal with
    | H : ast_parse_block _ _ _ _ = Ok _ |- _ =>
        apply ast_parse_block_cursor in H
    end.
    split; [lia|]. intros _. lia.
  - match goal with
    | H : ast_parse_fn_proto _ _ _ _ _ = Ok _ |- _ =>
        apply ast_parse_fn_proto_cursor in H as (? & _ & _)
    end.
    split; [done|]. by intros [? ?].
Qed.

Lemma ast_parse_fn_decl_cursor f i st r j st' :
  ast_parse_fn_decl pc f i st = Ok (r, j, st') ->
  i < j <= length (tokens pc).
Proof.
  unfold ast_parse_fn_decl. intros H. inv_ok; subst.
  match goal with
  | H : ast_parse_fn_proto _ _ _ _ _ = Ok _ |- _ =>
      apply ast_parse_fn_proto_cursor in H as (_ & _ & H);
      specialize (H ltac:(eauto))
  end.
  in_list. lia.
Qed.

Lemma ast_parse_extern_block_loop_cursor f i st acc r j st' :
  ast_parse_extern_block_loop pc f i st acc = Ok (r, j, st') ->
  i < j <= length (tokens pc).
Proof.
  revert i st acc. induction f as [|f IH]; intros i st acc H; [done|].
  simpl in H. inv_ok; subst;
    repeat match goal with
    | H : collect_directives _ _ _ _ = Ok _ |- _ =>
        apply collect_directives_cursor in H
    | H : ast_parse_fn_decl _ _ _ _ = Ok _ |- _ =>
        apply ast_parse_fn_decl_cursor in H
    | H : ast_parse_extern_block_loop _ _ _ _ _ = Ok _ |- _ =>
        apply IH in H
    end; in_list; lia.
Qed.

Lemma ast_parse_extern_block_cursor f i m st r j st' :
  ast_parse_extern_block pc f i m st = Ok (r, j, st') ->
  i <= j /\ (is_Some r -> i < j <= length (tokens pc)).
Proof.
  unfold ast_parse_extern_block. intros H. inv_ok; subst.
  - split; [done|]. by intros [? ?].
  - match goal with
    | H : ast_parse_extern_block_loop _ _ _ _ _ = Ok _ |- _ =>
        apply ast_parse_extern_block_loop_cursor in H
    end.
    split; [lia|]. intros _. lia.
Qed.

Lemma ast_parse_root_export_decl_cursor i m st r j st' :
  ast_parse_root_export_decl pc i m st = Ok (r, j, st') ->
  i <= j /\ (is_Some r -> i < j <= length (tokens pc)).
Proof.
  unfold ast_parse_root_export_decl. intros H. inv_ok; subst;
    in_list; (split; [lia|]); (by intros [? ?]) || (intros _; lia).
Qed.

Lemma ast_parse_use_cursor i m st r j st' :
  ast_parse_use pc i m st = Ok (r, j, st') ->
  i <= j /\ (is_Some r -> i < j <= length (tokens pc)).
Proof.
  unfold ast_parse_use. intros H. inv_ok; subst;
    in_list; (split; [lia|]); (by intros [? ?]) || (intros _; lia).
Qed.

Lemma ast_parse_directives_total f i p ls :
  enough pc 1 f i -> ast_parse_directives pc f i p ls <> OutOfFuel.
Proof.
  unfold enough. revert i ls.
  induction f as [|f IH]; intros i ls He H; [lia|].
  simpl in H. unfold ast_parse_directive in H.
  inv_fuel; in_list; subst; (apply IH in H; [done|lia]).
Qed.

Lemma collect_directives_total f i st :
  enough pc 1 f i -> collect_directives pc f i st <> OutOfFuel.
Proof.
  unfold collect_directives. intros He H.
  destruct (directive_list st); [done|]. simpl in H.
  inv_fuel. by apply ast_parse_directives_total in H.
Qed.

Lemma ast_parse_param_decl_list_loop_total f i acc :
  enough pc 2 f i -> ast_parse_param_decl_list_loop pc f i acc <> OutOfFuel.
Proof.
  unfold enough. revert i acc.
  induction f as [|f IH]; intros i acc He H; [lia|].
  simpl in H. unfold ast_parse_param_decl in H.
  inv_fuel; inv_ok;
    repeat match goal with
    | H : ast_parse_type _ _ _ = Ok _ |- _ =>
        apply ast_parse_type_cursor in H
    end; in_list; subst.
  - apply ast_parse_type_total in H; [done | unfold enough; lia].
  - apply IH in H; [done|lia].
Qed.

Lemma ast_parse_param_decl_list_total f i :
  enough pc 2 f i -> ast_parse_param_decl_list pc f i <> OutOfFuel.
Proof.
  unfold ast_parse_param_decl_list. intros He H.
  inv_fuel; in_list.
  apply ast_parse_param_decl_list_loop_total in H; [done|].
  unfold enough in *. lia.
Qed.

Lemma ast_parse_fn_proto_total f i m st :
  enough pc 2 f i -> ast_parse_fn_proto pc f i m st <> OutOfFuel.
Proof.
  unfold ast_parse_fn_proto, ast_parse_fn_proto_visib. intros He H.
  inv_fuel; inv_ok;
    repeat match goal with
    | H : ast_parse_param_decl_list _ _ _ = Ok _ |- _ =>
        apply ast_parse_param_decl_list_at, params_at_bounds in H
    end; in_list; subst;
    match goal with
    | H : ast_parse_param_decl_list _ _ _ = OutOfFuel |- _ =>
        apply ast_parse_param_decl_list_total in H;
        [done | unfold enough in *; lia]
    | H : ast_parse_type _ _ _ = OutOfFuel |- _ =>
        apply ast_parse_type_total in H; [done | unfold enough in *; lia]
    end.
Qed.

Lemma ast_parse_block_total f i m :
  enough pc 1 f i -> ast_parse_block pc f i m <> OutOfFuel.
Proof.
  pose proof (expression_parsers_total f) as T.
  repeat match type of T with _ /\ _ => destruct T as [_ T] end.
  apply T.
Qed.

Lemma ast_parse_fn_def_total f i m st :
  enough pc 2 f i -> ast_parse_fn_def pc f i m st <> OutOfFuel.
Proof.
  unfold ast_parse_fn_def. intros He H. inv_fuel.
  - by apply ast_parse_fn_proto_total in H.
  - match goal with
    | H : ast_parse_fn_proto _ _ _ _ _ = Ok _ |- _ =>
        apply ast_parse_fn_proto_cursor in H as (? & _ & _)
    end.
    apply ast_parse_block_total in H; [done | unfold enough in *; lia].
Qed.

Lemma ast_parse_fn_decl_total f i st :
  enough pc 2 f i -> ast_parse_fn_decl pc f i st <> OutOfFuel.
Proof.
  unfold ast_parse_fn_decl. intros He H. inv_fuel.
  by apply ast_parse_fn_proto_total in H.
Qed.

Lemma ast_parse_extern_block_loop_total f i st acc :
  enough pc 3 f i -> ast_parse_extern_block_loop pc f i st acc <> OutOfFuel.
Proof.
  unfold enough. revert i st acc.
  induction f as [|f IH]; intros i st acc He H; [lia|].
  simpl in H.
  inv_fuel; inv_ok;
    repeat match goal with
    | H : collect_directives _ _ _ _ = Ok _ |- _ =>
        apply collect_directives_cursor in H
    | H : ast_parse_fn_decl _ _ _ _ = Ok _ |- _ =>
        apply ast_parse_fn_decl_cursor in H
    | H : directive_list_length _ = OutOfFuel |- _ =>
        unfold directive_list_length in H; by destruct (directive_list _)
    end; in_list.
  - apply collect_directives_total in H; [done | unfold enough; lia].
  - apply ast_parse_fn_decl_total in H; [done | unfold enough; lia].
  - apply IH in H; [done|lia].
Qed.

Lemma ast_parse_extern_block_total f i m st :
  enough pc 3 f i -> ast_parse_extern_block pc f i m st <> OutOfFuel.
Proof.
  unfold ast_parse_extern_block. intros He H. inv_fuel; in_list.
  apply ast_parse_extern_block_loop_total in H; [done|].
  unfold enough in *. lia.
Qed.

Lemma ast_parse_root_export_decl_fuel i m st :
  ast_parse_root_export_decl pc i m st <> OutOfFuel.
Proof. unfold ast_parse_root_export_decl. intros H. inv_fuel. Qed.

Lemma ast_parse_use_fuel i m st : ast_parse_use pc i m st <> OutOfFuel.
Proof. unfold ast_parse_use. intros H. inv_fuel. Qed.

Lemma ast_parse_top_level_decls_total f i st acc :
  enough pc 4 f i -> ast_parse_top_level_decls pc f i st acc <> OutOfFuel.
Proof.
  unfold enough. revert i st acc.
  induction f as [|f IH]; intros i st acc He H; [lia|].
  cbn [ast_parse_top_level_decls] in H.
  inv_fuel; inv_ok;
    repeat match goal with
    | H : collect_directives _ _ _ _ = Ok _ |- _ =>
        apply collect_directives_cursor in H
    | H : ast_parse_root_export_decl _ _ _ _ = Ok _ |- _ =>
        apply ast_parse_root_export_decl_cursor in H as [? H];
        try specialize (H ltac:(eauto))
    | H : ast_parse_fn_def _ _ _ _ _ = Ok _ |- _ =>
        apply ast_parse_fn_def_cursor in H as [? H];
        try specialize (H ltac:(eauto))
    | H : ast_parse_extern_block _ _ _ _ _ = Ok _ |- _ =>
        apply ast_parse_extern_block_cursor in H as [? H];
        try specialize (H ltac:(eauto))
    | H : ast_parse_use _ _ _ _ = Ok _ |- _ =>
        apply ast_parse_use_cursor in H as [? H];
        try specialize (H ltac:(eauto))
    | H : directive_list_length _ = OutOfFuel |- _ =>
        unfold directive_list_length in H; by destruct (directive_list _)
    | H : ast_parse_root_export_decl _ _ _ _ = OutOfFuel |- _ =>
        by apply ast_parse_root_export_decl_fuel in H
    | H : ast_parse_use _ _ _ _ = OutOfFuel |- _ =>
        by apply ast_parse_use_fuel in H
    end; in_list;
    match goal with
    | H : collect_directives _ _ _ _ = OutOfFuel |- _ =>
        apply collect_directives_total in H; [done | unfold enough; lia]
    | H : ast_parse_fn_def _ _ _ _ _ = OutOfFuel |- _ =>
        apply ast_parse_fn_def_total in H; [done | unfold enough; lia]
    | H : ast_parse_extern_block _ _ _ _ _ = OutOfFuel |- _ =>
        apply ast_parse_extern_block_total in H; [done | unfold enough; lia]
    | H : ast_parse_top_level_decls _ _ _ _ _ = OutOfFuel |- _ =>
        apply IH in H; [done|lia]
    end.
Qed.

Lemma ast_parse_root_total i st :
  ast_parse_root pc (parse_fuel pc) i st <> OutOfFuel.
Proof.
  unfold ast_parse_root. intros H. inv_fuel.
  apply ast_parse_top_level_decls_total in H; [done|].
  unfold enough, parse_fuel. lia.
Qed.

(** The parser ends on every input: the fuel of the entry point, which
    bounds the depth of the calls, is never used up. Every loop of the
    source ([ast_parse_directives], the parameter and argument lists,
    [ast_parse_block], [ast_parse_extern_block], [ast_parse_top_level_decls])
    and every cycle of the recursion (through a parenthesis, a block, a
    [return], a pointer type) reads a token before it comes back. *)
Theorem ast_parse_terminates : ast_parse pc <> OutOfFuel.
Proof.
  unfold ast_parse. intros H. inv_fuel. by apply ast_parse_root_total in H.
Qed.

End Total.

(** * Further properties of the code *)

(** ** Induction on trees *)

Section AstNodeInduction.

Variable P : AstNode -> Prop.

Hypothesis HRoot : forall p l, Forall P l -> P (NodeTypeRoot p l).
Hypothesis HRootExportDecl :
  forall p d type name, P (NodeTypeRootExportDecl p d type name).
Hypothesis HFnProto :
  forall p d v name params return_type,
    Forall P params -> P return_type ->
    P (NodeTypeFnProto p d v name params return_type).
Hypothesis HFnDef :
  forall p fn_proto body,
    P fn_proto -> P body -> P (NodeTypeFnDef p fn_proto body).
Hypothesis HFnDecl :
  forall p fn_proto, P fn_proto -> P (NodeTypeFnDecl p fn_proto).
Hypothesis HParamDecl :
  forall p name type, P type -> P (NodeTypeParamDecl p name type).
Hypothesis HTypePrimitive : forall p name, P (NodeTypeTypePrimitive p name).
Hypothesis HTypePointer :
  forall p is_const child,
    P child -> P (NodeTypeTypePointer p is_const child).
Hypothesis HBlock : forall p l, Forall P l -> P (NodeTypeBlock p l).
Hypothesis HExternBlock :
  forall p d l, Forall P l -> P (NodeTypeExternBlock p d l).
Hypothesis HDirective : forall p name param, P (NodeTypeDirective p name param).
Hypothesis HReturnNone : forall p, P (NodeTypeReturnExpr p None).
Hypothesis HReturnSome :
  forall p expr, P expr -> P (NodeTypeReturnExpr p (Some expr)).
Hypothesis HBinOpExpr :
  forall p op1 bin_op op2,
    P op1 -> P op2 -> P (NodeTypeBinOpExpr p op1 bin_op op2).
Hypothesis HCastExpr :
  forall p e type, P e -> P type -> P (NodeTypeCastExpr p e type).
Hypothesis HNumberLiteral : forall p s, P (NodeTypeNumberLiteral p s).
Hypothesis HStringLiteral : forall p s, P (NodeTypeStringLiteral p s).
Hypothesis HUnreachable : forall p, P (NodeTypeUnreachable p).
Hypothesis HSymbol : forall p s, P (NodeTypeSymbol p s).
Hypothesis HPrefixOpExpr :
  forall p op e, P e -> P (NodeTypePrefixOpExpr p op e).
Hypothesis HFnCallExpr :
  forall p fn_ref_expr params,
    P fn_ref_expr -> Forall P params ->
    P (NodeTypeFnCallExpr p fn_ref_expr params).
Hypothesis HUse : forall p d path, P (NodeTypeUse p d path).

Lemma AstNode_nested_ind (node : AstNode) : P node.
Proof.
  revert node. fix IH 1. intros node.
  assert (Hall : forall l : list AstNode, Forall P l).
  { fix IHl 1. intros [|x l]; constructor; [apply IH | apply IHl]. }
  destruct node as
    [p l|p d type name|p d v name params return_type|p fn_proto body
    |p fn_proto|p name type|p name|p is_const child|p l|p d l
    |p name param|p [expr|]|p op1 bin_op op2|p e type|p s|p s|p|p s
    |p op e|p fn_ref_expr params|p d path].
  - apply HRoot, Hall.
  - apply HRootExportDecl.
  - apply HFnProto; [apply Hall | apply IH].
  - apply HFnDef; apply IH.
  - apply HFnDecl, IH.
  - apply HParamDecl, IH.
  - apply HTypePrimitive.
  - apply HTypePointer, IH.
  - apply HBlock, Hall.
  - apply HExternBlock, Hall.
  - apply HDirective.
  - apply HReturnSome, IH.
  - apply HReturnNone.
  - apply HBinOpExpr; apply IH.
  - apply HCastExpr; apply IH.
  - apply HNumberLiteral.
  - apply HStringLiteral.
  - apply HUnreachable.
  - apply HSymbol.
  - apply HPrefixOpExpr, IH.
  - apply HFnCallExpr; [apply IH | apply Hall].
  - apply HUse.
Qed.

End AstNodeInduction.

(** ** The printer *)

Lemma length_string_append (s1 s2 : string) :
  String.length (s1 +:+ s2) = String.length s1 + String.length s2.
Proof.
  induction s1 as [|c s1 IH]; [done|].
  change (S (String.length (s1 +:+ s2)) = S (String.length s1 + String.length s2)).
  by rewrite IH.
Qed.

Lemma length_print_indent indent : String.length (print_indent indent) = indent.
Proof.
  induction indent as [|indent IH]; [done|].
  change (S (String.length (print_indent indent)) = S indent). by rewrite IH.
Qed.

Lemma print_children_forget (l : list AstNode) indent :
  Forall (fun node => forall indent,
            ast_print (forget_unprinted node) indent = ast_print node indent)
    l ->
  print_children (fun child => ast_print child indent)
    (map forget_unprinted l) =
  print_children (fun child => ast_print child indent) l.
Proof.
  induction 1 as [|x l Hx _ IH]; [done|].
  cbn [map print_children foldr]. unfold print_children in IH.
  by rewrite Hx, IH.
Qed.

(** The printer shows neither the line and column of a node, nor the
    directives of a declaration, nor the visibility of a prototype, nor the
    name and parameter of a directive: a tree prints as the tree with these
    fields reset does. *)
Theorem ast_print_forget_unprinted (node : AstNode) (indent : nat) :
  ast_print (forget_unprinted node) indent = ast_print node indent.
Proof.
  revert indent.
  induction node using AstNode_nested_ind; intros indent;
    cbn [forget_unprinted ast_print node_type_str];
    rewrite ?print_children_forget by done;
    repeat match goal with
    | IH : forall indent, ast_print (forget_unprinted ?n) indent = _ |- _ =>
        rewrite IH; clear IH
    end; reflexivity.
Qed.

Lemma length_print_children (l : list AstNode) k :
  Forall (fun node => forall indent,
            String.length (ast_print node indent) =
              String.length (ast_print node 0) + indent * printed_nodes node)
    l ->
  String.length (print_children (fun child => ast_print child k) l)
  = String.length (print_children (fun child => ast_print child 0) l)
    + k * foldr (fun child n => printed_nodes child + n) 0 l.
Proof.
  induction 1 as [|x l Hx _ IH]; [simpl; lia|].
  cbn [print_children foldr]. unfold print_children in IH.
  rewrite !length_string_append, IH, (Hx k). lia.
Qed.

(** The indentation reaches every line once: printing a tree at [indent]
    writes, for each node the printer visits, [indent] blanks more than
    printing it at 0, and nothing else changes in size. *)
Theorem ast_print_indent_length (node : AstNode) (indent : nat) :
  String.length (ast_print node indent) =
    String.length (ast_print node 0) + indent * printed_nodes node.
Proof.
  revert indent.
  induction node using AstNode_nested_ind; intros indent;
    cbn [ast_print printed_nodes];
    rewrite !length_string_append, !length_print_indent;
    repeat match goal with
    | H : Forall _ ?l |- _ =>
        rewrite (length_print_children l (indent + 2) H),
          (length_print_children l (0 + 2) H); clear H
    | IH : forall indent, String.length (ast_print ?n indent) = _ |- _ =>
        rewrite (IH (indent + 2)), (IH (0 + 2)); clear IH
    end; lia.
Qed.

(** The printed name tells the operator: no two binary operators and no two
    prefix operators have the same name. *)
Theorem operator_names_are_distinct :
  (forall a b : BinOpType, bin_op_str a = bin_op_str b -> a = b) /\
  (forall a b : PrefixOp, prefix_op_str a = prefix_op_str b -> a = b).
Proof.
  split; intros a b; destruct a, b; simpl; intros H;
    reflexivity || discriminate H.
Qed.

(** ** String literals *)

Lemma length_decode_escapes (bytes : string) :
  String.length (decode_escapes bytes) <= String.length bytes.
Proof.
  remember (String.length bytes) as n eqn:Hn. revert bytes Hn.
  induction n as [n IH] using lt_wf_ind; intros bytes ->.
  destruct bytes as [|c [|c' rest]]; simpl.
  - lia.
  - destruct (Ascii.eqb c "\"); simpl; lia.
  - destruct (Ascii.eqb c "\").
    + pose proof (IH (String.length rest) ltac:(simpl; lia) rest eq_refl).
      repeat (destruct (Ascii.eqb c' _)); simpl; lia.
    + pose proof (IH (String.length (String c' rest)) ltac:(simpl; lia)
                    (String c' rest) eq_refl) as H.
      simpl in *. lia.
Qed.

Lemma length_substring (n m : nat) (s : string) :
  String.length (substring n m s) <= m.
Proof.
  revert n m. induction s as [|c s IH]; intros [|n] [|m]; simpl;
    try lia.
  - specialize (IH 0 m). lia.
  - apply IH.
  - apply IH.
Qed.

Lemma decode_escapes_no_backslash (bytes : string) :
  no_backslash bytes = true -> decode_escapes bytes = bytes.
Proof.
  induction bytes as [|c rest IH]; [done|]. simpl.
  destruct (Ascii.eqb c "\"); [done|]. simpl. intros H. by rewrite IH.
Qed.

Lemma dangling_escape_no_backslash (bytes : string) :
  no_backslash bytes = true -> dangling_escape bytes = false.
Proof.
  induction bytes as [|c rest IH]; [done|]. simpl.
  destruct (Ascii.eqb c "\"); [done|]. simpl. apply IH.
Qed.

(** The decoded string is never longer than the text between the quotes of
    the literal, and it is that text when the text has no backslash. *)
Theorem parse_string_literal_size (pc : ParseContext) (token : Token) :
  (forall str,
     parse_string_literal pc token = Ok str ->
     String.length str <= end_pos token - 1 - (start_pos token + 1)) /\
  (no_backslash (string_literal_bytes pc token) = true ->
   parse_string_literal pc token = Ok (string_literal_bytes pc token)).
Proof.
  unfold parse_string_literal. rewrite parse_string_literal_loop_decode.
  change ("" +:+ ?s) with s. split.
  - destruct (dangling_escape _); [done|]. intros str [= <-].
    etrans; [apply length_decode_escapes|]. apply length_substring.
  - intros H.
    by rewrite dangling_escape_no_backslash, decode_escapes_no_backslash.
Qed.

(** ** Types *)

Lemma type_at_tokens pc i node j :
  type_at pc i node j ->
  is_type node = true /\ j = i + 1 + 2 * pointer_depth node.
Proof. induction 1; simpl; [done..|]. split; [tauto|lia]. Qed.

(** A type is a primitive under [d] pointer levels, and takes [2 d + 1]
    tokens: a [*] and a [const] or [mut] for each level, and the name. *)
Theorem ast_parse_type_tokens pc f i node j :
  ast_parse_type pc f i = Ok (node, j) ->
  is_type node = true /\ j = i + 1 + 2 * pointer_depth node.
Proof. intros H. by apply ast_parse_type_at, type_at_tokens in H. Qed.

(** ** The cursor of the expression parsers *)

Section Cursor.

Variable pc : ParseContext.

(** A parser of the expression grammar returns [nullptr] only when called
    with [mandatory = false], and then the cursor is where it was; when it
    returns a node it has consumed at least one token, and the cursor is
    within the token list or just behind it. *)
Theorem expression_parser_cursor p f i m r j :
  run_parser p pc f i m = Ok (r, j) ->
  match r with
  | None => m = false /\ j = i
  | Some _ => i < j <= length (tokens pc)
  end.
Proof.
  intros H.
  pose proof (expression_parsers_at pc f) as
    (_ & _ & A3 & A4 & A5 & A6 & A7 & A8 & A9 & A10 & A11 & A12 & A13 & A14 & A15 & A16 & A17 & A18 & _ & _ & _ & A22).
  pose proof (expression_parsers_null pc f) as
    (N1 & N2 & N3 & N4 & N5 & N6 & N7 & N8 & N9 & N10 & N11 & N12 & N13 & N14 & N15 & N16 & N17).
  destruct (expr_at_bounds pc) as (Be & _).
  destruct r as [node|].
  - apply (Be i node j). destruct p; simpl in H; eauto.
  - assert (j = i /\ m = false) by (destruct p; simpl in H; eauto). tauto.
Qed.

End Cursor.

(** ** The tokens that start no expression *)

Section Rejects.

Variable pc : ParseContext.








End Rejects.

(** ** The kinds of the nodes of a parsed tree *)

Section Kinds.

Variable pc : ParseContext.

Lemma expr_at_is_expression :
  (forall i node j, expr_at pc i node j -> is_expression node = true) /\
  (forall i l j, stmts_at pc i l j -> forallb is_expression l = true) /\
  (forall i l j, args_at pc i l j -> forallb is_expression l = true) /\
  (forall i l j, args_loop_at pc i l j -> forallb is_expression l = true).
Proof.
  apply expr_at_mutind; intros; cbn [is_expression forallb];
    repeat match goal with
    | H : type_at _ _ _ _ |- _ => apply type_at_tokens in H as [H _]
    | H : _ = true |- _ => rewrite H; clear H
    | H : ?op <> _ |- context [bool_decide (?op <> _)] =>
        rewrite (bool_decide_eq_true_2 _ H)
    end; reflexivity.
Qed.

Lemma params_at_is_param_decl i params j :
  params_at pc i params j -> forallb is_param_decl params = true.
Proof.
  assert (Hparam : forall i p j,
            param_at pc i p j -> is_param_decl p = true).
  { intros ? ? ? H. inversion H; subst. simpl.
    match goal with
    | H : type_at _ _ _ _ |- _ => by apply type_at_tokens in H as [H _]
    end. }
  assert (Hloop : forall i ps j,
            params_loop_at pc i ps j -> forallb is_param_decl ps = true).
  { induction 1; cbn [forallb];
      repeat match goal with
      | H : param_at _ _ _ _ |- _ => apply Hparam in H; rewrite H
      end; done. }
  intros H. inversion H; subst; eauto.
Qed.

Lemma proto_at_is_fn_proto i node j :
  proto_at pc i node j -> is_fn_proto node = true.
Proof.
  intros H. inversion H; subst. simpl.
  match goal with
  | H : params_at _ _ _ _ |- _ => apply params_at_is_param_decl in H; rewrite H
  end.
  match goal with
  | H : return_type_at _ _ _ _ |- _ => inversion H; subst; [|done]
  end.
  match goal with
  | H : type_at _ _ _ _ |- _ => by apply type_at_tokens in H as [H _]
  end.
Qed.

Lemma ast_parse_block_is_block f i m node j :
  ast_parse_block pc f i m = Ok (Some node, j) ->
  is_block node = true /\ is_expression node = true.
Proof.
  intros H. split.
  - destruct f as [|f]; [done|]. simpl in H. inv_ok; by subst.
  - pose proof (expression_parsers_at pc f) as A.
    repeat match type of A with _ /\ _ => destruct A as [_ A] end.
    apply A in H. by apply expr_at_is_expression in H.
Qed.

Lemma ast_parse_fn_def_is_decl f i m st node j st' :
  ast_parse_fn_def pc f i m st = Ok (Some node, j, st') ->
  is_top_level_decl node = true.
Proof.
  unfold ast_parse_fn_def. intros H. inv_ok; subst. simpl.
  repeat match goal with
  | H : ast_parse_fn_proto _ _ _ _ _ = Ok _ |- _ =>
      apply ast_parse_fn_proto_at in H as (H & _);
      apply proto_at_is_fn_proto in H; rewrite H
  | H : ast_parse_block _ _ _ _ = Ok _ |- _ =>
      apply ast_parse_block_is_block in H as [-> ->]
  end. done.
Qed.

Lemma forallb_snoc {A : Type} (f : A -> bool) (l : list A) (x : A) :
  forallb f l = true -> f x = true -> forallb f (l ++ [x]) = true.
Proof. intros Hl Hx. rewrite forallb_app, Hl. simpl. by rewrite Hx. Qed.

Lemma ast_parse_extern_block_loop_is_fn_decl f i st acc fn_decls j st' :
  ast_parse_extern_block_loop pc f i st acc = Ok (fn_decls, j, st') ->
  forallb is_fn_decl acc = true -> forallb is_fn_decl fn_decls = true.
Proof.
  revert i st acc. induction f as [|f IH]; intros i st acc H Hacc; [done|].
  simpl in H. inv_ok; subst; [done|].
  match goal with
  | H : ast_parse_extern_block_loop _ _ _ _ _ = Ok _ |- _ =>
      apply IH in H; [done|]
  end.
  apply forallb_snoc; [done|].
  match goal with
  | H : ast_parse_fn_decl _ _ _ _ = Ok _ |- _ =>
      unfold ast_parse_fn_decl in H; inv_ok; subst
  end.
  simpl.
  match goal with
  | H : ast_parse_fn_proto _ _ _ _ _ = Ok _ |- _ =>
      apply ast_parse_fn_proto_at in H as (H & _);
      by apply proto_at_is_fn_proto in H
  end.
Qed.

Lemma ast_parse_extern_block_is_decl f i m st node j st' :
  ast_parse_extern_block pc f i m st = Ok (Some node, j, st') ->
  is_top_level_decl node = true.
Proof.
  unfold ast_parse_extern_block. intros H. inv_ok; subst. simpl.
  match goal with
  | H : ast_parse_extern_block_loop _ _ _ _ _ = Ok _ |- _ =>
      by apply ast_parse_extern_block_loop_is_fn_decl in H
  end.
Qed.

Lemma ast_parse_root_export_decl_is_decl i m st node j st' :
  ast_parse_root_export_decl pc i m st = Ok (Some node, j, st') ->
  is_top_level_decl node = true.
Proof. unfold ast_parse_root_export_decl. intros H. inv_ok; by subst. Qed.

Lemma ast_parse_use_is_decl i m st node j st' :
  ast_parse_use pc i m st = Ok (Some node, j, st') ->
  is_top_level_decl node = true.
Proof. unfold ast_parse_use. intros H. inv_ok; by subst. Qed.

Lemma ast_parse_top_level_decls_are_decls f i st acc decls j st' :
  ast_parse_top_level_decls pc f i st acc = Ok (decls, j, st') ->
  forallb is_top_level_decl acc = true ->
  forallb is_top_level_decl decls = true.
Proof.
  revert i st acc. induction f as [|f IH]; intros i st acc H Hacc; [done|].
  cbn [ast_parse_top_level_decls] in H. inv_ok; subst; try done;
    match goal with
    | H : ast_parse_top_level_decls _ _ _ _ _ = Ok _ |- _ =>
        apply IH in H; [done|]
    end;
    (apply forallb_snoc; [done|]);
    eauto using ast_parse_root_export_decl_is_decl, ast_parse_fn_def_is_decl,
      ast_parse_extern_block_is_decl, ast_parse_use_is_decl.
Qed.

(** *** The directive lists *)

Lemma directives_at_are_directives i ds j :
  directives_at pc i ds j -> Forall (fun node => is_directive node = true) ds.
Proof.
  induction 1 as [|i d j rest k Hd _ IH]; constructor; [|done].
  by inversion Hd.
Qed.

Lemma collect_directives_store f i st j st1 :
  collect_directives pc f i st = Ok (j, st1) ->
  directive_lists (lists st) -> directive_lists (lists st1).
Proof.
  intros H Hst. apply collect_directives_at in H as (_ & ds & H & ->).
  simpl. apply Forall_app. split; [done|]. constructor; [|done].
  by eapply directives_at_are_directives.
Qed.

Lemma ast_parse_fn_proto_store f i m st r j st' :
  ast_parse_fn_proto pc f i m st = Ok (r, j, st') -> lists st' = lists st.
Proof.
  intros H. destruct r as [node|].
  - by apply ast_parse_fn_proto_at in H as (_ & _ & ->).
  - by apply ast_parse_fn_proto_None in H as [_ ->].
Qed.

Lemma ast_parse_fn_def_store f i m st r j st' :
  ast_parse_fn_def pc f i m st = Ok (r, j, st') -> lists st' = lists st.
Proof.
  unfold ast_parse_fn_def. intros H. inv_ok; subst;
    by eapply ast_parse_fn_proto_store.
Qed.

Lemma ast_parse_fn_decl_store f i st r j st' :
  ast_parse_fn_decl pc f i st = Ok (r, j, st') -> lists st' = lists st.
Proof.
  unfold ast_parse_fn_decl. intros H. inv_ok; subst;
    by eapply ast_parse_fn_proto_store.
Qed.

Lemma ast_parse_extern_block_loop_store f i st acc r j st' :
  ast_parse_extern_block_loop pc f i st acc = Ok (r, j, st') ->
  directive_lists (lists st) -> directive_lists (lists st').
Proof.
  revert i st acc. induction f as [|f IH]; intros i st acc H Hst; [done|].
  simpl in H. inv_ok; subst;
    match goal with
    | H : collect_directives _ _ _ _ = Ok _ |- _ =>
        apply collect_directives_store in H; [|done]
    end; [done|].
  match goal with
  | H : ast_parse_extern_block_loop _ _ _ _ _ = Ok _ |- _ =>
      apply IH in H; [done|]
  end.
  match goal with
  | H : ast_parse_fn_decl _ _ _ _ = Ok _ |- _ =>
      apply ast_parse_fn_decl_store in H; by rewrite H
  end.
Qed.

Lemma ast_parse_extern_block_store f i m st r j st' :
  ast_parse_extern_block pc f i m st = Ok (r, j, st') ->
  directive_lists (lists st) -> directive_lists (lists st').
Proof.
  unfold ast_parse_extern_block. intros H Hst. inv_ok; subst; [done|].
  match goal with
  | H : ast_parse_extern_block_loop _ _ _ _ _ = Ok _ |- _ =>
      by apply ast_parse_extern_block_loop_store in H
  end.
Qed.

Lemma ast_parse_root_export_decl_store i m st r j st' :
  ast_parse_root_export_decl pc i m st = Ok (r, j, st') ->
  lists st' = lists st.
Proof. unfold ast_parse_root_export_decl. intros H. inv_ok; by subst. Qed.

Lemma ast_parse_use_store i m st r j st' :
  ast_parse_use pc i m st = Ok (r, j, st') -> lists st' = lists st.
Proof. unfold ast_parse_use. intros H. inv_ok; by subst. Qed.

Lemma ast_parse_top_level_decls_store f i st acc r j st' :
  ast_parse_top_level_decls pc f i st acc = Ok (r, j, st') ->
  directive_lists (lists st) -> directive_lists (lists st').
Proof.
  revert i st acc. induction f as [|f IH]; intros i st acc H Hst; [done|].
  cbn [ast_parse_top_level_decls] in H. inv_ok; subst;
    repeat match goal with
    | H : collect_directives _ _ _ _ = Ok _ |- _ =>
        apply collect_directives_store in H; [|done]
    | H : ast_parse_root_export_decl _ _ _ _ = Ok _ |- _ =>
        apply ast_parse_root_export_decl_store in H
    | H : ast_parse_fn_def _ _ _ _ _ = Ok _ |- _ =>
        apply ast_parse_fn_def_store in H
    | H : ast_parse_use _ _ _ _ = Ok _ |- _ =>
        apply ast_parse_use_store in H
    end;
    try (eapply IH; [eassumption|]);
    cbn [clear_directive_list lists];
    repeat match goal with
    | H : lists _ = lists _ |- _ => rewrite H; clear H
    | H : ast_parse_extern_block _ _ _ _ _ = Ok _ |- _ =>
        eapply ast_parse_extern_block_store; [exact H|]; clear H
    end; done.
Qed.

(** In the tree of a successful parse every slot holds a node of the kind
    its parent expects: the declarations of the root are [RootExportDecl],
    [FnDef], [ExternBlock] and [Use] nodes; a [FnDef] has a [FnProto] and a
    [Block]; an [ExternBlock] holds [FnDecl] nodes, each with a [FnProto];
    a prototype has [ParamDecl] nodes and a return type; the types are
    primitives under pointers; the statements and operands are expressions;
    and no operator of an expression is [Invalid]. The directive lists hold
    [Directive] nodes only. *)
Theorem parsed_tree_is_well_formed root store :
  ast_parse pc = Ok (root, store) ->
  is_root root = true /\ directive_lists store.
Proof.
  unfold ast_parse, ast_parse_root. intros H. inv_ok; subst. simpl. split.
  - match goal with
    | H : ast_parse_top_level_decls _ _ _ _ _ = Ok _ |- _ =>
        by apply ast_parse_top_level_decls_are_decls in H
    end.
  - match goal with
    | H : ast_parse_top_level_decls _ _ _ _ _ = Ok _ |- _ =>
        apply ast_parse_top_level_decls_store in H; [done|]
    end.
    constructor.
Qed.

End Kinds.

(** ** The empty program *)

(** A token list that holds the end-of-file token only parses to a root
    without declarations, placed at that token; the one directive list the
    top level has allocated is empty. *)
Theorem ast_parse_empty_program pc eof :
  tokens pc = [eof] -> id eof = TokenIdEof ->
  ast_parse pc = Ok (NodeTypeRoot (pos_of_token eof) [], [[]]).
Proof.
  destruct pc as [buf toks], eof as [k sp ep l c]. simpl.
  intros -> ->. reflexivity.
Qed.

(** ** The size of a parsed tree *)

Section Size.

Variable pc : ParseContext.

Lemma type_at_size i node j :
  type_at pc i node j -> printed_nodes node + i <= j.
Proof. induction 1; cbn [printed_nodes]; lia. Qed.

Lemma expr_at_size :
  (forall i node j, expr_at pc i node j -> printed_nodes node + i <= j) /\
  (forall i l j, stmts_at pc i l j -> printed_nodes_of l + i <= j) /\
  (forall i l j, args_at pc i l j -> printed_nodes_of l + i + 1 <= j) /\
  (forall i l j, args_loop_at pc i l j -> printed_nodes_of l + i <= j).
Proof.
  unfold printed_nodes_of.
  apply expr_at_mutind; intros; cbn [printed_nodes foldr];
    repeat match goal with
    | H : type_at _ _ _ _ |- _ => apply type_at_size in H
    end; lia.
Qed.

Lemma params_at_size i params j :
  params_at pc i params j -> printed_nodes_of params + i + 1 <= j.
Proof.
  unfold printed_nodes_of.
  assert (Hparam : forall i p j,
            param_at pc i p j -> printed_nodes p + i <= j).
  { intros ? ? ? H. inversion H; subst. cbn [printed_nodes].
    match goal with
    | H : type_at _ _ _ _ |- _ => apply type_at_size in H
    end. lia. }
  assert (Hloop : forall i ps j,
            params_loop_at pc i ps j -> printed_nodes_of ps + i <= j).
  { unfold printed_nodes_of. induction 1; cbn [foldr];
      repeat match goal with
      | H : param_at _ _ _ _ |- _ => apply Hparam in H
      end; lia. }
  unfold printed_nodes_of in Hloop.
  intros H. inversion H; subst; cbn [foldr]; [lia|].
  match goal with
  | H : params_loop_at _ _ _ _ |- _ => apply Hloop in H
  end. lia.
Qed.

Lemma proto_at_size i node j :
  proto_at pc i node j -> printed_nodes node + i + 1 <= j.
Proof.
  intros H. inversion H; subst. cbn [printed_nodes].
  unfold printed_nodes_of in *.
  repeat match goal with
  | H : visib_at _ _ _ _ |- _ => inversion H; subst; clear H
  | H : return_type_at _ _ _ _ |- _ => inversion H; subst; clear H
  | H : params_at _ _ _ _ |- _ =>
      apply params_at_size in H; unfold printed_nodes_of in H
  | H : type_at _ _ _ _ |- _ => apply type_at_size in H
  end; cbn [printed_nodes]; lia.
Qed.

Lemma fn_decls_at_size ls i fn_decls j :
  fn_decls_at pc ls i fn_decls j -> printed_nodes_of fn_decls + i + 1 <= j.
Proof.
  unfold printed_nodes_of.
  induction 1; cbn [foldr printed_nodes]; [lia|].
  repeat match goal with
  | H : directives_at _ _ _ _ |- _ => apply directives_at_bounds in H
  | H : proto_at _ _ _ _ |- _ => apply proto_at_size in H
  end. lia.
Qed.

Lemma decl_at_size ls i decl j :
  decl_at pc ls i decl j -> printed_nodes decl + i <= j.
Proof.
  intros H. inversion H; subst; cbn [printed_nodes];
    repeat match goal with
    | H : directives_at _ _ _ _ |- _ => apply directives_at_bounds in H
    | H : proto_at _ _ _ _ |- _ => apply proto_at_size in H
    | H : expr_at _ _ _ _ |- _ => apply (proj1 expr_at_size) in H
    | H : fn_decls_at _ _ _ _ _ |- _ =>
        apply fn_decls_at_size in H; unfold printed_nodes_of in H
    end; lia.
Qed.

Lemma top_decls_at_size ls i decls j :
  top_decls_at pc ls i decls j -> printed_nodes_of decls + i <= j.
Proof.
  unfold printed_nodes_of.
  induction 1; cbn [foldr]; [lia|].
  match goal with
  | H : decl_at _ _ _ _ _ |- _ => apply decl_at_size in H
  end. lia.
Qed.

(** The tree of a successful parse has at most as many nodes, the
    directives apart, as the input has tokens. *)
Theorem parsed_tree_size root store :
  ast_parse pc = Ok (root, store) ->
  printed_nodes root <= length (tokens pc).
Proof.
  unfold ast_parse. intros H. inv_ok; subst.
  match goal with
  | H : ast_parse_root _ _ _ _ = Ok _ |- _ =>
      apply ast_parse_root_at in H as (H & _); [|done]
  end.
  match goal with
  | H : root_at _ _ _ _ _ |- _ => inversion H; subst
  end.
  cbn [printed_nodes].
  match goal with
  | H : top_decls_at _ _ _ _ _ |- _ =>
      apply top_decls_at_size in H; unfold printed_nodes_of in H
  end.
  match goal with
  | H : tokens pc !! _ = Some _ |- _ => apply lookup_lt_Some in H
  end. lia.
Qed.

End Size.

(** ** The diagnostics *)

Section Diagnostics.

Variable pc : ParseContext.

Lemma bind_Exit {A B : Type} (m : Res A) (k : A -> Res B) e :
  bind m k = Exit e -> m = Exit e \/ exists a, m = Ok a /\ k a = Exit e.
Proof.
  destruct m as [a|e0| |]; simpl; intros H;
    [right; eauto | left; congruence | done | done].
Qed.

Lemma non_null_Exit r e : non_null r = Exit e -> r = Exit e.
Proof.
  unfold non_null. destruct r as [[[n|] k]| | |]; simpl; congruence.
Qed.

Lemma token_at_Exit i e : token_at pc i <> Exit e.
Proof. unfold token_at. by destruct (tokens pc !! i). Qed.

Lemma parse_string_literal_Exit t e : parse_string_literal pc t <> Exit e.
Proof.
  unfold parse_string_literal.
  by destruct (parse_string_literal_loop _ _ _) as [[] out].
Qed.

Lemma directive_list_length_Exit st e : directive_list_length st <> Exit e.
Proof. unfold directive_list_length. by destruct (directive_list st). Qed.

Lemma ast_invalid_token_error_Exit {A : Type} t e :
  ast_invalid_token_error (A := A) pc t = Exit e -> e = invalid_token_at pc t.
Proof. by intros [= <-]. Qed.

Lemma ast_expect_token_Exit t token_id e :
  ast_expect_token pc t token_id = Exit e -> e = invalid_token_at pc t.
Proof.
  unfold ast_expect_token. destruct (decide _); [|done].
  apply ast_invalid_token_error_Exit.
Qed.

Lemma ast_error_invalid_directive {A : Type} t e :
  ast_error (A := A) t "invalid directive" = Exit e ->
  e = invalid_directive_at t.
Proof. by intros [= <-]. Qed.

(** Take a hypothesis [body = Exit e] apart: the call that reports the
    diagnostic, after the successful calls before it. *)
Ltac inv_exit :=
  repeat match goal with
  | H : bind _ _ = Exit _ |- _ =>
      let a := fresh "a" in
      let E := fresh "E" in
      apply bind_Exit in H as [H | (a & E & H)]
  | H : non_null _ = Exit _ |- _ => apply non_null_Exit in H
  | H : token_at _ _ = Exit _ |- _ => by apply token_at_Exit in H
  | H : parse_string_literal _ _ = Exit _ |- _ =>
      by apply parse_string_literal_Exit in H
  | H : directive_list_length _ = Exit _ |- _ =>
      by apply directive_list_length_Exit in H
  | H : ast_expect_token _ _ _ = Exit _ |- _ =>
      apply ast_expect_token_Exit in H
  | H : ast_invalid_token_error _ _ = Exit _ |- _ =>
      apply ast_invalid_token_error_Exit in H
  | H : ast_error _ _ = Exit _ |- _ => apply ast_error_invalid_directive in H
  | H : Ok _ = Exit _ |- _ => discriminate H
  | H : Abort = Exit _ |- _ => discriminate H
  | H : OutOfFuel = Exit _ |- _ => discriminate H
  | H : match ?x with _ => _ end = Exit _ |- _ => destruct x eqn:?
  | H : _ = Ok ?a |- _ =>
      is_var a; match type of a with (_ * _)%type => destruct a end
  end.

(** The diagnostic is the one of a token that was read. *)
Ltac at_token :=
  inv_ok; subst; unfold diagnostic_at_token; eauto 6.

Lemma ast_parse_type_diagnostic f i e :
  ast_parse_type pc f i = Exit e -> diagnostic_at_token pc e.
Proof.
  revert i. induction f as [|f IH]; intros i H; [done|].
  simpl in H. inv_exit; try (by eapply IH); at_token.
Qed.

Lemma expression_parsers_diagnostic f :
  (forall i ps e,
     ast_parse_fn_call_param_list_loop pc f i ps = Exit e -> diagnostic_at_token pc e) /\
  (forall i e,
     ast_parse_fn_call_param_list pc f i = Exit e -> diagnostic_at_token pc e) /\
  (forall i m e,
     ast_parse_grouped_expr pc f i m = Exit e -> diagnostic_at_token pc e) /\
  (forall i m e,
     ast_parse_primary_expr pc f i m = Exit e -> diagnostic_at_token pc e) /\
  (forall i m e,
     ast_parse_fn_call_expr pc f i m = Exit e -> diagnostic_at_token pc e) /\
  (forall i m e,
     ast_parse_prefix_op_expr pc f i m = Exit e -> diagnostic_at_token pc e) /\
  (forall i m e,
     ast_parse_cast_expression pc f i m = Exit e -> diagnostic_at_token pc e) /\
  (forall i m e,
     ast_parse_mult_expr pc f i m = Exit e -> diagnostic_at_token pc e) /\
  (forall i m e,
     ast_parse_add_expr pc f i m = Exit e -> diagnostic_at_token pc e) /\
  (forall i m e,
     ast_parse_bit_shift_expr pc f i m = Exit e -> diagnostic_at_token pc e) /\
  (forall i m e,
     ast_parse_bin_and_expr pc f i m = Exit e -> diagnostic_at_token pc e) /\
  (forall i m e,
     ast_parse_bin_xor_expr pc f i m = Exit e -> diagnostic_at_token pc e) /\
  (forall i m e,
     ast_parse_bin_or_expr pc f i m = Exit e -> diagnostic_at_token pc e) /\
  (forall i m e,
     ast_parse_comparison_expr pc f i m = Exit e -> diagnostic_at_token pc e) /\
  (forall i m e,
     ast_parse_bool_and_expr pc f i m = Exit e -> diagnostic_at_token pc e) /\
  (forall i m e,
     ast_parse_return_expr pc f i m = Exit e -> diagnostic_at_token pc e) /\
  (forall i m e,
     ast_parse_bool_or_expr pc f i m = Exit e -> diagnostic_at_token pc e) /\
  (forall i m e,
     ast_parse_expression pc f i m = Exit e -> diagnostic_at_token pc e) /\
  (forall i e,
     ast_parse_expression_statement pc f i = Exit e -> diagnostic_at_token pc e) /\
  (forall i e,
     ast_parse_statement pc f i = Exit e -> diagnostic_at_token pc e) /\
  (forall i ps e,
     ast_parse_block_loop pc f i ps = Exit e -> diagnostic_at_token pc e) /\
  (forall i m e,
     ast_parse_block pc f i m = Exit e -> diagnostic_at_token pc e).
Proof.
  induction f as [|f IH]; [by repeat split|].
  destruct IH as
    (IH1 & IH2 & IH3 & IH4 & IH5 & IH6 & IH7 & IH8 & IH9 & IH10 & IH11 & IH12 & IH13 & IH14 & IH15 & IH16 & IH17 & IH18 & IH19 & IH20 & IH21 & IH22).
  repeat match goal with |- _ /\ _ => split end;
    intros;
    match goal with H : _ = Exit _ |- _ => simpl in H end;
    unfold ast_parse_prefix_op, ast_parse_mult_op, ast_parse_add_op,
      ast_parse_bit_shift_op, ast_parse_comparison_operator,
      ast_parse_bin_op in *;
    inv_exit;
    first
      [ by eauto using ast_parse_type_diagnostic
      | at_token ].
Qed.

Lemma ast_parse_directives_diagnostic f i p ls e :
  ast_parse_directives pc f i p ls = Exit e -> diagnostic_at_token pc e.
Proof.
  revert i ls. induction f as [|f IH]; intros i ls H; [done|].
  simpl in H. unfold ast_parse_directive in H.
  inv_exit; try (by eapply IH); at_token.
Qed.

Lemma collect_directives_diagnostic f i st e :
  collect_directives pc f i st = Exit e -> diagnostic_at_token pc e.
Proof.
  unfold collect_directives. destruct (directive_list st); [done|].
  simpl. intros H. inv_exit. by eapply ast_parse_directives_diagnostic.
Qed.

Lemma ast_parse_param_decl_list_loop_diagnostic f i acc e :
  ast_parse_param_decl_list_loop pc f i acc = Exit e ->
  diagnostic_at_token pc e.
Proof.
  revert i acc. induction f as [|f IH]; intros i acc H; [done|].
  simpl in H. unfold ast_parse_param_decl in H.
  inv_exit;
    first [ by eapply IH | by eapply ast_parse_type_diagnostic | at_token ].
Qed.

Lemma ast_parse_fn_proto_diagnostic f i m st e :
  ast_parse_fn_proto pc f i m st = Exit e -> diagnostic_at_token pc e.
Proof.
  unfold ast_parse_fn_proto, ast_parse_fn_proto_visib,
    ast_parse_param_decl_list. intros H.
  inv_exit;
    first [ by eapply ast_parse_param_decl_list_loop_diagnostic
          | by eapply ast_parse_type_diagnostic | at_token ].
Qed.

Lemma ast_parse_block_diagnostic f i m e :
  ast_parse_block pc f i m = Exit e -> diagnostic_at_token pc e.
Proof.
  pose proof (expression_parsers_diagnostic f) as D.
  repeat match type of D with _ /\ _ => destruct D as [_ D] end.
  apply D.
Qed.

Lemma ast_parse_fn_def_diagnostic f i m st e :
  ast_parse_fn_def pc f i m st = Exit e -> diagnostic_at_token pc e.
Proof.
  unfold ast_parse_fn_def. intros H. inv_exit.
  - by eapply ast_parse_fn_proto_diagnostic.
  - by eapply ast_parse_block_diagnostic.
Qed.

Lemma ast_parse_fn_decl_diagnostic f i st e :
  ast_parse_fn_decl pc f i st = Exit e -> diagnostic_at_token pc e.
Proof.
  unfold ast_parse_fn_decl. intros H. inv_exit.
  - by eapply ast_parse_fn_proto_diagnostic.
  - at_token.
Qed.

Lemma ast_parse_extern_block_loop_diagnostic f i st acc e :
  ast_parse_extern_block_loop pc f i st acc = Exit e ->
  diagnostic_at_token pc e.
Proof.
  revert i st acc. induction f as [|f IH]; intros i st acc H; [done|].
  simpl in H.
  inv_exit;
    first [ by eapply IH | by eapply collect_directives_diagnostic
          | by eapply ast_parse_fn_decl_diagnostic | at_token ].
Qed.

Lemma ast_parse_extern_block_diagnostic f i m st e :
  ast_parse_extern_block pc f i m st = Exit e -> diagnostic_at_token pc e.
Proof.
  unfold ast_parse_extern_block. intros H.
  inv_exit;
    first [ by eapply ast_parse_extern_block_loop_diagnostic | at_token ].
Qed.

Lemma ast_parse_top_level_decls_diagnostic f i st acc e :
  ast_parse_top_level_decls pc f i st acc = Exit e ->
  diagnostic_at_token pc e.
Proof.
  revert i st acc. induction f as [|f IH]; intros i st acc H; [done|].
  cbn [ast_parse_top_level_decls] in H.
  unfold ast_parse_root_export_decl, ast_parse_use in H.
  inv_exit;
    first [ by eapply IH | by eapply collect_directives_diagnostic
          | by eapply ast_parse_fn_def_diagnostic
          | by eapply ast_parse_extern_block_diagnostic | at_token ].
Qed.

(** Every diagnostic of the parser is [invalid token: '<lexeme>'], with the
    lexeme of a token of the input as [%s] prints it, up to its first NUL
    byte, or [invalid directive]; and it is placed at the line and column of
    that token, with the end position -1, -1. *)
Theorem ast_parse_diagnostic e :
  ast_parse pc = Exit e -> diagnostic_at_token pc e.
Proof.
  unfold ast_parse, ast_parse_root. intros H.
  inv_exit;
    first [ by eapply ast_parse_top_level_decls_diagnostic | at_token ].
Qed.

End Diagnostics.

(** ** No assertion fails and no read leaves the token list *)

Section Safe.

Variable pc : ParseContext.

Hypothesis Heof : ends_with_eof pc.
Hypothesis Hstr : string_literals_closed pc.

(** A token that is not the end-of-file token has a token after it. *)
Lemma next_token k t :
  tokens pc !! k = Some t -> id t <> TokenIdEof ->
  S k < length (tokens pc).
Proof.
  destruct Heof as (eof & Hlast & Hid). rewrite last_lookup in Hlast.
  intros Hk Hne. pose proof (lookup_lt_Some _ _ _ Hk) as Hlt.
  destruct (decide (k = pred (length (tokens pc)))) as [->|]; [|lia].
  rewrite Hlast in Hk. congruence.
Qed.

Lemma parse_string_literal_safe k t :
  tokens pc !! k = Some t -> id t = TokenIdStringLiteral ->
  parse_string_literal pc t <> Abort.
Proof.
  intros Hk Hid. unfold parse_string_literal.
  rewrite parse_string_literal_loop_decode.
  unfold string_literals_closed in Hstr.
  rewrite Forall_lookup in Hstr. by rewrite (Hstr k t Hk Hid).
Qed.

Lemma prefix_op_not_eof t :
  tok_to_prefix_op t <> PrefixOpInvalid -> id t <> TokenIdEof.
Proof. unfold tok_to_prefix_op. by destruct (id t). Qed.

Lemma mult_op_not_eof t :
  tok_to_mult_op t <> BinOpTypeInvalid -> id t <> TokenIdEof.
Proof. unfold tok_to_mult_op. by destruct (id t). Qed.

Lemma add_op_not_eof t :
  tok_to_add_op t <> BinOpTypeInvalid -> id t <> TokenIdEof.
Proof. unfold tok_to_add_op. by destruct (id t). Qed.

Lemma bit_shift_op_not_eof t :
  tok_to_bit_shift_op t <> BinOpTypeInvalid -> id t <> TokenIdEof.
Proof. unfold tok_to_bit_shift_op. by destruct (id t). Qed.

Lemma cmp_op_not_eof t :
  tok_to_cmp_op t <> BinOpTypeInvalid -> id t <> TokenIdEof.
Proof. unfold tok_to_cmp_op. by destruct (id t). Qed.

(** From the tokens that were read: they are in the list, and those of a
    known kind have a token after them. *)
Ltac after_tokens :=
  repeat match goal with
  | H : decide _ = _ |- _ => clear H
  end;
  repeat match goal with
  | H : ~ id _ <> _ |- _ => apply dec_stable in H
  end;
  repeat match goal with
  | H : tokens pc !! ?k = Some ?t, Hid : id ?t = _ |- _ =>
      apply next_token in H; [|rewrite Hid; discriminate]
  | H : tokens pc !! ?k = Some ?t, Hop : tok_to_prefix_op ?t <> _ |- _ =>
      apply next_token in H; [|by apply prefix_op_not_eof]
  | H : tokens pc !! ?k = Some ?t, Hop : tok_to_mult_op ?t <> _ |- _ =>
      apply next_token in H; [|by apply mult_op_not_eof]
  | H : tokens pc !! ?k = Some ?t, Hop : tok_to_add_op ?t <> _ |- _ =>
      apply next_token in H; [|by apply add_op_not_eof]
  | H : tokens pc !! ?k = Some ?t, Hop : tok_to_bit_shift_op ?t <> _ |- _ =>
      apply next_token in H; [|by apply bit_shift_op_not_eof]
  | H : tokens pc !! ?k = Some ?t, Hop : tok_to_cmp_op ?t <> _ |- _ =>
      apply next_token in H; [|by apply cmp_op_not_eof]
  end;
  repeat match goal with
  | H : tokens pc !! _ = Some _ |- _ => apply lookup_lt_Some in H
  end.

(** *** A production ends before the last token *)

Lemma type_at_inside i node j :
  type_at pc i node j -> j < length (tokens pc).
Proof. induction 1; after_tokens; lia. Qed.

Lemma expr_at_inside :
  (forall i node j, expr_at pc i node j -> j < length (tokens pc)) /\
  (forall i l j, stmts_at pc i l j -> j < length (tokens pc)) /\
  (forall i l j, args_at pc i l j -> j < length (tokens pc)) /\
  (forall i l j, args_loop_at pc i l j -> j < length (tokens pc)).
Proof.
  apply expr_at_mutind; intros;
    repeat match goal with
    | H : type_at pc _ _ _ |- _ => apply type_at_inside in H
    end; after_tokens; lia.
Qed.

Lemma params_at_inside i params j :
  params_at pc i params j -> j < length (tokens pc).
Proof.
  assert (Hparam : forall i p j,
            param_at pc i p j -> j < length (tokens pc)).
  { intros ? ? ? H. inversion H; subst. by eapply type_at_inside. }
  assert (Hloop : forall i ps j,
            params_loop_at pc i ps j -> j < length (tokens pc)).
  { induction 1; after_tokens; lia. }
  intros H. inversion H; subst; [after_tokens; lia | eauto].
Qed.

Lemma proto_at_inside i node j :
  proto_at pc i node j -> j < length (tokens pc).
Proof.
  intros H. inversion H; subst.
  match goal with
  | H : return_type_at _ _ _ _ |- _ => inversion H; subst
  end.
  - by eapply type_at_inside.
  - by eapply lookup_lt_Some.
Qed.

Lemma expression_parsers_inside f :
  (forall i ps r j,
     ast_parse_fn_call_param_list_loop pc f i ps = Ok (r, j) -> j < length (tokens pc)) /\
  (forall i r j,
     ast_parse_fn_call_param_list pc f i = Ok (r, j) -> j < length (tokens pc)) /\
  (forall i m r j,
     ast_parse_grouped_expr pc f i m = Ok (r, j) ->
     j = i \/ j < length (tokens pc)) /\
  (forall i m r j,
     ast_parse_primary_expr pc f i m = Ok (r, j) ->
     j = i \/ j < length (tokens pc)) /\
  (forall i m r j,
     ast_parse_fn_call_expr pc f i m = Ok (r, j) ->
     j = i \/ j < length (tokens pc)) /\
  (forall i m r j,
     ast_parse_prefix_op_expr pc f i m = Ok (r, j) ->
     j = i \/ j < length (tokens pc)) /\
  (forall i m r j,
     ast_parse_cast_expression pc f i m = Ok (r, j) ->
     j = i \/ j < length (tokens pc)) /\
  (forall i m r j,
     ast_parse_mult_expr pc f i m = Ok (r, j) ->
     j = i \/ j < length (tokens pc)) /\
  (forall i m r j,
     ast_parse_add_expr pc f i m = Ok (r, j) ->
     j = i \/ j < length (tokens pc)) /\
  (forall i m r j,
     ast_parse_bit_shift_expr pc f i m = Ok (r, j) ->
     j = i \/ j < length (tokens pc)) /\
  (forall i m r j,
     ast_parse_bin_and_expr pc f i m = Ok (r, j) ->
     j = i \/ j < length (tokens pc)) /\
  (forall i m r j,
     ast_parse_bin_xor_expr pc f i m = Ok (r, j) ->
     j = i \/ j < length (tokens pc)) /\
  (forall i m r j,
     ast_parse_bin_or_expr pc f i m = Ok (r, j) ->
     j = i \/ j < length (tokens pc)) /\
  (forall i m r j,
     ast_parse_comparison_expr pc f i m = Ok (r, j) ->
     j = i \/ j < length (tokens pc)) /\
  (forall i m r j,
     ast_parse_bool_and_expr pc f i m = Ok (r, j) ->
     j = i \/ j < length (tokens pc)) /\
  (forall i m r j,
     ast_parse_return_expr pc f i m = Ok (r, j) ->
     j = i \/ j < length (tokens pc)) /\
  (forall i m r j,
     ast_parse_bool_or_expr pc f i m = Ok (r, j) ->
     j = i \/ j < length (tokens pc)) /\
  (forall i m r j,
     ast_parse_expression pc f i m = Ok (r, j) ->
     j = i \/ j < length (tokens pc)) /\
  (forall i r j,
     ast_parse_expression_statement pc f i = Ok (r, j) -> j < length (tokens pc)) /\
  (forall i r j,
     ast_parse_statement pc f i = Ok (r, j) -> j < length (tokens pc)) /\
  (forall i ps r j,
     ast_parse_block_loop pc f i ps = Ok (r, j) -> j < length (tokens pc)) /\
  (forall i m r j,
     ast_parse_block pc f i m = Ok (r, j) ->
     j = i \/ j < length (tokens pc)).
Proof.
  pose proof (expression_parsers_at pc f) as
    (A1 & A2 & A3 & A4 & A5 & A6 & A7 & A8 & A9 & A10 & A11 & A12 & A13 & A14 & A15 & A16 & A17 & A18 & A19 & A20 & A21 & A22).
  pose proof (expression_parsers_null pc f) as
    (N1 & N2 & N3 & N4 & N5 & N6 & N7 & N8 & N9 & N10 & N11 & N12 & N13 & N14 & N15 & N16 & N17).
  destruct expr_at_inside as (Be & Bs & Ba & Bl).
  unfold stmt_at in *.
  repeat match goal with |- _ /\ _ => split end; intros;
    repeat match goal with
    | H : _ = Ok (?r, _) |- _ =>
        is_var r; match type of r with option _ => destruct r end
    end;
    repeat match goal with
    | N : forall i m j, ?p pc f i m = Ok (None, j) -> _,
      H : ?p pc f _ _ = Ok (None, _) |- _ => apply N in H as [? ?]; subst
    end;
    repeat match goal with
    | A : forall i m node j, ?p pc f i m = Ok (Some node, j) -> _,
      H : ?p pc f _ _ = Ok (Some _, _) |- _ => apply A in H
    | A : forall i params j, ?p pc f i = Ok (params, j) -> _,
      H : ?p pc f _ = Ok (_, _) |- _ => apply A in H
    | A : forall i acc params j, ?p pc f i acc = Ok (params, j) -> _,
      H : ?p pc f _ _ = Ok (_, _) |- _ => apply A in H
    end;
    repeat match goal with
    | H : exists _, _ |- _ => destruct H as [? H]
    | H : _ /\ _ |- _ => destruct H as [? H]
    end;
    repeat match goal with
    | H : expr_at pc _ _ _ |- _ => apply Be in H
    | H : stmts_at pc _ _ _ |- _ => apply Bs in H
    | H : args_at pc _ _ _ |- _ => apply Ba in H
    | H : args_loop_at pc _ _ _ |- _ => apply Bl in H
    end; after_tokens; lia.
Qed.

(** *** The expression parsers *)

Lemma bind_Abort {A B : Type} (m : Res A) (k : A -> Res B) :
  bind m k = Abort -> m = Abort \/ exists a, m = Ok a /\ k a = Abort.
Proof. destruct m; simpl; eauto; discriminate. Qed.

Lemma non_null_Abort r :
  non_null r = Abort -> r = Abort \/ exists j, r = Ok (None, j).
Proof. unfold non_null. destruct r as [[[n|] k]| | |]; eauto; done. Qed.

Lemma token_at_Abort i : token_at pc i = Abort -> length (tokens pc) <= i.
Proof.
  unfold token_at. destruct (tokens pc !! i) eqn:E; [done|].
  intros _. by apply lookup_ge_None.
Qed.

Lemma ast_expect_token_Abort t token_id :
  ast_expect_token pc t token_id <> Abort.
Proof. unfold ast_expect_token. by destruct (decide _). Qed.

(** Take a hypothesis [body = Abort] apart: the step that aborts, after the
    successful calls before it. *)
Ltac inv_abort :=
  repeat match goal with
  | H : bind _ _ = Abort |- _ =>
      let a := fresh "a" in
      let E := fresh "E" in
      apply bind_Abort in H as [H | (a & E & H)]
  | H : non_null _ = Abort |- _ =>
      let j := fresh "j" in
      apply non_null_Abort in H as [H | (j & H)]
  | H : token_at _ _ = Abort |- _ => apply token_at_Abort in H
  | H : ast_expect_token _ _ _ = Abort |- _ =>
      by apply ast_expect_token_Abort in H
  | H : ast_invalid_token_error _ _ = Abort |- _ => discriminate H
  | H : ast_error _ _ = Abort |- _ => discriminate H
  | H : Ok _ = Abort |- _ => discriminate H
  | H : Exit _ = Abort |- _ => discriminate H
  | H : OutOfFuel = Abort |- _ => discriminate H
  | H : match ?x with _ => _ end = Abort |- _ => destruct x eqn:?
  | H : _ = Ok ?a |- _ =>
      is_var a; match type of a with (_ * _)%type => destruct a end
  end.

(** The facts at hand on the calls that returned. *)
Ltac returned f :=
  inv_ok;
  repeat match goal with
  | N : forall i m j, ?p pc f i m = Ok (None, j) -> _,
    H : ?p pc f _ true = Ok (None, _) |- _ => by apply N in H as [_ ?]
  | C : forall i m r j, ?p pc f i m = Ok (r, j) -> _,
    H : ?p pc f _ _ = Ok (_, _) |- _ => apply C in H
  | C : forall i r j, ?p pc f i = Ok (r, j) -> _,
    H : ?p pc f _ = Ok (_, _) |- _ => apply C in H
  | H : ast_parse_type pc _ _ = Ok (_, _) |- _ =>
      apply ast_parse_type_at, type_at_inside in H
  | H : parse_string_literal pc ?t = Abort,
    Ht : tokens pc !! _ = Some ?t |- _ =>
      by eapply parse_string_literal_safe in H
  end;
  subst; after_tokens.

Lemma ast_parse_type_safe f i :
  i < length (tokens pc) -> ast_parse_type pc f i <> Abort.
Proof.
  revert i. induction f as [|f IH]; intros i Hi H; [done|].
  simpl in H. inv_abort; inv_ok; after_tokens; try lia;
    (apply IH in H; [done|lia]).
Qed.

Lemma expression_parsers_safe f :
  (forall i ps,
     i < length (tokens pc) -> ast_parse_fn_call_param_list_loop pc f i ps <> Abort) /\
  (forall i,
     i < length (tokens pc) -> ast_parse_fn_call_param_list pc f i <> Abort) /\
  (forall i m,
     i < length (tokens pc) -> ast_parse_grouped_expr pc f i m <> Abort) /\
  (forall i m,
     i < length (tokens pc) -> ast_parse_primary_expr pc f i m <> Abort) /\
  (forall i m,
     i < length (tokens pc) -> ast_parse_fn_call_expr pc f i m <> Abort) /\
  (forall i m,
     i < length (tokens pc) -> ast_parse_prefix_op_expr pc f i m <> Abort) /\
  (forall i m,
     i < length (tokens pc) -> ast_parse_cast_expression pc f i m <> Abort) /\
  (forall i m,
     i < length (tokens pc) -> ast_parse_mult_expr pc f i m <> Abort) /\
  (forall i m,
     i < length (tokens pc) -> ast_parse_add_expr pc f i m <> Abort) /\
  (forall i m,
     i < length (tokens pc) -> ast_parse_bit_shift_expr pc f i m <> Abort) /\
  (forall i m,
     i < length (tokens pc) -> ast_parse_bin_and_expr pc f i m <> Abort) /\
  (forall i m,
     i < length (tokens pc) -> ast_parse_bin_xor_expr pc f i m <> Abort) /\
  (forall i m,
     i < length (tokens pc) -> ast_parse_bin_or_expr pc f i m <> Abort) /\
  (forall i m,
     i < length (tokens pc) -> ast_parse_comparison_expr pc f i m <> Abort) /\
  (forall i m,
     i < length (tokens pc) -> ast_parse_bool_and_expr pc f i m <> Abort) /\
  (forall i m,
     i < length (tokens pc) -> ast_parse_return_expr pc f i m <> Abort) /\
  (forall i m,
     i < length (tokens pc) -> ast_parse_bool_or_expr pc f i m <> Abort) /\
  (forall i m,
     i < length (tokens pc) -> ast_parse_expression pc f i m <> Abort) /\
  (forall i,
     i < length (tokens pc) -> ast_parse_expression_statement pc f i <> Abort) /\
  (forall i,
     i < length (tokens pc) -> ast_parse_statement pc f i <> Abort) /\
  (forall i ps,
     i < length (tokens pc) -> ast_parse_block_loop pc f i ps <> Abort) /\
  (forall i m,
     i < length (tokens pc) -> ast_parse_block pc f i m <> Abort).
Proof.
  induction f as [|f IH]; [by repeat split|].
  destruct IH as
    (IH1 & IH2 & IH3 & IH4 & IH5 & IH6 & IH7 & IH8 & IH9 & IH10 & IH11 & IH12 & IH13 & IH14 & IH15 & IH16 & IH17 & IH18 & IH19 & IH20 & IH21 & IH22).
  pose proof (expression_parsers_inside f) as
    (C1 & C2 & C3 & C4 & C5 & C6 & C7 & C8 & C9 & C10 & C11 & C12 & C13 & C14 & C15 & C16 & C17 & C18 & C19 & C20 & C21 & C22).
  pose proof (expression_parsers_null pc f) as
    (N1 & N2 & N3 & N4 & N5 & N6 & N7 & N8 & N9 & N10 & N11 & N12 & N13 & N14 & N15 & N16 & N17).
  repeat match goal with |- _ /\ _ => split end;
    repeat match goal with |- forall _, _ => intro end;
    intros Hout; simpl in Hout;
    unfold ast_parse_prefix_op, ast_parse_mult_op, ast_parse_add_op,
      ast_parse_bit_shift_op, ast_parse_comparison_operator,
      ast_parse_bin_op in *;
    inv_abort; returned f;
    try lia;
    match goal with
    | H : ast_parse_type pc f _ = Abort |- _ =>
        apply ast_parse_type_safe in H; [done | lia]
    | I : forall i m, _ -> ?p pc f i m <> Abort,
      H : ?p pc f _ _ = Abort |- _ => apply I in H; [done | lia]
    | I : forall i, _ -> ?p pc f i <> Abort,
      H : ?p pc f _ = Abort |- _ => apply I in H; [done | lia]
    end.
Qed.

(** *** The declarations *)

Lemma ast_parse_directives_safe f i p ls :
  i < length (tokens pc) -> ast_parse_directives pc f i p ls <> Abort.
Proof.
  revert i ls. induction f as [|f IH]; intros i ls Hi H; [done|].
  simpl in H. unfold ast_parse_directive in H.
  inv_abort; returned f; try lia; (apply IH in H; [done|lia]).
Qed.

Lemma collect_directives_safe f i st :
  directive_list st = None -> i < length (tokens pc) ->
  collect_directives pc f i st <> Abort.
Proof.
  unfold collect_directives. intros -> Hi H. simpl in H.
  inv_abort. by apply ast_parse_directives_safe in H.
Qed.

Lemma collect_directives_after f i st j st1 :
  collect_directives pc f i st = Ok (j, st1) ->
  j < length (tokens pc) /\ is_Some (directive_list st1).
Proof.
  intros H. apply collect_directives_at in H as (_ & ds & H & ->).
  apply directives_at_bounds in H. split; [lia|]. by eexists.
Qed.

Lemma ast_parse_param_decl_list_loop_safe f i acc :
  i < length (tokens pc) ->
  ast_parse_param_decl_list_loop pc f i acc <> Abort.
Proof.
  revert i acc. induction f as [|f IH]; intros i acc Hi H; [done|].
  simpl in H. unfold ast_parse_param_decl in H.
  inv_abort; returned f; try lia.
  - apply ast_parse_type_safe in H; [done|lia].
  - apply IH in H; [done|lia].
Qed.

Lemma ast_parse_param_decl_list_safe f i :
  i < length (tokens pc) -> ast_parse_param_decl_list pc f i <> Abort.
Proof.
  unfold ast_parse_param_decl_list. intros Hi H.
  inv_abort; returned f; try lia.
  apply ast_parse_param_decl_list_loop_safe in H; [done|lia].
Qed.

Lemma ast_parse_fn_proto_after f i m st r j st' :
  ast_parse_fn_proto pc f i m st = Ok (r, j, st') ->
  match r with
  | Some _ => j < length (tokens pc) /\ directive_list st' = None
  | None => j = i /\ st' = st /\ m = false
  end.
Proof.
  intros H. destruct r as [node|].
  - apply ast_parse_fn_proto_at in H as (H & _ & ->).
    by apply proto_at_inside in H.
  - unfold ast_parse_fn_proto, ast_parse_fn_proto_visib in H.
    inv_ok; by subst.
Qed.

Lemma ast_parse_fn_proto_safe f i m st :
  i < length (tokens pc) -> ast_parse_fn_proto pc f i m st <> Abort.
Proof.
  unfold ast_parse_fn_proto, ast_parse_fn_proto_visib. intros Hi H.
  inv_abort; inv_ok;
    repeat match goal with
    | H : ast_parse_param_decl_list _ _ _ = Ok _ |- _ =>
        apply ast_parse_param_decl_list_at, params_at_inside in H
    end; subst; after_tokens; try lia;
    match goal with
    | H : ast_parse_param_decl_list _ _ _ = Abort |- _ =>
        apply ast_parse_param_decl_list_safe in H; [done|lia]
    | H : ast_parse_type _ _ _ = Abort |- _ =>
        apply ast_parse_type_safe in H; [done|lia]
    end.
Qed.

Lemma ast_parse_block_inside f i m node j :
  ast_parse_block pc f i m = Ok (Some node, j) -> j < length (tokens pc).
Proof.
  intros H. pose proof (expression_parsers_at pc f) as A.
  repeat match type of A with _ /\ _ => destruct A as [_ A] end.
  apply A in H. by apply expr_at_inside in H.
Qed.

Lemma ast_parse_block_mandatory f i j :
  ast_parse_block pc f i true <> Ok (None, j).
Proof.
  intros H. pose proof (expression_parsers_null pc f) as N.
  repeat match type of N with _ /\ _ => destruct N as [_ N] end.
  by apply N in H as [_ ?].
Qed.

Lemma ast_parse_block_safe f i m :
  i < length (tokens pc) -> ast_parse_block pc f i m <> Abort.
Proof.
  pose proof (expression_parsers_safe f) as S.
  repeat match type of S with _ /\ _ => destruct S as [_ S] end.
  apply S.
Qed.

Lemma ast_parse_fn_def_after f i m st r j st' :
  ast_parse_fn_def pc f i m st = Ok (r, j, st') ->
  match r with
  | Some _ => j < length (tokens pc) /\ directive_list st' = None
  | None => j = i /\ st' = st /\ m = false
  end.
Proof.
  unfold ast_parse_fn_def. intros H. inv_ok; subst;
    match goal with
    | H : ast_parse_fn_proto _ _ _ _ _ = Ok _ |- _ =>
        apply ast_parse_fn_proto_after in H
    end; [|done].
  match goal with
  | H : ast_parse_block _ _ _ _ = Ok _ |- _ =>
      apply ast_parse_block_inside in H
  end. tauto.
Qed.

Lemma ast_parse_fn_def_safe f i m st :
  i < length (tokens pc) -> ast_parse_fn_def pc f i m st <> Abort.
Proof.
  unfold ast_parse_fn_def. intros Hi H. inv_abort.
  - by apply ast_parse_fn_proto_safe in H.
  - match goal with
    | H : ast_parse_fn_proto _ _ _ _ _ = Ok _ |- _ =>
        apply ast_parse_fn_proto_after in H as [? _]
    end.
    by apply ast_parse_block_safe in H.
  - by apply ast_parse_block_mandatory in H.
Qed.

Lemma ast_parse_fn_decl_after f i st r j st' :
  ast_parse_fn_decl pc f i st = Ok (r, j, st') ->
  j < length (tokens pc) /\ directive_list st' = None.
Proof.
  unfold ast_parse_fn_decl. intros H. inv_ok; subst.
  match goal with
  | H : ast_parse_fn_proto _ _ _ _ _ = Ok _ |- _ =>
      apply ast_parse_fn_proto_after in H as [_ ?]
  end.
  after_tokens. split; [lia|done].
Qed.

Lemma ast_parse_fn_decl_safe f i st :
  i < length (tokens pc) -> ast_parse_fn_decl pc f i st <> Abort.
Proof.
  unfold ast_parse_fn_decl. intros Hi H. inv_abort.
  - by apply ast_parse_fn_proto_safe in H.
  - match goal with
    | H : ast_parse_fn_proto _ _ _ _ _ = Ok _ |- _ =>
        apply ast_parse_fn_proto_after in H as [? _]
    end. lia.
  - match goal with
    | H : ast_parse_fn_proto _ _ _ _ _ = Ok _ |- _ =>
        by apply ast_parse_fn_proto_after in H as (_ & _ & ?)
    end.
Qed.

Lemma directive_list_length_safe st :
  is_Some (directive_list st) -> directive_list_length st <> Abort.
Proof. unfold directive_list_length. by intros [p ->]. Qed.

Lemma ast_parse_extern_block_loop_after f i st acc r j st' :
  ast_parse_extern_block_loop pc f i st acc = Ok (r, j, st') ->
  j < length (tokens pc) /\ directive_list st' = None.
Proof.
  revert i st acc. induction f as [|f IH]; intros i st acc H; [done|].
  simpl in H. inv_ok; subst; [|by eapply IH].
  after_tokens. split; [lia|done].
Qed.

Lemma ast_parse_extern_block_loop_safe f i st acc :
  directive_list st = None -> i < length (tokens pc) ->
  ast_parse_extern_block_loop pc f i st acc <> Abort.
Proof.
  revert i st acc. induction f as [|f IH]; intros i st acc Hst Hi H; [done|].
  simpl in H. inv_abort; inv_ok;
    repeat match goal with
    | H : collect_directives _ _ _ _ = Ok _ |- _ =>
        apply collect_directives_after in H as [? ?]
    | H : ast_parse_fn_decl _ _ _ _ = Ok _ |- _ =>
        apply ast_parse_fn_decl_after in H as [? ?]
    end; try lia.
  - by apply collect_directives_safe in H.
  - by apply directive_list_length_safe in H.
  - by apply ast_parse_fn_decl_safe in H.
  - by apply IH in H.
Qed.

Lemma ast_parse_extern_block_after f i m st r j st' :
  ast_parse_extern_block pc f i m st = Ok (r, j, st') ->
  match r with
  | Some _ => j < length (tokens pc) /\ directive_list st' = None
  | None => j = i /\ st' = st
  end.
Proof.
  unfold ast_parse_extern_block. intros H. inv_ok; subst; [done|].
  match goal with
  | H : ast_parse_extern_block_loop _ _ _ _ _ = Ok _ |- _ =>
      by apply ast_parse_extern_block_loop_after in H
  end.
Qed.

Lemma ast_parse_extern_block_safe f i m st :
  i < length (tokens pc) -> ast_parse_extern_block pc f i m st <> Abort.
Proof.
  unfold ast_parse_extern_block. intros Hi H.
  inv_abort; inv_ok; after_tokens; try lia.
  apply ast_parse_extern_block_loop_safe in H; [done|done|lia].
Qed.

Lemma ast_parse_root_export_decl_after i st r j st' :
  ast_parse_root_export_decl pc i false st = Ok (r, j, st') ->
  match r with
  | Some _ => j < length (tokens pc) /\ directive_list st' = None
  | None => j = i /\ st' = st
  end.
Proof.
  unfold ast_parse_root_export_decl. intros H.
  inv_ok; subst; try done. after_tokens. split; [lia|done].
Qed.

Lemma ast_parse_root_export_decl_safe i st :
  i < length (tokens pc) -> ast_parse_root_export_decl pc i false st <> Abort.
Proof.
  unfold ast_parse_root_export_decl. intros Hi H.
  inv_abort; returned 0; lia.
Qed.

Lemma ast_parse_use_after i st r j st' :
  ast_parse_use pc i false st = Ok (r, j, st') ->
  match r with
  | Some _ => j < length (tokens pc) /\ directive_list st' = None
  | None => j = i /\ st' = st
  end.
Proof.
  unfold ast_parse_use. intros H.
  inv_ok; subst; try done. after_tokens. split; [lia|done].
Qed.

Lemma ast_parse_use_safe i st :
  i < length (tokens pc) -> ast_parse_use pc i false st <> Abort.
Proof.
  unfold ast_parse_use. intros Hi H.
  inv_abort; returned 0; lia.
Qed.

Lemma ast_parse_top_level_decls_inside f i st acc r j st' :
  directive_list st = None ->
  ast_parse_top_level_decls pc f i st acc = Ok (r, j, st') ->
  j < length (tokens pc).
Proof.
  intros Hst H.
  apply ast_parse_top_level_decls_at in H as (_ & new & _ & H & _); [|done].
  clear Hst. induction H as [i t Ht _|]; [|done].
  by apply lookup_lt_Some in Ht.
Qed.

Lemma ast_parse_top_level_decls_safe f i st acc :
  directive_list st = None -> i < length (tokens pc) ->
  ast_parse_top_level_decls pc f i st acc <> Abort.
Proof.
  revert i st acc. induction f as [|f IH]; intros i st acc Hst Hi H; [done|].
  cbn [ast_parse_top_level_decls] in H.
  inv_abort; inv_ok;
    repeat match goal with
    | H : collect_directives _ _ _ _ = Ok _ |- _ =>
        apply collect_directives_after in H as [? ?]
    | H : ast_parse_root_export_decl _ _ _ _ = Ok _ |- _ =>
        apply ast_parse_root_export_decl_after in H
    | H : ast_parse_fn_def _ _ _ _ _ = Ok _ |- _ =>
        apply ast_parse_fn_def_after in H
    | H : ast_parse_extern_block _ _ _ _ _ = Ok _ |- _ =>
        apply ast_parse_extern_block_after in H
    | H : ast_parse_use _ _ _ _ = Ok _ |- _ =>
        apply ast_parse_use_after in H
    | H : _ /\ _ |- _ => destruct H
    end; subst;
    match goal with
    | H : collect_directives _ _ _ _ = Abort |- _ =>
        by apply collect_directives_safe in H
    | H : ast_parse_root_export_decl _ _ _ _ = Abort |- _ =>
        by apply ast_parse_root_export_decl_safe in H
    | H : ast_parse_fn_def _ _ _ _ _ = Abort |- _ =>
        by apply ast_parse_fn_def_safe in H
    | H : ast_parse_extern_block _ _ _ _ _ = Abort |- _ =>
        by apply ast_parse_extern_block_safe in H
    | H : ast_parse_use _ _ _ _ = Abort |- _ =>
        by apply ast_parse_use_safe in H
    | H : directive_list_length _ = Abort |- _ =>
        by apply directive_list_length_safe in H
    | H : ast_parse_top_level_decls _ _ _ _ _ = Abort |- _ =>
        by apply IH in H
    | _ => lia
    end.
Qed.

(** On the token list of a lexer, which ends with the end-of-file token and
    holds no string literal with an open escape, no assertion of the parser
    fails and no read leaves the token list. *)
Theorem ast_parse_is_safe : ast_parse pc <> Abort.
Proof.
  unfold ast_parse, ast_parse_root. intros H.
  assert (0 < length (tokens pc)).
  { destruct Heof as (eof & Hlast & _).
    destruct (tokens pc); [done | simpl; lia]. }
  inv_abort; inv_ok; try lia.
  - by apply ast_parse_top_level_decls_safe in H.
  - match goal with
    | H : ast_parse_top_level_decls _ _ _ _ _ = Ok _ |- _ =>
        apply ast_parse_top_level_decls_inside in H; [lia|done]
    end.
Qed.

End Safe.

(** * The theorems at sample inputs *)

Lemma tokens_from_sublist pc i l :
  take (length l) (drop i (tokens pc)) = l -> tokens_from pc i l.
Proof.
  intros H k t Hk. rewrite <- H in Hk.
  apply lookup_take_Some in Hk as [Hk _]. by rewrite lookup_drop in Hk.
Qed.

Lemma binary_level_folds_once_witness :
  ast_parse_add_expr pc_chain 14 5 true =
    Ok (Some (NodeTypeBinOpExpr {| line := 1; column := 12 |}
                (NodeTypeSymbol {| line := 1; column := 10 |} "a")
                BinOpTypeAdd
                (NodeTypeSymbol {| line := 1; column := 14 |} "b")), 8) /\
  ast_parse_expression_statement pc_chain 15 5 =
    Exit (invalid_token_at pc_chain (mkToken TokenIdPlus 15 16 1 16)).
Proof.
  pose proof (binary_level_folds_once pc_chain LevelAdd 14 5 true
    (mkToken TokenIdSymbol 9 10 1 10) (mkToken TokenIdPlus 11 12 1 12)
    (mkToken TokenIdSymbol 13 14 1 14) (mkToken TokenIdPlus 15 16 1 16))
    as H.
  destruct H as (H1 & _ & _ & H4).
  - lia.
  - apply tokens_from_sublist. reflexivity.
  - left. reflexivity.
  - vm_compute. discriminate.
  - left. reflexivity.
  - right. vm_compute. discriminate.
  - split; [exact H1|]. apply H4. vm_compute. discriminate.
Defined.

Lemma precedence_ladder_witness :
  ast_parse_expression pc_precedence 14 0 true =
    Ok (Some (NodeTypeBinOpExpr {| line := 1; column := 3 |}
                (NodeTypeSymbol {| line := 1; column := 1 |} "a")
                BinOpTypeAdd
                (NodeTypeBinOpExpr {| line := 1; column := 7 |}
                   (NodeTypeSymbol {| line := 1; column := 5 |} "b")
                   BinOpTypeMult
                   (NodeTypeSymbol {| line := 1; column := 9 |} "c"))), 5) /\
  ast_parse_expression pc_comparison 14 0 true =
    Ok (Some (NodeTypeBinOpExpr {| line := 1; column := 3 |}
                (NodeTypeSymbol {| line := 1; column := 1 |} "a")
                BinOpTypeCmpLessThan
                (NodeTypeBinOpExpr {| line := 1; column := 7 |}
                   (NodeTypeSymbol {| line := 1; column := 5 |} "b")
                   BinOpTypeBinOr
                   (NodeTypeSymbol {| line := 1; column := 9 |} "c"))), 5).
Proof.
  split.
  - apply (proj1 (precedence_ladder pc_precedence 14 0 true (le_n 14))
      (mkToken TokenIdSymbol 0 1 1 1) (mkToken TokenIdPlus 2 3 1 3)
      (mkToken TokenIdSymbol 4 5 1 5) (mkToken TokenIdStar 6 7 1 7)
      (mkToken TokenIdSymbol 8 9 1 9) (mkToken TokenIdSemicolon 9 10 1 10)).
    + apply tokens_from_sublist. reflexivity.
    + left. reflexivity.
    + reflexivity.
    + left. reflexivity.
    + reflexivity.
    + left. reflexivity.
    + apply semicolon_ends_expression. reflexivity.
  - apply (proj2 (proj2 (proj2 (proj2 (proj2
      (precedence_ladder pc_comparison 14 0 true (le_n 14))))))
      (mkToken TokenIdSymbol 0 1 1 1) (mkToken TokenIdCmpLessThan 2 3 1 3)
      (mkToken TokenIdSymbol 4 5 1 5) (mkToken TokenIdBinOr 6 7 1 7)
      (mkToken TokenIdSymbol 8 9 1 9) (mkToken TokenIdSemicolon 9 10 1 10)
      BinOpTypeCmpLessThan).
    + apply tokens_from_sublist. reflexivity.
    + left. reflexivity.
    + right. right. left. split; reflexivity.
    + left. reflexivity.
    + reflexivity.
    + left. reflexivity.
    + apply semicolon_ends_expression. reflexivity.
Defined.

Lemma fn_proto_return_type_witness :
  exists node j st',
    ast_parse_fn_proto pc_s1 (parse_fuel pc_s1) 0 false initial_state =
      Ok (Some node, j, st') /\
    exists p directives visib_mod name params return_type i1 k arrow,
      node = NodeTypeFnProto p directives visib_mod name params return_type /\
      ast_parse_param_decl_list pc_s1 (parse_fuel pc_s1) i1 = Ok (params, k) /\
      tokens pc_s1 !! k = Some arrow /\
      (id arrow <> TokenIdArrow ->
       return_type = NodeTypeTypePrimitive (pos_of_token arrow) "void" /\
       j = k) /\
      (id arrow = TokenIdArrow ->
       ast_parse_type pc_s1 (parse_fuel pc_s1) (k + 1) = Ok (return_type, j)).
Proof.
  eexists _, _, _. split; [vm_compute; reflexivity|].
  eapply (fn_proto_return_type pc_s1 (parse_fuel pc_s1) 0 false
            initial_state).
  vm_compute. reflexivity.
Defined.

Lemma orphan_directive_is_fatal_witness :
  ast_parse_top_level_decls pc_orphan 11 0 initial_state [] =
    Exit (invalid_directive_at (mkToken TokenIdNumberSign 0 1 1 1)) /\
  ast_parse_extern_block_loop pc_extern_orphan 11 2
    {| directive_list := None; lists := [[]] |} [] =
    Exit (invalid_directive_at (mkToken TokenIdNumberSign 9 10 1 10)).
Proof.
  split.
  - apply (orphan_directive_is_fatal pc_orphan 10 0 initial_state []
      (mkToken TokenIdNumberSign 0 1 1 1) 5
      {| directive_list := Some 0;
         lists := [[NodeTypeDirective {| line := 1; column := 1 |}
                      "link" "c"]] |}
      1 (mkToken TokenIdEof 10 10 1 11)).
    + reflexivity.
    + vm_compute. reflexivity.
    + reflexivity.
    + reflexivity.
    + lia.
    + vm_compute. repeat split; discriminate.
  - apply (orphan_directive_is_fatal pc_extern_orphan 10 2
      {| directive_list := None; lists := [[]] |} []
      (mkToken TokenIdNumberSign 9 10 1 10) 7
      {| directive_list := Some 1;
         lists := [[]; [NodeTypeDirective {| line := 1; column := 10 |}
                          "link" "c"]] |}
      1 (mkToken TokenIdRBrace 20 21 1 21)).
    + reflexivity.
    + vm_compute. reflexivity.
    + reflexivity.
    + reflexivity.
    + lia.
    + reflexivity.
Defined.

Lemma ast_parse_root_end_of_tokens_witness :
  (exists decls st',
     ast_parse_root pc_s1 (parse_fuel pc_s1) 0 initial_state =
       Ok (NodeTypeRoot {| line := 1; column := 1 |} decls, 9, st')) /\
  (exists token,
     tokens pc_nul !! 0 = Some token /\
     ast_parse_root pc_nul (parse_fuel pc_nul) 0 initial_state =
       Exit {| line_start := start_line token;
               column_start := start_column token;
               line_end := (-1)%Z; column_end := (-1)%Z;
               msg := "invalid token: '" +:+
                        c_str (ast_buf_from_token pc_nul token) +:+ "'" |}).
Proof.
  split.
  - eexists _, _.
    apply (proj1 (ast_parse_root_end_of_tokens pc_s1 (parse_fuel pc_s1) 0
      initial_state (mkToken TokenIdKeywordFn 0 2 1 1) _ 9 _ eq_refl
      ltac:(vm_compute; reflexivity))).
    reflexivity.
  - apply (proj1 (proj2 (ast_parse_root_end_of_tokens pc_nul
      (parse_fuel pc_nul) 0 initial_state
      (mkToken TokenIdStringLiteral 0 5 1 1) [] 0 _ eq_refl
      ltac:(vm_compute; reflexivity)))).
    simpl. lia.
Defined.

Lemma grouped_expr_is_inner_expr_witness :
  ast_parse_grouped_expr pc_grouped 21 5 false =
    Ok (Some (NodeTypeSymbol {| line := 1; column := 11 |} "x"), 8) /\
  ast_parse_primary_expr pc_grouped 22 5 false =
    Ok (Some (NodeTypeSymbol {| line := 1; column := 11 |} "x"), 8).
Proof.
  apply (proj1 (grouped_expr_is_inner_expr pc_grouped 20 5 false
    (mkToken TokenIdLParen 9 10 1 10) eq_refl eq_refl)
    _ 7 (mkToken TokenIdRParen 11 12 1 12)).
  - vm_compute. reflexivity.
  - reflexivity.
  - reflexivity.
Defined.

Lemma nodes_are_placed_witness :
  exists root j st',
    ast_parse_root pc_positions (parse_fuel pc_positions) 0 initial_state =
      Ok (root, j, st') /\
    root_at pc_positions (lists st') 0 root j.
Proof.
  eexists _, _, _. split; [vm_compute; reflexivity|].
  apply (nodes_are_placed pc_positions (parse_fuel pc_positions)).
  vm_compute. reflexivity.
Defined.

Lemma directives_attach_once_witness :
  exists root j st',
    ast_parse_root pc_directives (parse_fuel pc_directives) 0 initial_state =
      Ok (root, j, st') /\
    directive_list st' = None /\
    root_at pc_directives (lists st') 0 root j /\
    NoDup (directive_fields root) /\
    (forall d, d ∈ directive_fields root ->
       exists p, d = Some p /\ p < length (lists st')) /\
    (forall p l, lists st' !! p = Some l -> l <> [] ->
       Some p ∈ directive_fields root).
Proof.
  eexists _, _, _. split; [vm_compute; reflexivity|].
  destruct (directives_attach_once pc_directives) as (_ & _ & _ & _ & _ & H).
  apply (H (parse_fuel pc_directives)). vm_compute. reflexivity.
Defined.

Lemma ast_parse_is_safe_witness : ast_parse pc_directives <> Abort.
Proof.
  apply (ast_parse_is_safe pc_directives).
  - eexists. split; reflexivity.
  - unfold string_literals_closed.
    repeat constructor; intros _; vm_compute; reflexivity.
Defined.

Lemma ast_parse_diagnostic_witness :
  diagnostic_at_token pc_s6
    {| line_start := 1; column_start := 20; line_end := -1;
       column_end := -1; msg := "invalid token: '-'" |} /\
  diagnostic_at_token pc_nul
    {| line_start := 1; column_start := 1; line_end := -1;
       column_end := -1; msg := "invalid token: '" +:+ String "034" "a'" |}.
Proof.
  split.
  - apply (ast_parse_diagnostic pc_s6). vm_compute. reflexivity.
  - apply (ast_parse_diagnostic pc_nul). vm_compute. reflexivity.
Defined.

Lemma expression_parser_cursor_witness :
  exists node,
    ast_parse_expression pc_s1 20 5 true = Ok (Some node, 7) /\
    5 < 7 <= length (tokens pc_s1).
Proof.
  eexists. split; [vm_compute; reflexivity|].
  eapply (expression_parser_cursor pc_s1 ParserExpression 20 5 true
            (Some _) 7).
  vm_compute. reflexivity.
Defined.


Lemma parsed_tree_is_well_formed_witness :
  exists root store,
    ast_parse pc_directives = Ok (root, store) /\
    is_root root = true /\ directive_lists store.
Proof.
  eexists _, _. split; [vm_compute; reflexivity|].
  eapply (parsed_tree_is_well_formed pc_directives).
  vm_compute. reflexivity.
Defined.

Lemma ast_parse_type_tokens_witness :
  exists node,
    ast_parse_type pc_pointer 3 0 = Ok (node, 5) /\
    pointer_depth node = 2 /\
    is_type node = true /\ 5 = 0 + 1 + 2 * pointer_depth node.
Proof.
  eexists. split; [vm_compute; reflexivity|]. split; [reflexivity|].
  eapply (ast_parse_type_tokens pc_pointer 3 0). vm_compute. reflexivity.
Defined.

Lemma parse_string_literal_size_witness :
  exists str,
    parse_string_literal pc_escapes (mkToken TokenIdStringLiteral 0 12 1 1)
      = Ok str /\
    String.length str <= 12 - 1 - (0 + 1).
Proof.
  eexists. split; [vm_compute; reflexivity|].
  apply (proj1 (parse_string_literal_size pc_escapes
                  (mkToken TokenIdStringLiteral 0 12 1 1))).
  vm_compute. reflexivity.
Defined.

Lemma operator_names_are_distinct_witness : BinOpTypeAdd = BinOpTypeAdd.
Proof.
  apply (proj1 operator_names_are_distinct BinOpTypeAdd BinOpTypeAdd).
  reflexivity.
Defined.

Lemma ast_parse_empty_program_witness :
  ast_parse pc_empty =
    Ok (NodeTypeRoot {| line := 1; column := 1 |} [], [[]]).
Proof.
  apply (ast_parse_empty_program pc_empty (mkToken TokenIdEof 0 0 1 1));
    reflexivity.
Defined.

Lemma parsed_tree_size_witness :
  exists root store,
    ast_parse pc_directives = Ok (root, store) /\
    printed_nodes root <= length (tokens pc_directives).
Proof.
  eexists _, _. split; [vm_compute; reflexivity|].
  eapply (parsed_tree_size pc_directives). vm_compute. reflexivity.
Defined.
